(** * regex-chess: the regex text machine and its compiler

    A shallow embedding of [instruction_set.py] and [compiler.py].

    The compiled program is a list of [(pattern, replacement)] pairs that the
    runtime applies with [re.sub(pattern, repl, state)], once each, in order
    ([main.py], [tests.py: execute_instruction]).  The first part of this file
    models the fragment of Python's [re] engine the instruction library uses:
    a backtracking matcher with greedy repetition, capture groups and
    backreferences, and the leftmost, non-overlapping, global substitution of
    [re.sub].  The instruction library is then transcribed rule by rule. *)

From Stdlib Require Import Ascii String List Arith Bool Lia ZArith.
From Stdlib Require Import DecimalString DecimalNat.
Import ListNotations.
Open Scope list_scope.
Set Warnings "-register-all".

Set Warnings "-comment-terminator-in-string".

(** ** Text *)

Definition str := list ascii.

Definition nl : ascii := "010"%char.
Definition bslash : ascii := "\"%char.

(** Python source literals write a line feed as backslash-n; [esc] reads a
    literal the same way. *)
Fixpoint esc (s : string) : str :=
  match s with
  | EmptyString => []
  | String c s' =>
      if Ascii.eqb c bslash then
        match s' with
        | String "n"%char s'' => nl :: esc s''
        | _ => c :: esc s'
        end
      else c :: esc s'
  end.

(** ** Regular expressions

    The constructors cover what the rule templates use: literal characters,
    bracket classes (a listed set, possibly negated), concatenation,
    alternation, greedy repetition, numbered capture groups, backreferences
    and the two anchors.  Without [re.MULTILINE], [^] holds only at offset 0
    and [$] at the end of the text or just before a final line feed; without
    [re.DOTALL], [.] is the class of everything but line feed. *)

Inductive regex : Type :=
| Eps
| Chr (c : ascii)
| Cls (neg : bool) (cs : list ascii)
| Seq (a b : regex)
| Alt (a b : regex)
| Star (a : regex)
| Grp (i : nat) (a : regex)
| Ref (i : nat)
| Bol
| Eol.

Definition mem (c : ascii) (cs : list ascii) : bool :=
  existsb (Ascii.eqb c) cs.

Definition in_cls (neg : bool) (cs : list ascii) (c : ascii) : bool :=
  xorb neg (mem c cs).

(** Derived forms. *)
Definition cat (rs : list regex) : regex := fold_right Seq Eps rs.
Definition lits (s : str) : regex := cat (map Chr s).
Definition lit (s : string) : regex := lits (esc s).
Definition set (s : string) : regex := Cls false (esc s).
Definition nset (s : string) : regex := Cls true (esc s).
Definition dot : regex := Cls true [nl].
Definition star (a : regex) : regex := Star a.
Definition plus (a : regex) : regex := Seq a (Star a).
Definition opt (a : regex) : regex := Alt a Eps.
Fixpoint rep (n : nat) (a : regex) : regex :=
  match n with
  | 0 => Eps
  | S n' => Seq a (rep n' a)
  end.

(** ** The backtracking matcher *)

Definition captures := list (nat * str).

Fixpoint group (i : nat) (cs : captures) : option str :=
  match cs with
  | [] => None
  | (j, w) :: cs' => if Nat.eqb i j then Some w else group i cs'
  end.

(** A matcher state: the text still ahead, the groups closed so far, and
    whether the matcher still stands at offset 0 of the whole text. *)
Record mstate : Type := MS { rest : str; caps : captures; at0 : bool }.

Definition answer : Type := (str * captures)%type.

(** A continuation receives the text matched by the expression just
    finished and the state after it. *)
Definition cont : Type := str -> mstate -> option answer.

Definition orelse (x y : option answer) : option answer :=
  match x with
  | Some _ => x
  | None => y
  end.

Fixpoint strip_prefix (w s : str) : option str :=
  match w, s with
  | [], _ => Some s
  | _ :: _, [] => None
  | a :: w', b :: s' => if Ascii.eqb a b then strip_prefix w' s' else None
  end.

Definition is_nil (s : str) : bool :=
  match s with [] => true | _ => false end.

(** The greedy loop of a repetition: [step] runs the body once.  One more
    round is tried before the continuation; a round that consumes nothing
    ends the repetition.  Every round consumes a character, so the length of
    the text ahead bounds the number of rounds. *)
Fixpoint star_loop (step : cont -> mstate -> option answer) (fuel : nat)
    (k : cont) (st : mstate) {struct fuel} : option answer :=
  match fuel with
  | 0 => k [] st
  | S fuel' =>
      orelse
        (step (fun w1 st1 =>
                 if is_nil w1 then None
                 else star_loop step fuel' (fun w2 st2 => k (w1 ++ w2) st2) st1) st)
        (k [] st)
  end.

(** [m r k st] runs [r] at [st] and hands every way of matching it, in
    priority order, to [k]; the first success wins. *)
Fixpoint m (r : regex) (k : cont) (st : mstate) {struct r} : option answer :=
  match r with
  | Eps => k [] st
  | Chr c =>
      match rest st with
      | x :: s' => if Ascii.eqb x c then k [x] (MS s' (caps st) false) else None
      | [] => None
      end
  | Cls neg cs =>
      match rest st with
      | x :: s' => if in_cls neg cs x then k [x] (MS s' (caps st) false) else None
      | [] => None
      end
  | Seq a b => m a (fun w1 st1 => m b (fun w2 st2 => k (w1 ++ w2) st2) st1) st
  | Alt a b => orelse (m a k st) (m b k st)
  | Star a => star_loop (m a) (length (rest st)) k st
  | Grp i a => m a (fun w st' => k w (MS (rest st') ((i, w) :: caps st') (at0 st'))) st
  | Ref i =>
      match group i (caps st) with
      | Some w =>
          match strip_prefix w (rest st) with
          | Some s' => k w (MS s' (caps st) (at0 st && is_nil w))
          | None => None
          end
      | None => None
      end
  | Bol => if at0 st then k [] st else None
  | Eol =>
      match rest st with
      | [] => k [] st
      | [x] => if Ascii.eqb x nl then k [] st else None
      | _ => None
      end
  end.

(** ** [re.sub] *)

(** One search at the current offset: the text matched and the groups, if
    the pattern matches here.  After an empty match the engine searches the
    same offset again but refuses another empty match ([must_advance]). *)
Definition search (r : regex) (s : str) (bol must_advance : bool) : option answer :=
  m r (fun w st => if must_advance && is_nil w then None else Some (w, caps st))
    (MS s [] bol).

(** Replacement templates: literal characters and group references. *)
Inductive titem : Type :=
| TLit (c : ascii)
| TRef (i : nat).

Definition template := list titem.

Definition expand1 (cs : captures) (t : titem) : str :=
  match t with
  | TLit c => [c]
  | TRef i => match group i cs with Some w => w | None => [] end
  end.

Definition expand (t : template) (cs : captures) : str :=
  flat_map (expand1 cs) t.

(** The scan of [re.sub]: the leftmost match at or after the current
    offset is replaced and the scan resumes behind it.  [skip] counts the
    characters that still belong to the last match.  After an empty match the
    same offset is searched once more for a non-empty one before its
    character is copied. *)
Fixpoint sub_from (r : regex) (t : template) (s : str)
    (skip : nat) (bol : bool) {struct s} : str :=
  match skip with
  | S k =>
      match s with
      | [] => []
      | _ :: s' => sub_from r t s' k false
      end
  | 0 =>
      match search r s bol false with
      | Some ([], cs) =>
          expand t cs ++
          match s with
          | [] => []
          | c :: s' =>
              match search r s bol true with
              | Some (w', cs') => expand t cs' ++ sub_from r t s' (length w' - 1) false
              | None => c :: sub_from r t s' 0 false
              end
          end
      | Some (_ :: w', cs) =>
          expand t cs ++
          match s with
          | [] => []
          | _ :: s' => sub_from r t s' (length w') false
          end
      | None =>
          match s with
          | [] => []
          | c :: s' => c :: sub_from r t s' 0 false
          end
      end
  end.

(** [re.sub(pattern, repl, state)] *)
Definition sub (r : regex) (t : template) (s : str) : str :=
  sub_from r t s 0 true.

(** A rule is a [(pattern, replacement)] pair; an instruction expands to a
    list of rules, applied once each, in order. *)
Definition rule : Type := (regex * template)%type.
Definition instruction := list rule.

Definition apply_rule (s : str) (p : rule) : str := sub (fst p) (snd p) s.

Definition run (i : instruction) (s : str) : str := fold_left apply_rule i s.

(** Replacement templates as the source writes them: backslash-digit and
    backslash-g-angle-bracket group references, backslash-n, literal text. *)
Definition digit_val (c : ascii) : option nat :=
  let n := nat_of_ascii c in
  if (48 <=? n) && (n <=? 57) then Some (n - 48) else None.

Fixpoint read_num (s : string) (acc : nat) : nat * string :=
  match s with
  | String c s' =>
      match digit_val c with
      | Some d => read_num s' (10 * acc + d)
      | None => (acc, s)
      end
  | EmptyString => (acc, s)
  end.

Fixpoint tpl_ (fuel : nat) (s : string) : template :=
  match fuel with
  | 0 => []
  | S fuel' =>
      match s with
      | EmptyString => []
      | String c s' =>
          if Ascii.eqb c bslash then
            match s' with
            | String "n"%char s'' => TLit nl :: tpl_ fuel' s''
            | String "g"%char (String "<"%char s'') =>
                let (n, s3) := read_num s'' 0 in
                match s3 with
                | String ">"%char s4 => TRef n :: tpl_ fuel' s4
                | _ => TLit c :: tpl_ fuel' s'
                end
            | String d s'' =>
                match digit_val d with
                | Some n =>
                    match s'' with
                    | String d2 s3 =>
                        match digit_val d2 with
                        | Some n2 => TRef (10 * n + n2) :: tpl_ fuel' s3
                        | None => TRef n :: tpl_ fuel' s''
                        end
                    | EmptyString => [TRef n]
                    end
                | None => TLit c :: tpl_ fuel' s'
                end
            | EmptyString => [TLit c]
            end
          else TLit c :: tpl_ fuel' s'
      end
  end.

Definition tpl (s : string) : template := tpl_ (String.length s) s.

Definition tlit (s : str) : template := map TLit s.

(** ** The instruction library ([instruction_set.py])

    Each definition lists the rules of the source function of the same name,
    in order; the source pattern is quoted above its transcription.  Names and
    tags are spliced into the source patterns as they are; here they are
    literal text, which is what the source means for names and tags free of
    regex metacharacters. *)

Definition A : ascii := "A"%char.
Definition unary (n : nat) : str := repeat A n.

(** [f"int{num:010b}"]: the binary digits of [num], most significant first,
    padded with zeros to ten places (longer when [num] needs more). *)
Definition digit (n w : nat) : ascii :=
  if Nat.odd (n / 2 ^ w) then "1"%char else "0"%char.

Fixpoint bits (width n : nat) : str :=
  match width with
  | 0 => []
  | S w => digit n w :: bits w n
  end.

Definition i2s (num : nat) : str :=
  esc "int" ++ bits (Nat.max 10 (Nat.log2 num + 1)) num.

(** The group ["(%%\n#stack:\n)"] that opens most patterns. *)
Definition stack_hdr : regex := Grp 1 (lit "%%\n#stack:\n").

Definition header : str := esc "%%\n#stack:\n".

Definition lookup (variable : string) : instruction :=
  (* "(%%\n#stack:)([^%]*\n#VARIABLE: )([^#%]*)\n"  ->  "\1\n\3\2\3\n" *)
  [ (cat [ Grp 1 (lit "%%\n#stack:");
           Grp 2 (cat [star (nset "%"); lit "\n#"; lit variable; lit ": "]);
           Grp 3 (star (nset "#%"));
           lit "\n" ],
     tpl "\1\n\3\2\3\n") ].

Definition push (const : str) : instruction :=
  (* "(%%\n#stack:\n)"  ->  "\g<1> const \n" *)
  [ (stack_hdr, tpl "\g<1>" ++ tlit const ++ tpl "\n") ].

Definition push_int (const : nat) : instruction := push (i2s const).

Definition pop : instruction :=
  (* "(%%\n#stack:\n)([^\n]*)\n"  ->  "\1" *)
  [ (cat [stack_hdr; Grp 2 (star (nset "\n")); lit "\n"], tpl "\1") ].

Definition peek : instruction := [].

Definition dup : instruction :=
  (* "(%%\n#stack:\n)([^\n]*)\n"  ->  "\1\2\n\2\n" *)
  [ (cat [stack_hdr; Grp 2 (star (nset "\n")); lit "\n"], tpl "\1\2\n\2\n") ].

Definition swap : instruction :=
  (* "(%%\n#stack:\n)([^\n]*)\n([^\n]*)\n"  ->  "\1\3\n\2\n" *)
  [ (cat [stack_hdr; Grp 2 (star (nset "\n")); lit "\n";
          Grp 3 (star (nset "\n")); lit "\n"],
     tpl "\1\3\n\2\n") ].

Definition eq : instruction :=
  [ (* "(%%\n#stack:\n)([^\n]*)\n\2\n"  ->  "\1`True\n" *)
    (cat [stack_hdr; Grp 2 (star (nset "\n")); lit "\n"; Ref 2; lit "\n"],
     tpl "\1`True\n");
    (* "(%%\n#stack:\n)([^`][^\n]*)\n([^\n]*)\n"  ->  "\1False\n" *)
    (cat [stack_hdr; Grp 2 (cat [nset "`"; star (nset "\n")]); lit "\n";
          Grp 3 (star (nset "\n")); lit "\n"],
     tpl "\1False\n");
    (* "`"  ->  (empty) *)
    (lit "`", tpl "") ].

Definition boolean_not : instruction :=
  [ (* "(%%\n#stack:\n)True\n"  ->  "\1`False\n" *)
    (cat [stack_hdr; lit "True\n"], tpl "\1`False\n");
    (* "(%%\n#stack:\n)False\n"  ->  "\1`True\n" *)
    (cat [stack_hdr; lit "False\n"], tpl "\1`True\n");
    (* "`"  ->  (empty) *)
    (lit "`", tpl "") ].

Definition neq : instruction := eq ++ boolean_not.

Definition cond (tag : string) : instruction :=
  [ (* "%(%\n#stack:\nTrue)"  ->  "%\1`" *)
    (cat [lit "%"; Grp 1 (lit "%\n#stack:\nTrue")], tpl "%\1`");
    (* "%(\n#stack:\nFalse)"  ->  "TAG\1`" *)
    (cat [lit "%"; Grp 1 (lit "\n#stack:\nFalse")], tlit (esc tag) ++ tpl "\1`");
    (* "\n(True|False)`\n"  ->  "\n" *)
    (cat [lit "\n"; Grp 1 (Alt (lit "True") (lit "False")); lit "`\n"], tpl "\n") ].

Definition reactivate (tag : string) : instruction :=
  (* "%TAG\n([^%]*)"  ->  "%%\n\1" *)
  [ (cat [lit "%"; lit tag; lit "\n"; Grp 1 (star (nset "%"))], tpl "%%\n\1") ].

Definition pause (tag : string) : instruction :=
  (* "%%\n([^%]*)"  ->  "%TAG\n\1" *)
  [ (cat [lit "%%\n"; Grp 1 (star (nset "%"))],
     tpl "%" ++ tlit (esc tag) ++ tpl "\n\1") ].

Definition fork_inactive (tag : string) : instruction :=
  (* "%%\n([^%]*)"  ->  "%%\n\1%TAG\n\1" *)
  [ (cat [lit "%%\n"; Grp 1 (star (nset "%"))],
     tpl "%%\n\1%" ++ tlit (esc tag) ++ tpl "\n\1") ].

Definition destroy_active_threads : instruction :=
  (* "(%%\n[^%]*)"  ->  (empty) *)
  [ (Grp 1 (cat [lit "%%\n"; star (nset "%")]), tpl "") ].


Definition string_cat : instruction :=
  (* "(%%\n#stack:\n)([^\n]*)\n([^\n]*)\n"  ->  "\1\2\3\n" *)
  [ (cat [stack_hdr; Grp 2 (star (nset "\n")); lit "\n";
          Grp 3 (star (nset "\n")); lit "\n"],
     tpl "\1\2\3\n") ].

Definition boolean_and : instruction :=
  [ (* "(%%\n#stack:\n)True\nTrue\n"  ->  "\1`True\n" *)
    (cat [stack_hdr; lit "True\nTrue\n"], tpl "\1`True\n");
    (* "(%%\n#stack:\n)([^`][^\n]*)\n([^\n]*)\n"  ->  "\1False\n" *)
    (cat [stack_hdr; Grp 2 (cat [nset "`"; star (nset "\n")]); lit "\n";
          Grp 3 (star (nset "\n")); lit "\n"],
     tpl "\1False\n");
    (* "`"  ->  (empty) *)
    (lit "`", tpl "") ].

Definition boolean_or : instruction :=
  [ (* "(%%\n#stack:\n)False\nFalse\n"  ->  "\1`False\n" *)
    (cat [stack_hdr; lit "False\nFalse\n"], tpl "\1`False\n");
    (* "(%%\n#stack:\n)([^`][^\n]*)\n([^\n]*)\n"  ->  "\1True\n" *)
    (cat [stack_hdr; Grp 2 (cat [nset "`"; star (nset "\n")]); lit "\n";
          Grp 3 (star (nset "\n")); lit "\n"],
     tpl "\1True\n");
    (* "`"  ->  (empty) *)
    (lit "`", tpl "") ].

(** [to_unary]: one rule per bit, from bit 9 down to bit 0, then the rule
    that drops the emptied literal. *)
Definition to_unary_bit (bit : nat) : rule :=
  (* "(%%\n#stack:\n)int([01]{9-bit})1([01]{bit})"
       ->  "\1int\g<2>0\g<3>" followed by 2**bit times "A" *)
  (cat [stack_hdr; lit "int"; Grp 2 (rep (9 - bit) (set "01")); lit "1";
        Grp 3 (rep bit (set "01"))],
   tpl "\1int\g<2>0\g<3>" ++ tlit (repeat A (2 ^ bit))).

Definition to_unary : instruction :=
  map to_unary_bit (rev (seq 0 10)) ++
  (* "(%%\n#stack:\n)(int0*)"  ->  "\1" *)
  [ (cat [stack_hdr; Grp 2 (cat [lit "int"; star (lit "0")])], tpl "\1") ].

(** [from_unary]: the rule that prefixes the run of [A]s with [int], then
    for each bit from 9 down to 0 the rule that sets it and the rule that
    clears it. *)
Definition from_unary_set (bit : nat) : rule :=
  (* "(%%\n#stack:\nint[01]*)(A{2**bit})(A*)"  ->  "\g<1>1\g<3>" *)
  (cat [Grp 1 (cat [lit "%%\n#stack:\nint"; star (set "01")]);
        Grp 2 (rep (2 ^ bit) (lit "A")); Grp 3 (star (lit "A"))],
   tpl "\g<1>1\g<3>").

Definition from_unary_clear (bit : nat) : rule :=
  (* "(%%\n#stack:\n)int([01]{9-bit})([^01]A*)"  ->  "\1int\g<2>0\g<3>" *)
  (cat [stack_hdr; lit "int"; Grp 2 (rep (9 - bit) (set "01"));
        Grp 3 (cat [nset "01"; star (lit "A")])],
   tpl "\1int\g<2>0\g<3>").

Definition from_unary_prefix : rule :=
  (* "(%%\n#stack:\n)(A*)"  ->  "\1int\g<2>" *)
  (cat [stack_hdr; Grp 2 (star (lit "A"))], tpl "\1int\g<2>").

Definition from_unary : instruction :=
  from_unary_prefix ::
  flat_map (fun bit => [from_unary_set bit; from_unary_clear bit]) (rev (seq 0 10)).

Definition add_unary : instruction :=
  (* "(%%\n#stack:\n)(A*)\n(A*)\n"  ->  "\1\2\3\n" *)
  [ (cat [stack_hdr; Grp 2 (star (lit "A")); lit "\n";
          Grp 3 (star (lit "A")); lit "\n"],
     tpl "\1\2\3\n") ].

Definition sub_unary : instruction :=
  [ (* "(%%\n#stack:\n)(A*)\n\2(A*)\n"  ->  "\1`sub\3\n" *)
    (cat [stack_hdr; Grp 2 (star (lit "A")); lit "\n"; Ref 2;
          Grp 3 (star (lit "A")); lit "\n"],
     tpl "\1`sub\3\n");
    (* "(%%\n#stack:\n)(A*)\n(A*)\n"  ->  "\1`zero\n" *)
    (cat [stack_hdr; Grp 2 (star (lit "A")); lit "\n";
          Grp 3 (star (lit "A")); lit "\n"],
     tpl "\1`zero\n");
    (* "`sub(A*)\n"  ->  "\1\n" *)
    (cat [lit "`sub"; Grp 1 (star (lit "A")); lit "\n"], tpl "\1\n");
    (* "`zero\n"  ->  "\n" *)
    (lit "`zero\n", tpl "\n") ].

Definition greater_than : instruction :=
  [ (* "(%%\n#stack:\n)(A*)(A+)\n\2\n"  ->  "\1`True\n" *)
    (cat [stack_hdr; Grp 2 (star (lit "A")); Grp 3 (plus (lit "A")); lit "\n";
          Ref 2; lit "\n"],
     tpl "\1`True\n");
    (* "(%%\n#stack:\n)([^`\n]*)\n([^\n]*)\n"  ->  "\1False\n" *)
    (cat [stack_hdr; Grp 2 (star (nset "`\n")); lit "\n";
          Grp 3 (star (nset "\n")); lit "\n"],
     tpl "\1False\n");
    (* "`"  ->  (empty) *)
    (lit "`", tpl "") ].

Definition less_than : instruction := swap ++ greater_than.

Definition less_equal_than : instruction := greater_than ++ boolean_not.

Definition greater_equal_than : instruction := less_than ++ boolean_not.

Definition join_pop (sub : string) : instruction :=
  (* "(%%\n#stack:\n)(.*\n)([^%]*)%SUB\n#stack:\n(.*\n)[^%]*"  ->  "\1\4\2\3" *)
  [ (cat [stack_hdr; Grp 2 (cat [star dot; lit "\n"]); Grp 3 (star (nset "%"));
          lit "%"; lit sub; lit "\n#stack:\n"; Grp 4 (cat [star dot; lit "\n"]);
          star (nset "%")],
     tpl "\1\4\2\3") ].

Definition delete_var (var : string) : instruction :=
  (* "(%%[^%]*)(#VAR: [^\n]*\n)"  ->  "\1" *)
  [ (cat [Grp 1 (cat [lit "%%"; star (nset "%")]);
          Grp 2 (cat [lit "#"; lit var; lit ": "; star (nset "\n"); lit "\n"])],
     tpl "\1") ].

Definition illegal_move : instruction :=
  (* "^[^%<]*$"  ->  "*Illegal Move*\nYou Lose.\nGame over.\n" *)
  [ (cat [Bol; star (nset "%<"); Eol],
     tlit (esc "*Illegal Move*\nYou Lose.\nGame over.\n")) ].

Definition test_checkmate : instruction :=
  (* "^[^*%<]*$"  ->  "*Checkmate*\nYou win!\nGame over.\n" *)
  [ (cat [Bol; star (nset "*%<"); Eol],
     tlit (esc "*Checkmate*\nYou win!\nGame over.\n")) ].

(** ** Text states

    One thread is its header line, the [#stack:] line, the stack values one
    per line, top first, then the variable lines [#name: value]
    ([tests.py: CPUState.to_string]).  Values and names hold no line feed,
    [%] or [#]. *)

Definition stack_line (v : str) : str := v ++ [nl].

Definition var_line (nv : str * str) : str :=
  esc "#" ++ fst nv ++ esc ": " ++ snd nv ++ [nl].

Definition thread_body (stack : list str) (vars : list (str * str)) : str :=
  flat_map stack_line stack ++ flat_map var_line vars.

(** The active thread [%%]. *)
Definition active (stack : list str) (vars : list (str * str)) : str :=
  header ++ thread_body stack vars.

(** An inactive thread [%TAG]. *)
Definition inactive (tag : str) (stack : list str) (vars : list (str * str)) : str :=
  esc "%" ++ tag ++ esc "\n#stack:\n" ++ thread_body stack vars.

Definition plain (c : ascii) : bool := negb (mem c (esc "\n%#")).

Definition value_ok (v : str) : bool := forallb plain v.

Definition stack_ok (stack : list str) : bool := forallb value_ok stack.

Definition vars_ok (vars : list (str * str)) : bool :=
  forallb (fun nv => value_ok (fst nv) && value_ok (snd nv)) vars.

Definition thread_ok (stack : list str) (vars : list (str * str)) : bool :=
  stack_ok stack && vars_ok vars.

(** A thread: its tag ([None] for the active header), its stack and its
    variables. *)
Record thread : Type := mkThread {
  th_tag : option str;
  th_stack : list str;
  th_vars : list (str * str)
}.

Definition thread_text (th : thread) : str :=
  match th_tag th with
  | None => active (th_stack th) (th_vars th)
  | Some tag => inactive tag (th_stack th) (th_vars th)
  end.

Definition thread_wf (th : thread) : bool :=
  thread_ok (th_stack th) (th_vars th)
  && match th_tag th with
     | None => true
     | Some tag => value_ok tag
     end.

(** A state of several threads: their texts one after the other. *)
Definition state_text (ths : list thread) : str := flat_map thread_text ths.

(** ** The compiler ([compiler.py]) *)

Open Scope string_scope.
Open Scope list_scope.

(** Python values as the tracer and the linearizer meet them: integers,
    strings, [None], tuples, lists, the option dictionaries of
    [fork_with_new_var], and [Tracer] objects, of which only [value] and
    [kind] matter here. *)
Inductive pyval : Type :=
| VInt (n : Z)
| VStr (s : string)
| VNone
| VTuple (items : list pyval)
| VList (items : list pyval)
| VDict (items : list (string * string))
| VTracer (value : pyval) (kind : pyval).

(** The exceptions the compiler can die of. *)
Inductive exn : Type :=
| AssertionError
| TypeError
| ValueError
| IndexError
| AttributeError.

Inductive result (X : Type) : Type :=
| Ok (x : X)
| Raise (e : exn).
Arguments Ok {X} x.
Arguments Raise {X} e.

Definition bind {X Y : Type} (r : result X) (f : X -> result Y) : result Y :=
  match r with
  | Ok x => f x
  | Raise e => Raise e
  end.

Notation "x <- r ;; k" := (bind r (fun x => k))
  (at level 61, r at next level, right associativity).

(** An opcode: its name and its build-time arguments. *)
Definition op : Type := (string * list pyval)%type.

Definition op0 (name : string) : op := (name, []).

(** [value[i]] on a tuple or a list. *)
Definition item (v : pyval) (i : nat) : result pyval :=
  match v with
  | VTuple l | VList l =>
      match nth_error l i with
      | Some x => Ok x
      | None => Raise IndexError
      end
  | _ => Raise TypeError
  end.

Definition remap (o : string) : option string :=
  if String.eqb o "==" then Some "eq"
  else if String.eqb o "!=" then Some "neq"
  else if String.eqb o "strcat" then Some "string_cat"
  else if String.eqb o "and" then Some "boolean_and"
  else if String.eqb o "or" then Some "boolean_or"
  else None.

Definition remap_cmp (o : string) : option string :=
  if String.eqb o "<" then Some "less_than"
  else if String.eqb o ">" then Some "greater_than"
  else if String.eqb o "<=" then Some "less_equal_than"
  else if String.eqb o ">=" then Some "greater_equal_than"
  else None.

(** [linearize_expr].  An integer or a string is pushed; a [Tracer] stands
    for its [value]; anything else is taken for an expression tuple whose
    first item names the operation.  The operands are lowered in the order
    the source's list displays evaluate them.  (The branch of the source on
    [unary_ops] can never be taken: its two keys are caught by the branches
    on ['+'] and ['-'] before it.) *)
Fixpoint linearize_expr (value : pyval) : result (list op) :=
  match value with
  | VInt _ | VStr _ => Ok [("push", [value])]
  | VNone | VDict _ => Raise TypeError
  | VTracer VNone _ | VTracer (VDict _) _ | VTracer (VInt _) _
  | VTracer (VTracer _ _) _ => Raise TypeError
  | VTracer (VStr _) _ => Raise ValueError
  | VTuple items | VList items | VTracer (VTuple items) _ | VTracer (VList items) _ =>
      match items with
      | [] => Raise IndexError
      | VStr o :: args =>
          let arg1 := match args with a :: _ => Ok a | [] => Raise IndexError end in
          let arg2 := match args with _ :: b :: _ => Ok b | _ => Raise IndexError end in
          let lin1 := match args with a :: _ => linearize_expr a | [] => Raise IndexError end in
          let lin2 := match args with _ :: b :: _ => linearize_expr b | _ => Raise IndexError end in
          match remap o with
          | Some name => c2 <- lin2 ;; c1 <- lin1 ;; Ok (c2 ++ c1 ++ [op0 name])
          | None =>
          match remap_cmp o with
          | Some name =>
              c2 <- lin2 ;; c1 <- lin1 ;;
              Ok (c2 ++ [op0 "to_unary"] ++ c1 ++ [op0 "to_unary"] ++ [op0 name])
          | None =>
          if String.eqb o "not" then c1 <- lin1 ;; Ok (c1 ++ [op0 "boolean_not"])
          else if String.eqb o "+" then
            c1 <- lin1 ;; c2 <- lin2 ;; Ok (c1 ++ c2 ++ [op0 "binary_add"])
          else if String.eqb o "-" then
            c2 <- lin2 ;; c1 <- lin1 ;; Ok (c2 ++ c1 ++ [op0 "binary_subtract"])
          else if String.eqb o "%2" then
            c1 <- lin1 ;; Ok (c1 ++ [op0 "to_unary"] ++ [op0 "mod2_unary"])
          else if String.eqb o "lookup" then
            a <- arg1 ;; Ok [("lookup", [a])]
          else if String.eqb o "indirect_lookup" then
            a <- arg1 ;;
            match a with
            | VTracer inner _ => n <- item inner 1 ;; Ok [("lookup", [n]); op0 "indirect_lookup"]
            | _ => Raise AttributeError
            end
          else if String.eqb o "isany" then
            c1 <- lin1 ;; b <- arg2 ;; Ok (c1 ++ [("isany", [b])])
          else if String.eqb o "fen" then c1 <- lin1 ;; Ok (c1 ++ [op0 "fen"])
          else if String.eqb o "nop" then Ok []
          else Raise ValueError
          end end
      | VInt _ :: _ | VNone :: _ | VTuple _ :: _ => Raise ValueError
      | VList _ :: _ | VDict _ :: _ | VTracer _ _ :: _ => Raise TypeError
      end
  end.

(** *** The call tree *)

(** A leaf is a tuple [(op, args...)]; the one structural node is
    [('branch', value, [left, right])], either child a list or [None]. *)
Inductive node : Type :=
| Leaf (name : string) (args : list pyval)
| Branch (value : pyval) (lft rgt : option (list node)).

Definition subtree : Type := option (list node).

(** [next_tag]: the label [UIDn] for the counter value [n]. *)
Definition uid (n : nat) : string :=
  ("UID" ++ NilEmpty.string_of_uint (Nat.to_uint n))%string.

Definition tag_op (name : string) (n : nat) : op := (name, [VStr (uid n)]).

(** The opaque operations [linearize_subtree] passes through verbatim. *)
Definition passthrough : list string :=
  ["assign_pop"; "intxy_to_location"; "push"; "indirect_assign";
   "destroy_active_threads"; "pause"; "join_pop"; "contract_chess";
   "expand_chess"; "list_pop"; "fork_inactive"; "variable_uniq"; "make_pretty";
   "unpretty"; "is_stack_empty"; "pop"; "peek"; "fork_list_pop"; "delete_var";
   "check_king_alive"; "keep_only_first_thread"; "keep_only_max_thread";
   "keep_only_last_thread"; "keep_only_min_thread"; "illegal_move";
   "test_checkmate"; "square_to_xy"; "do_piece_assign"; "assign_stack_to";
   "piece_value"; "fix_double_list"; "binary_subtract"; "swap"; "is_same_kind";
   "boolean_and"; "binary_add"; "sub_unary"; "promote_to_queen"].

Definition in_list (s : string) (l : list string) : bool :=
  existsb (String.eqb s) l.

(** One leaf of the call tree. *)
Definition linearize_leaf (name : string) (args : list pyval) : result (list op) :=
  if String.eqb name "assign" then
    match args with
    | [key; value] =>
        match value with
        | VTracer v _ => c <- linearize_expr v ;; Ok (c ++ [("assign_pop", [key])])
        | _ => Ok [("push", [value]); ("assign_pop", [key])]
        end
    | _ => Raise ValueError
    end
  else if String.eqb name "lookup" then
    match args with
    | [key] => Ok [("lookup", [key])]
    | _ => Raise ValueError
    end
  else if String.eqb name "reactivate" then
    match args with
    | [tag] => Ok [("reactivate", [tag])]
    | _ => Raise ValueError
    end
  else if String.eqb name "fork_bool" then
    match args with
    | [tag] => Ok [("fork_bool", [tag])]
    | _ => Raise ValueError
    end
  else if String.eqb name "cond" then
    match args with
    | [e; tag] => c <- linearize_expr e ;; Ok (c ++ [("cond", [tag])])
    | _ => Raise ValueError
    end
  else if String.eqb name "fork_with_new_var" then
    match args with
    | [tag; vars] => Ok [("fork_with_new_var", [tag; vars])]
    | _ => Raise ValueError
    end
  else if in_list name passthrough then Ok [(name, args)]
  else if String.eqb name "nop" then Ok []
  else Raise ValueError.

(** [linearize_subtree], with the tag counter threaded through.  Iterating
    over a [None] child is a [TypeError]. *)
Fixpoint linearize_node (nd : node) (counter : nat) {struct nd}
    : result (list op * nat) :=
  let linearize_list :=
    fix go (l : list node) (counter : nat) {struct l} : result (list op * nat) :=
      match l with
      | [] => Ok ([], counter)
      | x :: l' =>
          r1 <- linearize_node x counter ;;
          r2 <- go l' (snd r1) ;;
          Ok (fst r1 ++ fst r2, snd r2)
      end in
  let linearize_child (t : subtree) (counter : nat) : result (list op * nat) :=
    match t with
    | Some l => linearize_list l counter
    | None => Raise TypeError
    end in
  match nd with
  | Leaf name args => c <- linearize_leaf name args ;; Ok (c, counter)
  | Branch value lft rgt =>
      let tag1 := counter in
      let tag2 := S counter in
      c <- linearize_expr value ;;
      l <- linearize_child lft (S (S counter)) ;;
      r <- linearize_child rgt (snd l) ;;
      Ok (c ++ [tag_op "cond" tag1] ++ fst l ++
          match fst r with
          | [] => [tag_op "reactivate" tag1]
          | _ :: _ =>
              [tag_op "pause" tag2; tag_op "reactivate" tag1] ++ fst r ++
              [tag_op "reactivate" tag2]
          end,
          snd r)
  end.

Fixpoint linearize_list (l : list node) (counter : nat) : result (list op * nat) :=
  match l with
  | [] => Ok ([], counter)
  | x :: l' =>
      r1 <- linearize_node x counter ;;
      r2 <- linearize_list l' (snd r1) ;;
      Ok (fst r1 ++ fst r2, snd r2)
  end.

Definition linearize_subtree (t : subtree) (counter : nat) : result (list op * nat) :=
  match t with
  | Some l => linearize_list l counter
  | None => Raise TypeError
  end.

(** [linearize_tree]: the counter starts at 0. *)
Definition linearize_tree (call_tree : list node) : result (list op) :=
  r <- linearize_list call_tree 0 ;; Ok (fst r).

(** *** The tracer *)

(** [==] as the [assert] of [CallTree.append] sees it: [Tracer.__eq__]
    builds a new [Tracer], which is true, so a comparison with a [Tracer] on
    either side holds; tuples and lists compare item by item. *)
Fixpoint py_eq (a b : pyval) {struct a} : bool :=
  let list_eq :=
    fix go (l1 l2 : list pyval) {struct l1} : bool :=
      match l1, l2 with
      | [], [] => true
      | x :: l1', y :: l2' => py_eq x y && go l1' l2'
      | _, _ => false
      end in
  match a, b with
  | VTracer _ _, _ => true
  | _, VTracer _ _ => true
  | VInt n, VInt k => Z.eqb n k
  | VStr s, VStr t => String.eqb s t
  | VNone, VNone => true
  | VTuple l1, VTuple l2 => list_eq l1 l2
  | VList l1, VList l2 => list_eq l1 l2
  | VDict d1, VDict d2 =>
      Nat.eqb (length d1) (length d2)
      && forallb (fun kv => existsb (fun kv' => String.eqb (fst kv) (fst kv')
                                               && String.eqb (snd kv) (snd kv')) d2) d1
  | _, _ => false
  end.

Fixpoint py_eq_list (l1 l2 : list pyval) : bool :=
  match l1, l2 with
  | [], [] => true
  | x :: l1', y :: l2' => py_eq x y && py_eq_list l1' l2'
  | _, _ => false
  end.

(** A leaf against the node already recorded at the cursor. *)
Definition node_eq (name : string) (args : list pyval) (nd : node) : bool :=
  match nd with
  | Leaf name' args' => String.eqb name name' && py_eq_list args args'
  | Branch _ _ _ => false
  end.

(** [CallTree.traverse]: no branch below has a [None] child. *)
Fixpoint traverse_node (nd : node) : bool :=
  let traverse_list :=
    fix go (l : list node) : bool :=
      match l with
      | [] => true
      | x :: l' => traverse_node x && go l'
      end in
  match nd with
  | Leaf _ _ => true
  | Branch _ (Some l) (Some r) => traverse_list l && traverse_list r
  | Branch _ _ _ => false
  end.

Definition traverse (t : subtree) : bool :=
  match t with
  | Some l => forallb traverse_node l
  | None => false
  end.

(** The lists of the tree are shared objects: [active_path] and the saved
    paths alias lists inside [tree].  A list is named by the way to it from
    the root: which node of the list, and which of its two children. *)
Definition path : Type := list (nat * bool).

Definition child (nd : node) (side : bool) : subtree :=
  match nd with
  | Branch _ l r => if side then r else l
  | Leaf _ _ => None
  end.

Fixpoint get_at (t : list node) (p : path) : option (list node) :=
  match p with
  | [] => Some t
  | (i, side) :: p' =>
      match nth_error t i with
      | Some nd =>
          match child nd side with
          | Some l => get_at l p'
          | None => None
          end
      | None => None
      end
  end.

Fixpoint update_nth {X : Type} (l : list X) (i : nat) (f : X -> X) : list X :=
  match l, i with
  | [], _ => []
  | x :: l', 0 => f x :: l'
  | x :: l', S i' => x :: update_nth l' i' f
  end.

Definition set_child (side : bool) (f : subtree -> subtree) (nd : node) : node :=
  match nd with
  | Branch v l r => if side then Branch v l (f r) else Branch v (f l) r
  | Leaf _ _ => nd
  end.

(** Apply [f] to the list at the end of [p]. *)
Fixpoint update_at (t : list node) (p : path) (f : list node -> list node) : list node :=
  match p with
  | [] => f t
  | (i, side) :: p' =>
      update_nth t i
        (set_child side (fun c => match c with
                                  | Some l => Some (update_at l p' f)
                                  | None => None
                                  end))
  end.

Record CallTree : Type := mkCallTree {
  tree : list node;
  active_path : path;
  pointer : nat;
  pointer_hist : list nat;
  active_path_hist : list path
}.

(** [CallTree(tree=[])] *)
Definition new_tree : CallTree := mkCallTree [] [] 0 [] [].

(** [CallTree.append] *)
Definition append (h : CallTree) (name : string) (args : list pyval) : result CallTree :=
  match get_at (tree h) (active_path h) with
  | None => Raise TypeError
  | Some ap =>
      match nth_error ap (pointer h) with
      | Some nd =>
          if node_eq name args nd
          then Ok (mkCallTree (tree h) (active_path h) (S (pointer h))
                     (pointer_hist h) (active_path_hist h))
          else Raise AssertionError
      | None =>
          Ok (mkCallTree
                (update_at (tree h) (active_path h) (fun l => l ++ [Leaf name args]))
                (active_path h) (S (pointer h))
                (pointer_hist h) (active_path_hist h))
      end
  end.

Definition or_empty (c : subtree) : subtree :=
  match c with
  | Some l => Some l
  | None => Some []
  end.

(** [CallTree.branch]: the new state and the answer of [ite]. *)
Definition branch (h : CallTree) (value : pyval) : result (CallTree * bool) :=
  let ph := pointer h :: pointer_hist h in
  let ah := active_path h :: active_path_hist h in
  match get_at (tree h) (active_path h) with
  | None => Raise TypeError
  | Some ap =>
      match nth_error ap (pointer h) with
      | Some (Branch _ l _) =>
          let side := traverse l in
          Ok (mkCallTree
                (update_at (tree h) (active_path h)
                   (fun ap => update_nth ap (pointer h) (set_child side or_empty)))
                (active_path h ++ [(pointer h, side)]) 0 ph ah,
              negb side)
      | Some (Leaf _ _) => Raise AssertionError
      | None =>
          Ok (mkCallTree
                (update_at (tree h) (active_path h)
                   (fun ap => ap ++ [Branch value (Some []) None]))
                (active_path h ++ [(pointer h, false)]) 0 ph ah,
              true)
      end
  end.

(** [CallTree.merge] *)
Definition merge (h : CallTree) : result CallTree :=
  match pointer_hist h, active_path_hist h with
  | p :: ph, a :: ah => Ok (mkCallTree (tree h) a (S p) ph ah)
  | _, _ => Raise ValueError
  end.

(** A traced program, as far as the call tree can tell: it appends leaves,
    asks [ite] and goes on according to the answer, and merges. *)
Inductive prog : Type :=
| Return
| Append (name : string) (args : list pyval) (k : prog)
| Ite (value : pyval) (k_true k_false : prog)
| Merge (k : prog).

Fixpoint exec (p : prog) (h : CallTree) : result CallTree :=
  match p with
  | Return => Ok h
  | Append name args k => h' <- append h name args ;; exec k h'
  | Ite value kt kf =>
      r <- branch h value ;;
      if snd r then exec kt (fst r) else exec kf (fst r)
  | Merge k => h' <- merge h ;; exec k h'
  end.

(** [trace]: ten runs, each from [pointer = 0]; the tree is returned as it
    then is. *)
Definition rewind (h : CallTree) : CallTree :=
  mkCallTree (tree h) (active_path h) 0 (pointer_hist h) (active_path_hist h).

Fixpoint runs (n : nat) (function : prog) (h : CallTree) : result CallTree :=
  match n with
  | 0 => Ok h
  | S n' => h' <- exec function (rewind h) ;; runs n' function h'
  end.

Definition trace (function : prog) : result (list node) :=
  h <- runs 10 function new_tree ;; Ok (tree h).

(** [re_compile], up to the opcode stream. *)
Definition re_compile_linear (function : prog) : result (list op) :=
  t <- trace function ;; linearize_tree t.

(** ** Vocabulary of the proofs *)

Definition no_nl (v : str) : bool := forallb (in_cls true [nl]) v.

(** The first rule of an instruction. *)
Definition rule1 (i : instruction) : rule := hd (Eps, []) i.

Definition is_A (x : ascii) : bool := Ascii.eqb x A.

Definition is_bit (x : ascii) : bool := in_cls false (esc "01") x.

Definition backtick : ascii := "`"%char.

(** [exact r]: the one text [r] matches, when [r] is built from literals
    only; [gcaps] are the groups it closes on the way. *)
Fixpoint exact (r : regex) : option str :=
  match r with
  | Eps => Some []
  | Chr c => Some [c]
  | Seq a b =>
      match exact a, exact b with
      | Some la, Some lb => Some (la ++ lb)
      | _, _ => None
      end
  | Grp _ a => exact a
  | _ => None
  end.

Fixpoint gcaps (r : regex) (cs : captures) : captures :=
  match r with
  | Seq a b => gcaps b (gcaps a cs)
  | Grp i a =>
      match exact a with
      | Some l => (i, l) :: gcaps a cs
      | None => cs
      end
  | _ => cs
  end.

(** [lead r]: a literal text every match of [r] starts with. *)
Fixpoint lead (r : regex) : str :=
  match r with
  | Chr c => [c]
  | Seq a b =>
      match exact a with
      | Some l => l ++ lead b
      | None => lead a
      end
  | Grp _ a => lead a
  | _ => []
  end.

Definition starts (c : ascii) (s : str) : bool :=
  match s with
  | x :: _ => Ascii.eqb x c
  | [] => false
  end.

Definition absent (c : ascii) (s : str) : bool := negb (mem c s).

(** [single f a]: the body [a] consumes exactly one character, accepted by
    [f]. *)
Definition single (f : ascii -> bool) (a : regex) : Prop :=
  forall (k : cont) (st : mstate),
    m a k st =
    match rest st with
    | x :: s' => if f x then k [x] (MS s' (caps st) false) else None
    | [] => None
    end.

Definition heads (f : ascii -> bool) (s : str) : bool :=
  match s with
  | x :: _ => f x
  | [] => false
  end.

(** The candidates a greedy run over [w] offers its continuation: the
    longest prefix first, the empty one last. *)
Fixpoint tries (k : cont) (w s : str) (cs : captures) (b : bool) : option answer :=
  match w with
  | [] => k [] (MS s cs b)
  | x :: w' =>
      orelse (tries (fun w2 st2 => k (x :: w2) st2) w' s cs false)
             (k [] (MS (x :: w' ++ s) cs b))
  end.

Definition pct : ascii := "%"%char.

(** [occurs p s]: the text [p] occurs in [s]. *)
Fixpoint occurs (p s : str) : bool :=
  match strip_prefix p s with
  | Some _ => true
  | None =>
      match s with
      | [] => false
      | _ :: s' => occurs p s'
      end
  end.

(** A state holds an active thread when the header [%%] occurs in it. *)
Definition has_active_thread (s : str) : bool := occurs (esc "%%") s.

Definition illegal_move_text : str := esc "*Illegal Move*\nYou Lose.\nGame over.\n".

(** The characters the catch-all rules stop at. *)
Definition free_of_marks (s : str) : bool := forallb (in_cls true (esc "%<")) s.

(** How many [%] of a thread header a pattern may still read after [r],
    when it may read [need] of them before: a [%] is read only while the
    count lasts, and any other character ends the header.  [None] when [r]
    could read a [%] anywhere else, or looks at the position in the
    text. *)
Fixpoint walk (need : nat) (r : regex) : option nat :=
  match r with
  | Eps => Some need
  | Chr c =>
      if Ascii.eqb c pct
      then match need with S k => Some k | 0 => None end
      else Some 0
  | Cls neg cs => if in_cls neg cs pct then None else Some 0
  | Seq a b =>
      match walk need a with
      | Some n1 => walk n1 b
      | None => None
      end
  | Alt a b =>
      match walk need a, walk need b with
      | Some x, Some y => if Nat.eqb x y then Some x else None
      | _, _ => None
      end
  | Star a =>
      match need, walk 0 a with
      | 0, Some 0 => Some 0
      | _, _ => None
      end
  | Grp _ a => walk need a
  | Ref _ | Bol | Eol => None
  end.

(** Every match of [r] holds a character. *)
Fixpoint nonnull (r : regex) : bool :=
  match r with
  | Chr _ | Cls _ _ => true
  | Seq a b => nonnull a || nonnull b
  | Alt a b => nonnull a && nonnull b
  | Grp _ a => nonnull a
  | Eps | Star _ | Ref _ | Bol | Eol => false
  end.

(** A rule is thread-local when its pattern reads a [%] only as the first
    or the second character of a match, and never matches the empty
    text. *)
Definition thread_local (r : regex) : bool :=
  match walk 2 r with
  | Some _ => nonnull r
  | None => false
  end.

(** The text ahead in a thread, as far as the [%] that may still be read
    go: what follows the thread cannot be reached. *)
Fixpoint ok (need : nat) (x : str) : bool :=
  match need with
  | 0 => absent pct x
  | S k =>
      match x with
      | [] => false
      | c :: x' => if Ascii.eqb c pct then ok k x' else absent pct x'
      end
  end.

Fixpoint sufs_ok (y : str) : bool :=
  match y with
  | [] => true
  | _ :: y' => ok 2 y && sufs_ok y'
  end.

Definition heads_pct (z : str) : bool :=
  match z with
  | [] => true
  | c :: _ => Ascii.eqb c pct
  end.

(** Two continuations agree on what is left of the thread [x], whether or
    not the text [z] of further threads follows. *)
Definition agree (z : str) (need : nat) (x : str) (k k' : cont) : Prop :=
  forall w x' cs b1 b2,
    x = w ++ x' -> ok need x' = true ->
    k w (MS (x' ++ z) cs b1) = k' w (MS x' cs b2).

(** The text of one thread, as a rule may leave it: a header of one or two
    [%], then text without [%]; after [%%] the text is not empty. *)
Definition chunk (c : str) : bool :=
  match c with
  | p :: d :: b =>
      Ascii.eqb p pct && absent pct b
      && (negb (Ascii.eqb d pct) || negb (is_nil b))
  | _ => false
  end.

(** The numbers of the groups of a pattern. *)
Fixpoint groups (r : regex) : list nat :=
  match r with
  | Seq a b | Alt a b => groups a ++ groups b
  | Star a => groups a
  | Grp i a => i :: groups a
  | _ => []
  end.

(** An item of a replacement that writes no [%]: a literal other than
    [%], or a group other than the header group [g]. *)
Definition free_item (g : nat) (it : titem) : bool :=
  match it with
  | TLit c => negb (Ascii.eqb c pct)
  | TRef j => negb (Nat.eqb j g)
  end.

(** A rule that keeps the header of the thread it rewrites: the pattern
    opens with a group of literal text, [%%] and more, and reads no [%]
    after it; the replacement writes that group back first, and no [%]
    after it. *)
Definition header_kept (p : rule) : bool :=
  match fst p, snd p with
  | Seq (Grp g a) rest, TRef g' :: t' =>
      match exact a, gcaps a [] with
      | Some (p1 :: p2 :: c :: l), [] =>
          Ascii.eqb p1 pct && Ascii.eqb p2 pct && absent pct (c :: l)
          && match walk 0 rest with Some 0 => true | _ => false end
          && negb (existsb (Nat.eqb g) (groups rest))
          && Nat.eqb g' g && forallb (free_item g) t'
      | _, _ => false
      end
  | _, _ => false
  end.

(** An instruction all of whose rules are thread-local, and all of whose
    rules but the last keep the header. *)
Fixpoint local_instruction (i : instruction) : bool :=
  match i with
  | [] => true
  | p :: i' =>
      thread_local (fst p)
      && match i' with [] => true | _ :: _ => header_kept p end
      && local_instruction i'
  end.

(** A pattern that opens with the header [%%] of the active thread. *)
Definition anchored (r : regex) : bool :=
  match lead r with
  | p1 :: p2 :: _ => Ascii.eqb p1 pct && Ascii.eqb p2 pct
  | _ => false
  end.

(** What a pattern that reads no [%] does to a state: it reads a text
    without [%], and the groups it closes hold none. *)
Definition reads_free (gs : list nat) (w : str) (st st' : mstate) : Prop :=
  rest st = w ++ rest st' /\ absent pct w = true
  /\ exists added, caps st' = added ++ caps st
       /\ Forall (fun p => absent pct (snd p) = true /\ In (fst p) gs) added.

(** The rule at position [j] of an instruction, its pattern and its
    replacement. *)
Definition rule_n (j : nat) (i : instruction) : rule := nth j i (Eps, []).
Definition pat (j : nat) (i : instruction) : regex := fst (rule_n j i).
Definition repl (j : nat) (i : instruction) : template := snd (rule_n j i).

(** The rules of [rs], one after the other, on a text that does not start
    at offset 0: what a scan does to the rest of a state once it is past the
    head of the thread. *)
Definition sweep (rs : instruction) (s : str) : str :=
  fold_left (fun s p => sub_from (fst p) (snd p) s 0 false) rs s.

Definition to_unary_pat (w : nat) : regex :=
  Seq stack_hdr (Seq (lit "int") (Seq (Grp 2 (rep (9 - w) (set "01")))
    (Seq (lit "1") (Seq (Grp 3 (rep w (set "01"))) Eps)))).

(** The text after [j] rules of [to_unary]. *)
Definition to_unary_state (j n : nat) (t : str) : str :=
  header ++ esc "int" ++ repeat "0"%char j ++ bits (10 - j) n
  ++ unary (n - n mod 2 ^ (10 - j)) ++ t.

Definition from_unary_set_pat (w : nat) : regex :=
  Seq (Grp 1 (Seq (lit "%%\n#stack:\nint") (Seq (Star (set "01")) Eps)))
    (Seq (Grp 2 (rep (2 ^ w) (lit "A"))) (Seq (Grp 3 (Star (lit "A"))) Eps)).

Definition from_unary_clear_pat (w : nat) : regex :=
  Seq stack_hdr (Seq (lit "int") (Seq (Grp 2 (rep (9 - w) (set "01")))
    (Seq (Grp 3 (Seq (nset "01") (Seq (Star (lit "A")) Eps))) Eps))).

(** The text after the first rule of [from_unary] and [j] pairs of bit
    rules. *)
Definition from_unary_state (j n : nat) (t : str) : str :=
  header ++ esc "int" ++ bits j (n / 2 ^ (10 - j)) ++ unary (n mod 2 ^ (10 - j)) ++ t.

Definition lookup_of (s : string) : pyval :=
  VTracer (VTuple [VStr "lookup"; VStr s]) (VStr "str").
Definition binop (o : string) (a b : pyval) (kind : string) : pyval :=
  VTracer (VTuple [VStr o; a; b]) (VStr kind).

(** A traced program of [d] nested tests, each merged after its true arm. *)
Fixpoint nested (d : nat) (k : prog) : prog :=
  match d with
  | 0 => Append "assign" [VStr "r"; VStr "yes"] k
  | S d' => Ite (binop "==" (lookup_of "b") (VStr "True") "bool")
              (nested d' (Merge k)) (Merge k)
  end.

(** One more run of the traced program, from [pointer = 0], on the tree
    the runs before it have left. *)
Definition again (function : prog) (r : result CallTree) : result CallTree :=
  h <- r ;; exec function (rewind h).

(** The number of branch nodes of a subtree. *)
Fixpoint branches_node (nd : node) : nat :=
  let branches_list :=
    fix go (l : list node) : nat :=
      match l with
      | [] => 0
      | x :: l' => branches_node x + go l'
      end in
  match nd with
  | Leaf _ _ => 0
  | Branch _ lft rgt =>
      1 + match lft with Some l => branches_list l | None => 0 end
        + match rgt with Some r => branches_list r | None => 0 end
  end.

Fixpoint branches (l : list node) : nat :=
  match l with
  | [] => 0
  | x :: l' => branches_node x + branches l'
  end.

(** A label in the name space of [next_tag]: a string that starts with
    [UID]. *)
Definition generated (v : pyval) : bool :=
  match v with
  | VStr (String a (String b (String c _))) =>
      Ascii.eqb a "U" && Ascii.eqb b "I" && Ascii.eqb c "D"
  | _ => false
  end.

(** The three opcodes that carry a thread label. *)
Definition is_ctl (name : string) : bool :=
  String.eqb name "cond" || String.eqb name "pause" || String.eqb name "reactivate".

(** The generated labels of the opcodes called [name] in a stream, in the
    order of the stream. *)
Definition generated_labels (name : string) (code : list op) : list pyval :=
  flat_map (fun o => if String.eqb (fst o) name then filter generated (snd o) else [])
           code.

(** The traced program's own [cond], [pause] and [reactivate] calls stay
    out of the name space of [next_tag]. *)
Fixpoint own_tags_node (nd : node) : bool :=
  let own_tags_list :=
    fix go (l : list node) : bool :=
      match l with
      | [] => true
      | x :: l' => own_tags_node x && go l'
      end in
  match nd with
  | Leaf name args => negb (is_ctl name) || forallb (fun v => negb (generated v)) args
  | Branch _ lft rgt =>
      match lft with Some l => own_tags_list l | None => true end
      && match rgt with Some r => own_tags_list r | None => true end
  end.

Fixpoint own_tags (l : list node) : bool :=
  match l with
  | [] => true
  | x :: l' => own_tags_node x && own_tags l'
  end.

(** A label [UIDk] with [a <= k < b]. *)
Definition numbered (a b : nat) (v : pyval) : Prop :=
  exists k, v = VStr (uid k) /\ a <= k < b.

(** Induction over Python values: tuples and lists together with their
    items. *)
Fixpoint pyval_items_ind (P : pyval -> Prop)
    (Hint : forall n, P (VInt n))
    (Hstr : forall s, P (VStr s))
    (Hnone : P VNone)
    (Htuple : forall items, Forall P items -> P (VTuple items))
    (Hlist : forall items, Forall P items -> P (VList items))
    (Hdict : forall items, P (VDict items))
    (Htracer : forall value kind, P value -> P kind -> P (VTracer value kind))
    (v : pyval) {struct v} : P v :=
  let items_ind :=
    fix go (l : list pyval) : Forall P l :=
      match l with
      | [] => Forall_nil P
      | x :: l' =>
          Forall_cons x
            (pyval_items_ind P Hint Hstr Hnone Htuple Hlist Hdict Htracer x) (go l')
      end in
  match v with
  | VInt n => Hint n
  | VStr s => Hstr s
  | VNone => Hnone
  | VTuple items => Htuple items (items_ind items)
  | VList items => Hlist items (items_ind items)
  | VDict items => Hdict items
  | VTracer value kind =>
      Htracer value kind
        (pyval_items_ind P Hint Hstr Hnone Htuple Hlist Hdict Htracer value)
        (pyval_items_ind P Hint Hstr Hnone Htuple Hlist Hdict Htracer kind)
  end.

(** Two lists of labels with no label in common. *)
Definition apart (A B : list pyval) : Prop := forall v, In v A -> In v B -> False.


(** Induction over a call tree: nodes and the lists of nodes below them
    together. *)
Fixpoint node_list_ind (P : node -> Prop) (Q : list node -> Prop)
    (Hleaf : forall name args, P (Leaf name args))
    (Hbranch : forall v l r,
       match l with Some x => Q x | None => True end ->
       match r with Some x => Q x | None => True end ->
       P (Branch v l r))
    (Hnil : Q [])
    (Hcons : forall x l, P x -> Q l -> Q (x :: l))
    (nd : node) {struct nd} : P nd :=
  let list_ind :=
    fix go (l : list node) : Q l :=
      match l with
      | [] => Hnil
      | x :: l' => Hcons x l' (node_list_ind P Q Hleaf Hbranch Hnil Hcons x) (go l')
      end in
  match nd with
  | Leaf name args => Hleaf name args
  | Branch v l r =>
      Hbranch v l r
        (match l with Some x => list_ind x | None => I end)
        (match r with Some x => list_ind x | None => I end)
  end.

(** *** Vocabulary for the stack and comparison instructions *)

(** [f] on the stack of an active thread; an inactive thread as it is. *)
Definition map_active (f : list str -> list str) (th : thread) : thread :=
  match th_tag th with
  | None => mkThread None (f (th_stack th)) (th_vars th)
  | Some _ => th
  end.

(** The text of a truth value on the stack. *)
Definition bool_text (b : bool) : str := if b then esc "True" else esc "False".

(** No backtick in the stack and the variables of a thread: the mark the
    comparing instructions use and strip. *)
Definition tick_free (stack : list str) (vars : list (str * str)) : bool :=
  absent backtick (thread_body stack vars).

(** What follows the first run of [A]s in the first rule of
    [greater_than]. *)
Definition gt_tail : regex :=
  Seq (Grp 3 (plus (lit "A"))) (Seq (lit "\n") (Seq (Ref 2) (Seq (lit "\n") Eps))).

(** * Properties *)

(** ** The matcher on literals, groups and repetitions *)

Lemma orelse_none_l (y : option answer) : orelse None y = y.
Proof. reflexivity. Qed.

Lemma orelse_none_r (x : option answer) : orelse x None = x.
Proof. destruct x; reflexivity. Qed.

Lemma orelse_some (a : answer) (y : option answer) : orelse (Some a) y = Some a.
Proof. reflexivity. Qed.

Lemma m_seq (a b : regex) (k : cont) (st : mstate) :
  m (Seq a b) k st = m a (fun w1 st1 => m b (fun w2 st2 => k (w1 ++ w2) st2) st1) st.
Proof. reflexivity. Qed.

Lemma m_cat_cons (a : regex) (rs : list regex) (k : cont) (st : mstate) :
  m (cat (a :: rs)) k st
  = m a (fun w1 st1 => m (cat rs) (fun w2 st2 => k (w1 ++ w2) st2) st1) st.
Proof. reflexivity. Qed.

Lemma m_cat_nil (k : cont) (st : mstate) : m (cat []) k st = k [] st.
Proof. reflexivity. Qed.

Lemma m_grp (i : nat) (a : regex) (k : cont) (st : mstate) :
  m (Grp i a) k st
  = m a (fun w st' => k w (MS (rest st') ((i, w) :: caps st') (at0 st'))) st.
Proof. reflexivity. Qed.

Lemma m_chr_hit (c : ascii) (k : cont) (s : str) (cs : captures) (b : bool) :
  m (Chr c) k (MS (c :: s) cs b) = k [c] (MS s cs false).
Proof. simpl. rewrite Ascii.eqb_refl. reflexivity. Qed.

Lemma m_chr_miss (c x : ascii) (k : cont) (s : str) (cs : captures) (b : bool) :
  x <> c -> m (Chr c) k (MS (x :: s) cs b) = None.
Proof.
  intros H. simpl. destruct (Ascii.eqb x c) eqn:E; [|reflexivity].
  apply Ascii.eqb_eq in E. contradiction.
Qed.

Lemma m_chr_end (c : ascii) (k : cont) (cs : captures) (b : bool) :
  m (Chr c) k (MS [] cs b) = None.
Proof. reflexivity. Qed.

(** A literal consumes itself. *)
Lemma m_lits (l : str) : forall (k : cont) (s : str) (cs : captures) (b : bool),
  m (lits l) k (MS (l ++ s) cs b) = k l (MS s cs (b && is_nil l)).
Proof.
  induction l as [|c l IH]; intros k s cs b.
  - simpl. rewrite andb_true_r. reflexivity.
  - change (lits (c :: l)) with (Seq (Chr c) (lits l)).
    rewrite m_seq. simpl app. rewrite m_chr_hit. rewrite IH.
    simpl. rewrite andb_false_r. reflexivity.
Qed.

Lemma m_lit (l : string) (k : cont) (s : str) (cs : captures) (b : bool) :
  m (lit l) k (MS (esc l ++ s) cs b) = k (esc l) (MS s cs (b && is_nil (esc l))).
Proof. apply m_lits. Qed.

(** *** Literal prefixes *)

Lemma strip_prefix_app (l1 l2 s : str) :
  strip_prefix (l1 ++ l2) s =
  match strip_prefix l1 s with
  | Some s' => strip_prefix l2 s'
  | None => None
  end.
Proof.
  revert s. induction l1 as [|c l1 IH]; intros s; [reflexivity|].
  simpl. destruct s as [|x s]; [reflexivity|].
  destruct (Ascii.eqb c x); [apply IH|reflexivity].
Qed.

Lemma strip_prefix_hit (l s : str) : strip_prefix l (l ++ s) = Some s.
Proof.
  induction l as [|c l IH]; [reflexivity|].
  simpl. rewrite Ascii.eqb_refl. exact IH.
Qed.

Lemma strip_prefix_some (l s s' : str) : strip_prefix l s = Some s' -> s = l ++ s'.
Proof.
  revert s. induction l as [|c l IH]; intros s H.
  - simpl in H. injection H as ->. reflexivity.
  - destruct s as [|x s]; [discriminate|]. simpl in H.
    destruct (Ascii.eqb c x) eqn:E; [|discriminate].
    apply Ascii.eqb_eq in E. subst x. simpl. f_equal. apply IH. exact H.
Qed.

Lemma m_exact (r : regex) : forall (l : str),
  exact r = Some l ->
  forall (k : cont) (st : mstate),
    m r k st =
    match strip_prefix l (rest st) with
    | Some s' => k l (MS s' (gcaps r (caps st)) (at0 st && is_nil l))
    | None => None
    end.
Proof.
  induction r; intros l H k st; simpl in H; try discriminate.
  - injection H as <-. simpl. rewrite andb_true_r. destruct st; reflexivity.
  - injection H as <-. simpl. destruct (rest st) as [|x s']; [reflexivity|].
    destruct (Ascii.eqb_spec x c) as [->|N].
    + rewrite Ascii.eqb_refl, andb_false_r. reflexivity.
    + replace (Ascii.eqb c x) with false; [reflexivity|].
      symmetry. apply Ascii.eqb_neq. congruence.
  - destruct (exact r1) as [la|] eqn:Ea; [|discriminate].
    destruct (exact r2) as [lb|] eqn:Eb; [|discriminate].
    injection H as <-. rewrite m_seq. rewrite (IHr1 la eq_refl).
    rewrite strip_prefix_app.
    destruct (strip_prefix la (rest st)) as [s1|]; [|reflexivity].
    rewrite (IHr2 lb eq_refl). simpl rest.
    destruct (strip_prefix lb s1) as [s2|]; [|reflexivity].
    simpl. f_equal. f_equal.
    destruct la, lb; simpl; rewrite ?andb_true_r, ?andb_false_r; reflexivity.
  - rewrite m_grp. rewrite (IHr l H). simpl gcaps. rewrite H.
    destruct (strip_prefix l (rest st)); reflexivity.
Qed.

Lemma exact_lits (l : str) : exact (lits l) = Some l.
Proof.
  induction l as [|c l IH]; [reflexivity|].
  change (lits (c :: l)) with (Seq (Chr c) (lits l)). simpl. rewrite IH. reflexivity.
Qed.

Lemma gcaps_lits (l : str) (cs : captures) : gcaps (lits l) cs = cs.
Proof.
  induction l as [|c l IH]; [reflexivity|].
  change (lits (c :: l)) with (Seq (Chr c) (lits l)). simpl. exact IH.
Qed.

Lemma lead_miss (r : regex) :
  forall (k : cont) (st : mstate),
    strip_prefix (lead r) (rest st) = None -> m r k st = None.
Proof.
  induction r; simpl; intros k st H; try discriminate.
  - destruct (rest st) as [|x s']; [reflexivity|].
    simpl in H. rewrite Ascii.eqb_sym in H. destruct (Ascii.eqb x c); [|reflexivity].
    discriminate.
  - destruct (exact r1) as [l|] eqn:E.
    + rewrite (m_exact r1 l E). rewrite strip_prefix_app in H.
      destruct (strip_prefix l (rest st)) as [s1|]; [|reflexivity].
      apply IHr2. exact H.
    + apply IHr1. exact H.
  - apply IHr. exact H.
Qed.

Lemma search_miss (r : regex) (s : str) (b ma : bool) :
  strip_prefix (lead r) s = None -> search r s b ma = None.
Proof. intros H. unfold search. apply lead_miss. exact H. Qed.

Lemma strip_prefix_starts (c : ascii) (l s : str) :
  starts c s = false -> strip_prefix (c :: l) s = None.
Proof.
  destruct s as [|x s]; [reflexivity|]. simpl. rewrite Ascii.eqb_sym.
  intros ->. reflexivity.
Qed.

(** ** The scan of [re.sub] *)

Lemma sub_from_skip (r : regex) (t : template) (u : str) :
  forall (s : str) (b : bool),
  u <> [] -> sub_from r t (u ++ s) (length u) b = sub_from r t s 0 false.
Proof.
  induction u as [|x u IH]; intros s b Hu; [contradiction|].
  simpl. destruct u as [|y u].
  - reflexivity.
  - apply IH. discriminate.
Qed.

(** A non-empty match at the current offset is replaced and the scan goes on
    behind it. *)
Lemma sub_from_hit (r : regex) (t : template) (w s : str) (cs : captures) (b : bool) :
  w <> [] ->
  search r (w ++ s) b false = Some (w, cs) ->
  sub_from r t (w ++ s) 0 b = expand t cs ++ sub_from r t s 0 false.
Proof.
  intros Hw Hs. destruct w as [|x w]; [contradiction|].
  simpl app in *. simpl sub_from. rewrite Hs. f_equal.
  destruct w as [|y w]; [reflexivity|].
  apply (sub_from_skip r t (y :: w)). discriminate.
Qed.

Lemma sub_from_miss (r : regex) (t : template) (x : ascii) (s : str) (b : bool) :
  search r (x :: s) b false = None ->
  sub_from r t (x :: s) 0 b = x :: sub_from r t s 0 false.
Proof. intros H. simpl. rewrite H. reflexivity. Qed.

Lemma sub_from_end (r : regex) (t : template) (b : bool) :
  search r [] b false = None -> sub_from r t [] 0 b = [].
Proof. intros H. simpl. rewrite H. reflexivity. Qed.

Lemma absent_cons (c x : ascii) (s : str) :
  absent c (x :: s) = negb (Ascii.eqb c x) && absent c s.
Proof. unfold absent. simpl. apply negb_orb. Qed.

Lemma absent_app (c : ascii) (u v : str) :
  absent c (u ++ v) = absent c u && absent c v.
Proof.
  induction u as [|x u IH]; [reflexivity|].
  simpl app. rewrite !absent_cons, IH. apply andb_assoc.
Qed.

(** Where the pattern cannot start, the text is copied. *)
Lemma sub_from_copy (r : regex) (t : template) (c : ascii) (l u : str) :
  lead r = c :: l ->
  forall (s : str) (b : bool),
  absent c u = true ->
  sub_from r t (u ++ s) 0 b = u ++ sub_from r t s 0 (b && is_nil u).
Proof.
  intros Hr. induction u as [|x u IH]; intros s b Hu.
  - simpl. rewrite andb_true_r. reflexivity.
  - rewrite absent_cons in Hu. apply andb_true_iff in Hu as [Hx Hu].
    simpl app. rewrite sub_from_miss.
    + rewrite IH by assumption. simpl. rewrite andb_false_r. reflexivity.
    + apply search_miss. rewrite Hr. apply strip_prefix_starts. simpl.
      rewrite Ascii.eqb_sym. apply negb_true_iff. exact Hx.
Qed.

Lemma sub_from_absent (r : regex) (t : template) (c : ascii) (l s : str) (b : bool) :
  lead r = c :: l -> absent c s = true -> sub_from r t s 0 b = s.
Proof.
  intros Hr Hs.
  rewrite <- (app_nil_r s) at 1.
  rewrite (sub_from_copy r t c l s Hr) by assumption.
  rewrite sub_from_end; [apply app_nil_r|].
  apply search_miss. rewrite Hr. reflexivity.
Qed.

(** ** Greedy repetition of a one-character body *)

Lemma single_chr (c : ascii) : single (fun x => Ascii.eqb x c) (Chr c).
Proof. intros k st. reflexivity. Qed.

Lemma single_cls (neg : bool) (cs : list ascii) : single (in_cls neg cs) (Cls neg cs).
Proof. intros k st. reflexivity. Qed.

Lemma single_lit1 (c : ascii) : single (fun x => Ascii.eqb x c) (lits [c]).
Proof.
  intros k st. simpl. destruct (rest st) as [|x s']; [reflexivity|].
  destruct (Ascii.eqb x c); reflexivity.
Qed.

Lemma star_loop_tries (f : ascii -> bool) (a : regex) :
  single f a ->
  forall (w : str) (k : cont) (s : str) (cs : captures) (b : bool) (fuel : nat),
    forallb f w = true -> heads f s = false -> length w <= fuel ->
    star_loop (m a) fuel k (MS (w ++ s) cs b) = tries k w s cs b.
Proof.
  intros Ha. induction w as [|x w IH]; intros k s cs b fuel Hw Hs Hf.
  - simpl. destruct fuel as [|fuel]; [reflexivity|].
    simpl. rewrite Ha. simpl.
    destruct s as [|y s']; [reflexivity|]. simpl in Hs. rewrite Hs. reflexivity.
  - simpl in Hw. apply andb_true_iff in Hw as [Hx Hw].
    destruct fuel as [|fuel]; [simpl in Hf; lia|].
    simpl. rewrite Ha. simpl. rewrite Hx. simpl.
    rewrite IH; [reflexivity|assumption|assumption|simpl in Hf; lia].
Qed.

Lemma m_star_tries (f : ascii -> bool) (a : regex) (w : str) (k : cont)
    (s : str) (cs : captures) (b : bool) :
  single f a -> forallb f w = true -> heads f s = false ->
  m (Star a) k (MS (w ++ s) cs b) = tries k w s cs b.
Proof.
  intros Ha Hw Hs. simpl.
  apply (star_loop_tries f a Ha); [assumption|assumption|].
  rewrite length_app. lia.
Qed.

Lemma tries_none (w : str) : forall (k : cont) (s : str) (cs : captures) (b : bool),
  (forall u v, w = u ++ v -> k u (MS (v ++ s) cs (b && is_nil u)) = None) ->
  tries k w s cs b = None.
Proof.
  induction w as [|x w IH]; intros k s cs b H.
  - simpl. specialize (H [] [] eq_refl). simpl in H. rewrite andb_true_r in H. exact H.
  - simpl. rewrite IH.
    + specialize (H [] (x :: w) eq_refl). simpl in H. rewrite andb_true_r in H. exact H.
    + intros u v E. specialize (H (x :: u) v). simpl in H.
      rewrite andb_false_r in H. apply H. rewrite E. reflexivity.
Qed.

(** When at most one split can satisfy the continuation, the run yields
    what the continuation yields there. *)
Lemma tries_unique (w : str) :
  forall (k : cont) (w1 w2 s : str) (cs : captures) (b : bool),
  w = w1 ++ w2 ->
  (forall u v, w = u ++ v -> u <> w1 -> k u (MS (v ++ s) cs (b && is_nil u)) = None) ->
  tries k w s cs b = k w1 (MS (w2 ++ s) cs (b && is_nil w1)).
Proof.
  induction w as [|x w IH]; intros k w1 w2 s cs b E H.
  - symmetry in E. apply app_eq_nil in E as [-> ->]. simpl.
    rewrite andb_true_r. reflexivity.
  - simpl. destruct w1 as [|y w1].
    + simpl in E. subst w2. rewrite tries_none.
      * simpl. rewrite andb_true_r. reflexivity.
      * intros u v E. specialize (H (x :: u) v). simpl in H.
        rewrite andb_false_r in H. apply H; [rewrite E; reflexivity|discriminate].
    + simpl in E. injection E as <- E.
      rewrite (IH _ w1 w2 s cs false E).
      * assert (Hn : k [] (MS (x :: w ++ s) cs b) = None).
        { specialize (H [] (x :: w) eq_refl). simpl in H.
          rewrite andb_true_r in H. apply H. discriminate. }
        rewrite Hn. rewrite orelse_none_r. simpl. rewrite andb_false_r. reflexivity.
      * intros u v Eu Hu. specialize (H (x :: u) v). simpl in H.
        rewrite andb_false_r in H. apply H; [rewrite Eu; reflexivity|].
        intros Heq. apply Hu. injection Heq. auto.
Qed.

(** The whole run, when every shorter prefix fails. *)
Lemma tries_full (w : str) (k : cont) (s : str) (cs : captures) (b : bool) :
  (forall u x v, w = u ++ x :: v ->
     k u (MS ((x :: v) ++ s) cs (b && is_nil u)) = None) ->
  tries k w s cs b = k w (MS s cs (b && is_nil w)).
Proof.
  intros H. rewrite (tries_unique w k w [] s cs b).
  - reflexivity.
  - symmetry. apply app_nil_r.
  - intros u v E Hu. destruct v as [|x v].
    + rewrite app_nil_r in E. congruence.
    + apply (H u x v E).
Qed.

Lemma tries_first (w : str) :
  forall (k : cont) (s : str) (cs : captures) (b : bool) (ans : answer),
  k w (MS s cs (b && is_nil w)) = Some ans -> tries k w s cs b = Some ans.
Proof.
  induction w as [|x w IH]; intros k s cs b ans H.
  - simpl in *. rewrite andb_true_r in H. exact H.
  - simpl. rewrite (IH _ s cs false ans); [reflexivity|].
    simpl in H. rewrite andb_false_r in H. simpl. exact H.
Qed.

(** ** Stepping through a pattern *)

(** A literal at the head of the pattern. *)
Lemma m_step_exact (a r : regex) (l : str) (k : cont) (s : str)
    (cs : captures) (b : bool) :
  exact a = Some l ->
  m (Seq a r) k (MS (l ++ s) cs b)
  = m r (fun w st => k (l ++ w) st) (MS s (gcaps a cs) (b && is_nil l)).
Proof.
  intros H. rewrite m_seq, (m_exact a l H). simpl rest.
  rewrite strip_prefix_hit. reflexivity.
Qed.

Lemma heads_app (f : ascii -> bool) (d s : str) :
  d <> [] -> heads f (d ++ s) = heads f d.
Proof. destruct d; [contradiction|reflexivity]. Qed.

Lemma strip_prefix_heads (f : ascii -> bool) (d : str) (x : ascii) (s : str) :
  d <> [] -> heads f d = false -> f x = true -> strip_prefix d (x :: s) = None.
Proof.
  destruct d as [|c d]; [contradiction|]. simpl. intros _ Hc Hx.
  destruct (Ascii.eqb_spec c x) as [->|N]; [congruence|reflexivity].
Qed.

(** A captured greedy run closed by a literal the run cannot contain: the
    run takes all of [v]. *)
Lemma m_step_run (f : ascii -> bool) (a dl r : regex) (i : nat) (v d : str)
    (k : cont) (s : str) (cs : captures) (b : bool) :
  single f a -> exact dl = Some d -> d <> [] -> heads f d = false ->
  forallb f v = true ->
  m (Seq (Grp i (Star a)) (Seq dl r)) k (MS (v ++ d ++ s) cs b)
  = m r (fun w st => k (v ++ d ++ w) st) (MS s (gcaps dl ((i, v) :: cs)) false).
Proof.
  intros Ha Hd Hne Hh Hv.
  rewrite m_seq, m_grp.
  rewrite (m_star_tries f a v _ (d ++ s) cs b Ha Hv)
    by (rewrite heads_app; assumption).
  rewrite tries_full.
  - cbv beta. simpl rest. simpl caps. simpl at0.
    rewrite (m_step_exact dl r d _ s _ _ Hd).
    destruct d; [contradiction|]. simpl is_nil. rewrite andb_false_r. reflexivity.
  - intros u x v' E. cbv beta. simpl rest. simpl caps. simpl at0.
    rewrite m_seq, (m_exact dl d Hd). simpl rest.
    assert (Hx : f x = true).
    { rewrite E in Hv. rewrite forallb_app in Hv. apply andb_true_iff in Hv as [_ Hv].
      simpl in Hv. apply andb_true_iff in Hv as [Hx _]. exact Hx. }
    simpl app. rewrite (strip_prefix_heads f d x _ Hne Hh Hx). reflexivity.
Qed.

(** A captured greedy run at the point where the rest of the pattern
    succeeds on the longest candidate. *)
Lemma m_step_run_greedy (f : ascii -> bool) (a r : regex) (i : nat) (v : str)
    (k : cont) (s : str) (cs : captures) (b : bool) (ans : answer) :
  single f a -> forallb f v = true -> heads f s = false ->
  m r (fun w st => k (v ++ w) st) (MS s ((i, v) :: cs) (b && is_nil v)) = Some ans ->
  m (Seq (Grp i (Star a)) r) k (MS (v ++ s) cs b) = Some ans.
Proof.
  intros Ha Hv Hs H.
  rewrite m_seq, m_grp.
  rewrite (m_star_tries f a v _ s cs b Ha Hv Hs).
  apply tries_first. exact H.
Qed.

(** ** Rules on one active thread *)

(** A rule anchored on the thread header that matches at the head of a
    thread rewrites the match and leaves the rest of the thread alone. *)
Lemma sub_thread_hit (r : regex) (t : template) (l w s : str) (cs : captures) :
  lead r = pct :: l -> w <> [] -> absent pct s = true ->
  search r (w ++ s) true false = Some (w, cs) ->
  sub r t (w ++ s) = expand t cs ++ s.
Proof.
  intros Hl Hw Hs H. unfold sub.
  rewrite (sub_from_hit r t w s cs true Hw H).
  rewrite (sub_from_absent r t pct l s false Hl Hs). reflexivity.
Qed.

(** And one that does not match there leaves the thread as it is. *)
Lemma sub_thread_miss (r : regex) (t : template) (l s : str) :
  lead r = pct :: pct :: l -> absent pct s = true ->
  search r (pct :: pct :: s) true false = None ->
  sub r t (pct :: pct :: s) = pct :: pct :: s.
Proof.
  intros Hl Hs H. unfold sub.
  rewrite (sub_from_miss r t pct (pct :: s) true H). f_equal.
  rewrite sub_from_miss.
  - f_equal. apply (sub_from_absent r t pct (pct :: l) s false Hl Hs).
  - apply search_miss. rewrite Hl.
    change (strip_prefix (pct :: pct :: l) (pct :: s))
      with (if Ascii.eqb pct pct then strip_prefix (pct :: l) s else None).
    rewrite Ascii.eqb_refl. apply strip_prefix_starts.
    destruct s as [|x s]; [reflexivity|].
    rewrite absent_cons in Hs. apply andb_true_iff in Hs as [Hx _].
    apply negb_true_iff in Hx. unfold starts. rewrite Ascii.eqb_sym. exact Hx.
Qed.


Lemma sub_thread_hit_at (r : regex) (t : template) (l x w s : str) (cs : captures) :
  lead r = pct :: l -> w <> [] -> absent pct s = true ->
  x = w ++ s ->
  search r x true false = Some (w, cs) ->
  sub r t x = expand t cs ++ s.
Proof. intros Hl Hw Hs -> H. apply (sub_thread_hit r t l w s cs Hl Hw Hs H). Qed.

(** ** Well-formed threads *)

Lemma value_no_pct (v : str) : value_ok v = true -> absent pct v = true.
Proof.
  induction v as [|x v IH]; [reflexivity|]. simpl. intros H.
  apply andb_true_iff in H as [Hx Hv]. rewrite absent_cons, (IH Hv), andb_true_r.
  unfold plain in Hx. simpl in Hx.
  destruct (Ascii.eqb_spec pct x) as [<-|N]; [discriminate|reflexivity].
Qed.

Lemma value_no_nl (v : str) : value_ok v = true -> no_nl v = true.
Proof.
  induction v as [|x v IH]; [reflexivity|]. simpl. intros H.
  apply andb_true_iff in H as [Hx Hv]. rewrite (IH Hv), andb_true_r.
  unfold plain in Hx. simpl in Hx. unfold in_cls. simpl.
  destruct (Ascii.eqb x nl); [discriminate|reflexivity].
Qed.

Lemma vars_no_pct (vars : list (str * str)) :
  vars_ok vars = true -> absent pct (flat_map var_line vars) = true.
Proof.
  induction vars as [|[n v] vars IH]; [reflexivity|]. intros H.
  simpl in H.
  apply andb_true_iff in H as [H Hvs]. apply andb_true_iff in H as [Hn Hv].
  change (flat_map var_line ((n, v) :: vars))
    with ((esc "#" ++ n ++ esc ": " ++ v ++ [nl]) ++ flat_map var_line vars).
  rewrite !absent_app, (IH Hvs), (value_no_pct n Hn), (value_no_pct v Hv).
  reflexivity.
Qed.

Lemma stack_no_pct (stack : list str) :
  stack_ok stack = true -> absent pct (flat_map stack_line stack) = true.
Proof.
  induction stack as [|v stack IH]; [reflexivity|]. intros H.
  simpl in H. apply andb_true_iff in H as [Hv Hs].
  change (flat_map stack_line (v :: stack))
    with ((v ++ [nl]) ++ flat_map stack_line stack).
  rewrite !absent_app, (IH Hs), (value_no_pct v Hv). reflexivity.
Qed.

Lemma body_no_pct (stack : list str) (vars : list (str * str)) :
  thread_ok stack vars = true -> absent pct (thread_body stack vars) = true.
Proof.
  intros H. apply andb_true_iff in H as [Hs Hv]. unfold thread_body.
  rewrite absent_app, (stack_no_pct stack Hs), (vars_no_pct vars Hv). reflexivity.
Qed.

Lemma active_push (v : str) (stack : list str) (vars : list (str * str)) :
  active (v :: stack) vars = header ++ v ++ [nl] ++ thread_body stack vars.
Proof.
  unfold active, thread_body.
  change (flat_map stack_line (v :: stack))
    with ((v ++ [nl]) ++ flat_map stack_line stack).
  rewrite <- !app_assoc. reflexivity.
Qed.

Lemma active_var (name value : str) (vars : list (str * str)) :
  active [] ((name, value) :: vars)
  = header ++ (esc "#" ++ name ++ esc ": " ++ value) ++ [nl] ++ flat_map var_line vars.
Proof.
  unfold active, thread_body.
  change (flat_map var_line ((name, value) :: vars))
    with ((esc "#" ++ name ++ esc ": " ++ value ++ [nl]) ++ flat_map var_line vars).
  change (flat_map stack_line []) with (@nil ascii).
  rewrite app_nil_l, <- !app_assoc. reflexivity.
Qed.

Ltac norm_rule r := let r' := eval cbv in r in change r with r'.

Ltac app_norm := rewrite <- ?app_assoc; reflexivity.

(** ** [pop] *)

Lemma pop_search (v s : str) :
  no_nl v = true ->
  search (fst (rule1 pop)) (header ++ v ++ [nl] ++ s) true false
  = Some (header ++ v ++ [nl], [(2, v); (1, header)]).
Proof.
  intros Hv. unfold search. norm_rule (fst (rule1 pop)).
  rewrite (m_step_exact _ _ header) by reflexivity.
  rewrite (m_step_run (in_cls true [nl]) _ _ _ 2 v [nl]);
    [| apply single_cls | reflexivity | discriminate | reflexivity | exact Hv].
  reflexivity.
Qed.

(** C10.  [pop] on an active thread whose stack is empty is not a no-op:
    its one rule takes the first line after the [#stack:] header for the
    top of the stack, so a thread with at least one variable loses its first
    variable line [#name: value], and the stack stays empty. *)
Theorem pop_empty_stack_deletes_first_variable
    (name value : str) (vars : list (str * str)) :
  value_ok name = true -> value_ok value = true -> vars_ok vars = true ->
  run pop (active [] ((name, value) :: vars)) = active [] vars
  /\ run pop (active [] ((name, value) :: vars)) <> active [] ((name, value) :: vars).
Proof.
  intros Hn Hv Hvs.
  assert (E : run pop (active [] ((name, value) :: vars)) = active [] vars).
  { rewrite active_var.
    set (ln := esc "#" ++ name ++ esc ": " ++ value).
    change (run pop ?s) with (sub (fst (rule1 pop)) (snd (rule1 pop)) s).
    rewrite (sub_thread_hit_at _ _ (esc "%\n#stack:\n") _ (header ++ ln ++ [nl])
               (flat_map var_line vars) [(2, ln); (1, header)]).
    - reflexivity.
    - reflexivity.
    - discriminate.
    - apply vars_no_pct. exact Hvs.
    - app_norm.
    - apply (pop_search ln).
      unfold ln, no_nl. rewrite !forallb_app.
      fold (no_nl name). fold (no_nl value).
      rewrite (value_no_nl name Hn), (value_no_nl value Hv). reflexivity. }
  split; [exact E|]. rewrite E. intros H. apply (f_equal (@length ascii)) in H.
  rewrite active_var in H. unfold active, thread_body in H.
  rewrite !length_app in H. simpl in H. lia.
Qed.

Lemma pop_empty_stack_deletes_first_variable_witness :
  value_ok (esc "turn") = true /\ value_ok (esc "w") = true
  /\ vars_ok [(esc "ep", esc "-")] = true
  /\ run pop (active [] [(esc "turn", esc "w"); (esc "ep", esc "-")])
     = active [] [(esc "ep", esc "-")]
  /\ run pop (active [] [(esc "turn", esc "w"); (esc "ep", esc "-")])
     <> active [] [(esc "turn", esc "w"); (esc "ep", esc "-")].
Proof.
  split; [reflexivity|]. split; [reflexivity|]. split; [reflexivity|].
  apply (pop_empty_stack_deletes_first_variable (esc "turn") (esc "w")
           [(esc "ep", esc "-")]); reflexivity.
Defined.

(** ** The catch-all rule [illegal_move] *)

Lemma span_run (f : ascii -> bool) (s : str) :
  exists w s', s = w ++ s' /\ forallb f w = true /\ heads f s' = false.
Proof.
  induction s as [|x s (w & s' & E & Hw & Hs)].
  - exists [], []. repeat split.
  - destruct (f x) eqn:Hx.
    + exists (x :: w), s'. simpl. rewrite Hx, Hw, E. repeat split. exact Hs.
    + exists [], (x :: s). simpl. repeat split. exact Hx.
Qed.

Lemma m_bol_on (r : regex) (k : cont) (s : str) (cs : captures) :
  m (Seq Bol r) k (MS s cs true) = m r (fun w st => k w st) (MS s cs true).
Proof. reflexivity. Qed.

Lemma m_bol_off (r : regex) (k : cont) (s : str) (cs : captures) :
  m (Seq Bol r) k (MS s cs false) = None.
Proof. reflexivity. Qed.

(** Away from offset 0 a pattern that opens with [^] finds nothing. *)
Lemma sub_from_bol (r : regex) (t : template) (s : str) :
  sub_from (Seq Bol r) t s 0 false = s.
Proof.
  induction s as [|x s IH].
  - reflexivity.
  - rewrite sub_from_miss by reflexivity. rewrite IH. reflexivity.
Qed.

Lemma illegal_move_search_hit (s : str) :
  free_of_marks s = true ->
  search (fst (rule1 illegal_move)) s true false = Some (s, []).
Proof.
  intros H. unfold search. norm_rule (fst (rule1 illegal_move)).
  rewrite m_bol_on, m_seq.
  rewrite <- (app_nil_r s) at 1.
  rewrite (m_star_tries (in_cls true (esc "%<")) _ s _ [] [] true
             (single_cls true (esc "%<")) H eq_refl).
  apply tries_first. cbn. rewrite app_nil_r. reflexivity.
Qed.

Lemma eol_blocked (f : ascii -> bool) (v : str) (x : ascii) (s : str)
    (k : cont) (cs : captures) (b : bool) :
  f nl = true -> f x = false ->
  m (Seq Eol Eps) k (MS (v ++ x :: s) cs b) = None.
Proof.
  intros Hnl Hx. rewrite m_seq. cbn [m rest].
  destruct v as [|y [|z v]]; simpl.
  - destruct s; [|reflexivity].
    destruct (Ascii.eqb_spec x nl) as [->|N]; [congruence|reflexivity].
  - reflexivity.
  - reflexivity.
Qed.

Lemma illegal_move_search_miss (s : str) :
  free_of_marks s = false ->
  search (fst (rule1 illegal_move)) s true false = None.
Proof.
  intros H. unfold search. norm_rule (fst (rule1 illegal_move)).
  rewrite m_bol_on, m_seq.
  destruct (span_run (in_cls true (esc "%<")) s) as (w & s' & E & Hw & Hs).
  subst s.
  rewrite (m_star_tries (in_cls true (esc "%<")) _ w _ s' [] true
             (single_cls true (esc "%<")) Hw Hs).
  destruct s' as [|x s'].
  - rewrite app_nil_r in H. unfold free_of_marks in H. congruence.
  - apply tries_none. intros u v _. cbv beta.
    apply (eol_blocked (in_cls true (esc "%<")) v x s'); [reflexivity|exact Hs].
Qed.

Lemma free_of_marks_no_pct (s : str) :
  free_of_marks s = true -> absent pct s = true.
Proof.
  induction s as [|x s IH]; [reflexivity|]. simpl. intros H.
  apply andb_true_iff in H as [Hx Hs]. rewrite absent_cons, (IH Hs), andb_true_r.
  destruct (Ascii.eqb_spec pct x) as [<-|N]; [discriminate|reflexivity].
Qed.

Lemma occurs_absent (c d : ascii) (s : str) :
  absent c s = true -> occurs [c; d] s = false.
Proof.
  induction s as [|x s IH]; [reflexivity|]. rewrite absent_cons. intros H.
  apply andb_true_iff in H as [Hx Hs]. apply negb_true_iff in Hx.
  simpl. rewrite Hx. apply IH. exact Hs.
Qed.

(** C9, as the code has it.  The catch-all rule fires exactly on the states
    that hold neither [%] nor [<]: such a state, which has no thread at all,
    becomes the illegal-move text; every other state is left as it is, in
    particular every state with an active thread. *)
Theorem illegal_move_fires_on_mark_free_states (s : str) :
  (free_of_marks s = true -> run illegal_move s = illegal_move_text)
  /\ (free_of_marks s = false -> run illegal_move s = s)
  /\ (has_active_thread s = true -> run illegal_move s = s).
Proof.
  assert (Hmiss : free_of_marks s = false -> run illegal_move s = s).
  { intros H.
    change (run illegal_move s)
      with (sub_from (fst (rule1 illegal_move)) (snd (rule1 illegal_move)) s 0 true).
    destruct s as [|x s]; [discriminate|].
    rewrite sub_from_miss by (apply illegal_move_search_miss; exact H).
    norm_rule (fst (rule1 illegal_move)). rewrite sub_from_bol. reflexivity. }
  split; [|split].
  - intros H.
    change (run illegal_move s)
      with (sub_from (fst (rule1 illegal_move)) (snd (rule1 illegal_move)) s 0 true).
    destruct s as [|x s].
    + reflexivity.
    + rewrite <- (app_nil_r (x :: s)) at 1.
      rewrite (sub_from_hit _ _ (x :: s) [] [] true);
        [| discriminate | rewrite app_nil_r; apply illegal_move_search_hit; exact H].
      reflexivity.
  - exact Hmiss.
  - intros H. apply Hmiss.
    destruct (free_of_marks s) eqn:E; [|reflexivity].
    apply free_of_marks_no_pct in E.
    apply (occurs_absent pct pct) in E. unfold has_active_thread in H.
    change (esc "%%") with [pct; pct] in H. congruence.
Qed.

(** C9 as stated fails: a state whose only thread is inactive has no active
    thread, yet the rule does not match it and no illegal-move text
    appears. *)
Lemma illegal_move_skips_inactive_only_state :
  has_active_thread (inactive (esc "UID1") [] [(esc "turn", esc "w")]) = false
  /\ run illegal_move (inactive (esc "UID1") [] [(esc "turn", esc "w")])
     = inactive (esc "UID1") [] [(esc "turn", esc "w")]
  /\ occurs (esc "*Illegal Move*")
       (run illegal_move (inactive (esc "UID1") [] [(esc "turn", esc "w")])) = false.
Proof. repeat split. Qed.

Lemma illegal_move_fires_on_mark_free_states_witness :
  free_of_marks (esc "e2e5\n") = true
  /\ run illegal_move (esc "e2e5\n") = illegal_move_text.
Proof.
  split; [reflexivity|].
  apply (proj1 (illegal_move_fires_on_mark_free_states (esc "e2e5\n"))).
  reflexivity.
Defined.

(** ** More steps: backreferences, counted repetition, failing steps *)

Lemma m_step_ref (i : nat) (r : regex) (w : str) (k : cont) (s : str)
    (cs : captures) (b : bool) :
  group i cs = Some w ->
  m (Seq (Ref i) r) k (MS (w ++ s) cs b)
  = m r (fun w' st => k (w ++ w') st) (MS s cs (b && is_nil w)).
Proof.
  intros H. rewrite m_seq. simpl. rewrite H, strip_prefix_hit. reflexivity.
Qed.

Lemma m_step_ref_miss (i : nat) (r : regex) (w : str) (k : cont) (s : str)
    (cs : captures) (b : bool) :
  group i cs = Some w -> strip_prefix w s = None ->
  m (Seq (Ref i) r) k (MS s cs b) = None.
Proof. intros H Hs. rewrite m_seq. simpl. rewrite H, Hs. reflexivity. Qed.

Lemma m_step_exact_miss (a r : regex) (l : str) (k : cont) (s : str)
    (cs : captures) (b : bool) :
  exact a = Some l -> strip_prefix l s = None ->
  m (Seq a r) k (MS s cs b) = None.
Proof.
  intros H Hs. rewrite m_seq, (m_exact a l H). simpl rest. rewrite Hs. reflexivity.
Qed.

Lemma forallb_split (f : ascii -> bool) (u v : str) (x : ascii) :
  forallb f (u ++ x :: v) = true -> f x = true.
Proof.
  rewrite forallb_app. intros H. apply andb_true_iff in H as [_ H].
  simpl in H. apply andb_true_iff in H as [H _]. exact H.
Qed.

(** A captured greedy run after which the closing literal does not follow:
    no candidate of the run survives. *)
Lemma m_step_run_miss (f : ascii -> bool) (a dl r : regex) (i : nat) (v d : str)
    (k : cont) (s : str) (cs : captures) (b : bool) :
  single f a -> exact dl = Some d -> d <> [] -> heads f d = false ->
  forallb f v = true -> heads f s = false -> strip_prefix d s = None ->
  m (Seq (Grp i (Star a)) (Seq dl r)) k (MS (v ++ s) cs b) = None.
Proof.
  intros Ha Hd Hne Hh Hv Hs Hm.
  rewrite m_seq, m_grp.
  rewrite (m_star_tries f a v _ s cs b Ha Hv Hs).
  apply tries_none. intros u v' E. cbv beta. simpl rest. simpl caps. simpl at0.
  apply (m_step_exact_miss dl r d _ _ _ _ Hd).
  destruct v' as [|x v']; [exact Hm|].
  simpl app. apply (strip_prefix_heads f d x _ Hne Hh).
  rewrite E in Hv. apply (forallb_split f u v' x Hv).
Qed.

(** Counted repetition of a one-character body. *)
Lemma m_rep (f : ascii -> bool) (a : regex) :
  single f a ->
  forall (n : nat) (v : str) (k : cont) (s : str) (cs : captures) (b : bool),
    length v = n -> forallb f v = true ->
    m (rep n a) k (MS (v ++ s) cs b) = k v (MS s cs (b && is_nil v)).
Proof.
  intros Ha. induction n as [|n IH]; intros v k s cs b Hn Hv.
  - destruct v; [|discriminate]. simpl. rewrite andb_true_r. reflexivity.
  - destruct v as [|x v]; [discriminate|].
    simpl in Hv. apply andb_true_iff in Hv as [Hx Hv].
    change (rep (S n) a) with (Seq a (rep n a)). rewrite m_seq, Ha.
    simpl rest. simpl app. cbv iota. rewrite Hx. simpl caps.
    rewrite (IH v _ s cs false) by (simpl in Hn; lia || assumption).
    simpl. rewrite andb_false_r. reflexivity.
Qed.

Lemma m_rep_miss (f : ascii -> bool) (a : regex) :
  single f a ->
  forall (n : nat) (v : str) (k : cont) (s : str) (cs : captures) (b : bool),
    length v < n -> forallb f v = true -> heads f s = false ->
    m (rep n a) k (MS (v ++ s) cs b) = None.
Proof.
  intros Ha. induction n as [|n IH]; intros v k s cs b Hn Hv Hs; [lia|].
  change (rep (S n) a) with (Seq a (rep n a)). rewrite m_seq, Ha. simpl rest.
  destruct v as [|x v].
  - simpl app. destruct s as [|y s]; [reflexivity|]. simpl in Hs. rewrite Hs. reflexivity.
  - simpl in Hv. apply andb_true_iff in Hv as [Hx Hv].
    simpl app. cbv iota. rewrite Hx. simpl caps.
    apply IH; [simpl in Hn; lia|assumption|assumption].
Qed.

Lemma m_step_rep (f : ascii -> bool) (a r : regex) (i n : nat) (v : str)
    (k : cont) (s : str) (cs : captures) (b : bool) :
  single f a -> length v = n -> forallb f v = true ->
  m (Seq (Grp i (rep n a)) r) k (MS (v ++ s) cs b)
  = m r (fun w st => k (v ++ w) st) (MS s ((i, v) :: cs) (b && is_nil v)).
Proof.
  intros Ha Hn Hv. rewrite m_seq, m_grp.
  rewrite (m_rep f a Ha n v _ s cs b Hn Hv). reflexivity.
Qed.

(** ** Unary numbers and binary literals *)

Lemma unary_add (a b : nat) : unary (a + b) = unary a ++ unary b.
Proof. apply repeat_app. Qed.

Lemma unary_is_A (n : nat) : forallb is_A (unary n) = true.
Proof. induction n as [|n IH]; [reflexivity|]. simpl. exact IH. Qed.

Lemma unary_length (n : nat) : length (unary n) = n.
Proof. apply repeat_length. Qed.

Lemma single_A : single is_A (Seq (Chr A) Eps).
Proof. exact (single_lit1 A). Qed.

Lemma unary_ok (n : nat) : value_ok (unary n) = true.
Proof. induction n as [|n IH]; [reflexivity|]. simpl. exact IH. Qed.

(** ** [add_unary] and [sub_unary] *)

Lemma add_unary_search (x y : nat) (s : str) :
  search (fst (rule1 add_unary)) (header ++ unary y ++ [nl] ++ unary x ++ [nl] ++ s) true false
  = Some (header ++ unary y ++ [nl] ++ unary x ++ [nl],
          [(3, unary x); (2, unary y); (1, header)]).
Proof.
  unfold search. norm_rule (fst (rule1 add_unary)).
  rewrite (m_step_exact _ _ header) by reflexivity.
  rewrite (m_step_run is_A _ _ _ 2 (unary y) [nl]);
    [| apply single_A | reflexivity | discriminate | reflexivity | apply unary_is_A].
  rewrite (m_step_run is_A _ _ _ 3 (unary x) [nl]);
    [| apply single_A | reflexivity | discriminate | reflexivity | apply unary_is_A].
  reflexivity.
Qed.

Lemma strip_unary_miss (x y : nat) (c : ascii) (s : str) :
  x < y -> is_A c = false -> strip_prefix (unary y) (unary x ++ c :: s) = None.
Proof.
  revert y. induction x as [|x IH]; intros y H Hc.
  - destruct y as [|y]; [lia|].
    change (strip_prefix (unary (S y)) (unary 0 ++ c :: s))
      with (if Ascii.eqb A c then strip_prefix (unary y) s else None).
    unfold is_A in Hc. rewrite Ascii.eqb_sym, Hc. reflexivity.
  - destruct y as [|y]; [lia|].
    change (strip_prefix (unary (S y)) (unary (S x) ++ c :: s))
      with (if Ascii.eqb A A then strip_prefix (unary y) (unary x ++ c :: s) else None).
    rewrite Ascii.eqb_refl. apply IH; [lia|exact Hc].
Qed.

Lemma sub_unary_search_ge (d y : nat) (s : str) :
  search (pat 0 sub_unary)
    (header ++ unary y ++ [nl] ++ unary y ++ unary d ++ [nl] ++ s) true false
  = Some (header ++ unary y ++ [nl] ++ unary y ++ unary d ++ [nl],
          [(3, unary d); (2, unary y); (1, header)]).
Proof.
  unfold search. norm_rule (pat 0 sub_unary).
  rewrite (m_step_exact _ _ header) by reflexivity.
  rewrite (m_step_run is_A _ _ _ 2 (unary y) [nl]);
    [| apply single_A | reflexivity | discriminate | reflexivity | apply unary_is_A].
  rewrite (m_step_ref 2 _ (unary y)) by reflexivity.
  rewrite (m_step_run is_A _ _ _ 3 (unary d) [nl]);
    [| apply single_A | reflexivity | discriminate | reflexivity | apply unary_is_A].
  reflexivity.
Qed.

Lemma sub_unary_search_lt (x y : nat) (s : str) :
  x < y ->
  search (pat 0 sub_unary)
    (header ++ unary y ++ [nl] ++ unary x ++ [nl] ++ s) true false = None.
Proof.
  intros H. unfold search. norm_rule (pat 0 sub_unary).
  rewrite (m_step_exact _ _ header) by reflexivity.
  rewrite (m_step_run is_A _ _ _ 2 (unary y) [nl]);
    [| apply single_A | reflexivity | discriminate | reflexivity | apply unary_is_A].
  apply (m_step_ref_miss 2 _ (unary y)); [reflexivity|].
  apply strip_unary_miss; [exact H|reflexivity].
Qed.

Lemma sub_thread_miss_at (r : regex) (t : template) (l x s : str) :
  lead r = pct :: pct :: l -> absent pct s = true ->
  x = pct :: pct :: s ->
  search r x true false = None ->
  sub r t x = x.
Proof. intros Hl Hs -> H. apply (sub_thread_miss r t l s Hl Hs H). Qed.

Lemma unary_absent (c : ascii) (n : nat) : is_A c = false -> absent c (unary n) = true.
Proof.
  intros H. induction n as [|n IH]; [reflexivity|].
  change (unary (S n)) with (A :: unary n). rewrite absent_cons, IH, andb_true_r.
  unfold is_A in H. rewrite H. reflexivity.
Qed.

Lemma run_cons (p : rule) (i : instruction) (s : str) :
  run (p :: i) s = run i (sub (fst p) (snd p) s).
Proof. reflexivity. Qed.

Lemma run_nil (s : str) : run [] s = s.
Proof. reflexivity. Qed.

Lemma sub_from_hit_at (r : regex) (t : template) (x w s : str) (cs : captures) (b : bool) :
  w <> [] -> x = w ++ s ->
  search r x b false = Some (w, cs) ->
  sub_from r t x 0 b = expand t cs ++ sub_from r t s 0 false.
Proof. intros Hw -> H. apply (sub_from_hit r t w s cs b Hw H). Qed.

Lemma sub_unary_r0_ge (d y : nat) (s : str) :
  absent pct s = true ->
  sub (pat 0 sub_unary) (repl 0 sub_unary)
    (header ++ unary y ++ [nl] ++ unary (y + d) ++ [nl] ++ s)
  = header ++ esc "`sub" ++ unary d ++ [nl] ++ s.
Proof.
  intros Hs. rewrite unary_add, <- !app_assoc.
  rewrite (sub_thread_hit_at _ _ (esc "%\n#stack:\n") _
             (header ++ unary y ++ [nl] ++ unary y ++ unary d ++ [nl]) s
             [(3, unary d); (2, unary y); (1, header)]);
    [| reflexivity | discriminate | exact Hs | app_norm | apply (sub_unary_search_ge d y s)].
  change (expand _ _) with (header ++ esc "`sub" ++ unary d ++ [nl]).
  app_norm.
Qed.

Lemma sub_unary_r0_lt (x y : nat) (s : str) :
  x < y -> absent pct s = true ->
  sub (pat 0 sub_unary) (repl 0 sub_unary)
    (header ++ unary y ++ [nl] ++ unary x ++ [nl] ++ s)
  = header ++ unary y ++ [nl] ++ unary x ++ [nl] ++ s.
Proof.
  intros H Hs.
  apply (sub_thread_miss_at _ _ (esc "\n#stack:\n")
           _ (esc "\n#stack:\n" ++ unary y ++ [nl] ++ unary x ++ [nl] ++ s)).
  - reflexivity.
  - rewrite !absent_app, Hs, !unary_absent by reflexivity. reflexivity.
  - reflexivity.
  - apply sub_unary_search_lt. exact H.
Qed.

Lemma sub_unary_r1_marked (d : nat) (s : str) :
  absent pct s = true ->
  sub (pat 1 sub_unary) (repl 1 sub_unary)
    (header ++ esc "`sub" ++ unary d ++ [nl] ++ s)
  = header ++ esc "`sub" ++ unary d ++ [nl] ++ s.
Proof.
  intros Hs.
  apply (sub_thread_miss_at _ _ (esc "\n#stack:\n")
           _ (esc "\n#stack:\n" ++ esc "`sub" ++ unary d ++ [nl] ++ s)).
  - reflexivity.
  - rewrite !absent_app, Hs, !unary_absent by reflexivity. reflexivity.
  - reflexivity.
  - unfold search. norm_rule (pat 1 sub_unary).
    rewrite (m_step_exact _ _ header) by reflexivity.
    apply (m_step_run_miss is_A _ _ _ 2 (unary 0) [nl]);
      [apply single_A | reflexivity | discriminate | reflexivity | reflexivity
      | reflexivity | reflexivity].
Qed.

Lemma sub_unary_r1_lt (x y : nat) (s : str) :
  absent pct s = true ->
  sub (pat 1 sub_unary) (repl 1 sub_unary)
    (header ++ unary y ++ [nl] ++ unary x ++ [nl] ++ s)
  = header ++ esc "`zero" ++ [nl] ++ s.
Proof.
  intros Hs.
  rewrite (sub_thread_hit_at _ _ (esc "%\n#stack:\n") _
             (header ++ unary y ++ [nl] ++ unary x ++ [nl]) s
             [(3, unary x); (2, unary y); (1, header)]);
    [| reflexivity | discriminate | exact Hs | app_norm | apply (add_unary_search x y s)].
  reflexivity.
Qed.

Lemma sub_unary_r2_sub (d : nat) (s : str) :
  sub (pat 2 sub_unary) (repl 2 sub_unary)
    (header ++ esc "`sub" ++ unary d ++ [nl] ++ s)
  = header ++ unary d ++ [nl] ++ sub_from (pat 2 sub_unary) (repl 2 sub_unary) s 0 false.
Proof.
  unfold sub.
  rewrite (sub_from_copy _ _ backtick (esc "sub") header) by reflexivity.
  f_equal.
  rewrite (sub_from_hit_at _ _ _ (esc "`sub" ++ unary d ++ [nl]) s [(1, unary d)]).
  - change (expand _ _) with (unary d ++ [nl]). app_norm.
  - discriminate.
  - app_norm.
  - unfold search. norm_rule (pat 2 sub_unary).
    rewrite (m_step_exact _ _ (esc "`sub")) by reflexivity.
    rewrite (m_step_run is_A _ _ _ 1 (unary d) [nl]);
      [| apply single_A | reflexivity | discriminate | reflexivity | apply unary_is_A].
    reflexivity.
Qed.

Lemma sub_unary_r2_zero (s : str) :
  sub (pat 2 sub_unary) (repl 2 sub_unary) (header ++ esc "`zero" ++ [nl] ++ s)
  = header ++ esc "`zero" ++ [nl] ++ sub_from (pat 2 sub_unary) (repl 2 sub_unary) s 0 false.
Proof. reflexivity. Qed.

Lemma sub_unary_r3_plain (d : nat) (s : str) :
  sub (pat 3 sub_unary) (repl 3 sub_unary) (header ++ unary d ++ [nl] ++ s)
  = header ++ unary d ++ [nl] ++ sub_from (pat 3 sub_unary) (repl 3 sub_unary) s 0 false.
Proof.
  unfold sub.
  rewrite (sub_from_copy _ _ backtick (esc "zero\n") header) by reflexivity.
  rewrite (sub_from_copy _ _ backtick (esc "zero\n") (unary d))
    by (reflexivity || apply unary_absent; reflexivity).
  rewrite (sub_from_copy _ _ backtick (esc "zero\n") [nl]) by reflexivity.
  reflexivity.
Qed.

Lemma sub_unary_r3_zero (s : str) :
  sub (pat 3 sub_unary) (repl 3 sub_unary) (header ++ esc "`zero" ++ [nl] ++ s)
  = header ++ [nl] ++ sub_from (pat 3 sub_unary) (repl 3 sub_unary) s 0 false.
Proof. reflexivity. Qed.

Lemma run_sub_unary (s : str) :
  run sub_unary s
  = sub (pat 3 sub_unary) (repl 3 sub_unary)
      (sub (pat 2 sub_unary) (repl 2 sub_unary)
         (sub (pat 1 sub_unary) (repl 1 sub_unary)
            (sub (pat 0 sub_unary) (repl 0 sub_unary) s))).
Proof. reflexivity. Qed.

Lemma sweep_absent (s : str) :
  absent backtick s = true -> sweep (skipn 2 sub_unary) s = s.
Proof.
  intros H. unfold sweep. cbn [skipn sub_unary fold_left fst snd].
  rewrite (sub_from_absent _ _ backtick (esc "sub") s false) by (reflexivity || exact H).
  rewrite (sub_from_absent _ _ backtick (esc "zero\n") s false) by (reflexivity || exact H).
  reflexivity.
Qed.

Lemma body_push (v : str) (stack : list str) (vars : list (str * str)) :
  thread_body (v :: stack) vars = v ++ [nl] ++ thread_body stack vars.
Proof.
  unfold thread_body.
  change (flat_map stack_line (v :: stack))
    with ((v ++ [nl]) ++ flat_map stack_line stack).
  rewrite <- !app_assoc. reflexivity.
Qed.

(** C3.  [sub_unary] on an active thread whose top of stack is the unary
    [y] and whose next value is the unary [x] replaces the two values by the
    unary [max 0 (x - y)]: next minus top, clamped at zero.  The lines
    below only pass through the two unanchored rules that clear the [`sub]
    and [`zero] marks, so they are untouched when they hold no backtick. *)
Theorem sub_unary_next_minus_top (x y : nat) (stack : list str) (vars : list (str * str)) :
  thread_ok stack vars = true ->
  run sub_unary (active (unary y :: unary x :: stack) vars)
  = header ++ unary (x - y) ++ [nl] ++ sweep (skipn 2 sub_unary) (thread_body stack vars)
  /\ (absent backtick (thread_body stack vars) = true ->
      run sub_unary (active (unary y :: unary x :: stack) vars)
      = active (unary (x - y) :: stack) vars).
Proof.
  intros Hok. pose proof (body_no_pct stack vars Hok) as Hs.
  assert (E : run sub_unary (active (unary y :: unary x :: stack) vars)
              = header ++ unary (x - y) ++ [nl]
                ++ sweep (skipn 2 sub_unary) (thread_body stack vars)).
  { rewrite active_push.
    rewrite body_push, run_sub_unary.
    destruct (le_lt_dec y x) as [Hle|Hlt].
    - replace x with (y + (x - y)) at 1 by lia.
      rewrite sub_unary_r0_ge by exact Hs.
      rewrite sub_unary_r1_marked by exact Hs.
      rewrite sub_unary_r2_sub, sub_unary_r3_plain. reflexivity.
    - rewrite sub_unary_r0_lt by assumption.
      rewrite sub_unary_r1_lt by exact Hs.
      rewrite sub_unary_r2_zero, sub_unary_r3_zero.
      replace (x - y) with 0 by lia. reflexivity. }
  split; [exact E|].
  intros Hb. rewrite E, (sweep_absent _ Hb), active_push. reflexivity.
Qed.

Lemma sub_unary_next_minus_top_witness :
  thread_ok [esc "e4"] [(esc "turn", esc "w")] = true
  /\ absent backtick (thread_body [esc "e4"] [(esc "turn", esc "w")]) = true
  /\ run sub_unary (active [unary 4; unary 5; esc "e4"] [(esc "turn", esc "w")])
     = active [unary (5 - 4); esc "e4"] [(esc "turn", esc "w")].
Proof.
  split; [reflexivity|]. split; [reflexivity|].
  apply (proj2 (sub_unary_next_minus_top 5 4 [esc "e4"] [(esc "turn", esc "w")]
                  eq_refl)).
  reflexivity.
Defined.

(** ** [to_unary] and [from_unary] *)

Lemma digit_is_bit (n w : nat) : is_bit (digit n w) = true.
Proof. unfold digit. destruct (Nat.odd (n / 2 ^ w)); reflexivity. Qed.

Lemma bits_are_bits (w n : nat) : forallb is_bit (bits w n) = true.
Proof.
  induction w as [|w IH]; [reflexivity|].
  change (bits (S w) n) with (digit n w :: bits w n).
  simpl forallb. rewrite digit_is_bit, IH. reflexivity.
Qed.

Lemma bits_length (w n : nat) : length (bits w n) = w.
Proof. induction w as [|w IH]; [reflexivity|]. simpl. rewrite IH. reflexivity. Qed.

Lemma zeros_are_bits (j : nat) : forallb is_bit (repeat "0"%char j) = true.
Proof. induction j as [|j IH]; [reflexivity|]. simpl. exact IH. Qed.

Lemma mod_pow2_succ (n w : nat) :
  n mod 2 ^ S w = (if Nat.odd (n / 2 ^ w) then 2 ^ w else 0) + n mod 2 ^ w.
Proof.
  rewrite Nat.pow_succ_r', (Nat.mul_comm 2), Nat.Div0.mod_mul_r.
  assert (H : (n / 2 ^ w) mod 2 = if Nat.odd (n / 2 ^ w) then 1 else 0).
  { set (q := n / 2 ^ w). destruct (Nat.odd q) eqn:E.
    - apply Nat.odd_spec in E. destruct E as [k ->].
      rewrite Nat.add_comm, Nat.mul_comm, Nat.Div0.mod_add. reflexivity.
    - assert (Ev : Nat.even q = true) by (rewrite <- Nat.negb_odd, E; reflexivity).
      apply Nat.even_spec in Ev. destruct Ev as [k ->].
      rewrite Nat.mul_comm, Nat.Div0.mod_mul. reflexivity. }
  rewrite H. destruct (Nat.odd (n / 2 ^ w)); lia.
Qed.

Lemma mod_le_self (n k : nat) : n mod k <= n.
Proof. apply Nat.Div0.mod_le. Qed.

Lemma bits_snoc (j m : nat) : bits (S j) m = bits j (m / 2) ++ [digit m 0].
Proof.
  induction j as [|j IH].
  - reflexivity.
  - change (bits (S (S j)) m) with (digit m (S j) :: bits (S j) m).
    rewrite IH.
    change (bits (S j) (m / 2)) with (digit (m / 2) j :: bits j (m / 2)).
    assert (E : digit m (S j) = digit (m / 2) j).
    { unfold digit. rewrite Nat.pow_succ_r', Nat.Div0.div_div. reflexivity. }
    rewrite E. reflexivity.
Qed.

Lemma single_bit : single is_bit (set "01").
Proof. exact (single_cls false (esc "01")). Qed.

Lemma to_unary_bit_set (w : nat) (hi lo t : str) :
  length hi = 9 - w -> length lo = w ->
  forallb is_bit hi = true -> forallb is_bit lo = true ->
  absent pct t = true ->
  sub (fst (to_unary_bit w)) (snd (to_unary_bit w))
    (header ++ esc "int" ++ hi ++ ["1"%char] ++ lo ++ t)
  = header ++ esc "int" ++ hi ++ ["0"%char] ++ lo ++ unary (2 ^ w) ++ t.
Proof.
  intros Lhi Llo Hhi Hlo Ht.
  erewrite (sub_thread_hit_at _ _ _ _
             (header ++ esc "int" ++ hi ++ ["1"%char] ++ lo) t
             [(3, lo); (2, hi); (1, header)]).
  - unfold to_unary_bit. cbn [snd]. unfold expand. rewrite !flat_map_app.
    replace (flat_map (expand1 [(3, lo); (2, hi); (1, header)]) (tpl "\1int\g<2>0\g<3>"))
      with (header ++ esc "int" ++ hi ++ ["0"%char] ++ lo)
      by (simpl; rewrite app_nil_r; reflexivity).
    replace (flat_map (expand1 [(3, lo); (2, hi); (1, header)]) (tlit (repeat A (2 ^ w))))
      with (unary (2 ^ w)).
    + rewrite <- !app_assoc. reflexivity.
    + unfold tlit, unary. induction (2 ^ w) as [|k IH]; [reflexivity|].
      simpl. rewrite <- IH. reflexivity.
  - reflexivity.
  - discriminate.
  - exact Ht.
  - app_norm.
  - unfold search. change (fst (to_unary_bit w)) with (to_unary_pat w). unfold to_unary_pat.
    rewrite (m_step_exact _ _ header) by reflexivity.
    rewrite (m_step_exact _ _ (esc "int")) by reflexivity.
    rewrite (m_step_rep is_bit _ _ 2 (9 - w) hi) by (apply single_bit || assumption).
    rewrite (m_step_exact _ _ ["1"%char]) by reflexivity.
    rewrite (m_step_rep is_bit _ _ 3 w lo) by (apply single_bit || assumption).
    cbn [m]. rewrite !app_nil_r. reflexivity.
Qed.

Lemma to_unary_bit_clear (w : nat) (hi lo t : str) :
  length hi = 9 - w ->
  forallb is_bit hi = true ->
  absent pct lo = true -> absent pct hi = true -> absent pct t = true ->
  sub (fst (to_unary_bit w)) (snd (to_unary_bit w))
    (header ++ esc "int" ++ hi ++ ["0"%char] ++ lo ++ t)
  = header ++ esc "int" ++ hi ++ ["0"%char] ++ lo ++ t.
Proof.
  intros Lhi Hhi Alo Ahi Ht.
  eapply (sub_thread_miss_at _ _ _ _ (esc "\n#stack:\n" ++ esc "int" ++ hi ++ ["0"%char] ++ lo ++ t)).
  - reflexivity.
  - rewrite !absent_app, Ahi, Alo, Ht. reflexivity.
  - reflexivity.
  - unfold search. change (fst (to_unary_bit w)) with (to_unary_pat w). unfold to_unary_pat.
    rewrite (m_step_exact _ _ header) by reflexivity.
    rewrite (m_step_exact _ _ (esc "int")) by reflexivity.
    rewrite (m_step_rep is_bit _ _ 2 (9 - w) hi) by (apply single_bit || assumption).
    apply (m_step_exact_miss _ _ ["1"%char]); reflexivity.
Qed.

Lemma bits_no_pct (w n : nat) : absent pct (bits w n) = true.
Proof.
  induction w as [|w IH]; [reflexivity|].
  change (bits (S w) n) with (digit n w :: bits w n).
  rewrite absent_cons, IH. unfold digit. destruct (Nat.odd _); reflexivity.
Qed.

Lemma zeros_no_pct (j : nat) : absent pct (repeat "0"%char j) = true.
Proof. induction j as [|j IH]; [reflexivity|]. simpl repeat. rewrite absent_cons, IH. reflexivity. Qed.

Lemma unary_no_pct (n : nat) : absent pct (unary n) = true.
Proof. apply unary_absent. reflexivity. Qed.

Lemma to_unary_step (j w n : nat) (t : str) :
  j + w = 9 -> absent pct t = true ->
  sub (fst (to_unary_bit w)) (snd (to_unary_bit w)) (to_unary_state j n t)
  = to_unary_state (S j) n t.
Proof.
  intros E Ht. unfold to_unary_state.
  replace (10 - j) with (S w) by lia. replace (10 - S j) with w by lia.
  change (bits (S w) n) with (digit n w :: bits w n).
  rewrite (mod_pow2_succ n w).
  pose proof (mod_le_self n (2 ^ S w)) as Hle. rewrite (mod_pow2_succ n w) in Hle.
  replace (repeat "0"%char (S j)) with (repeat "0"%char j ++ ["0"%char])
    by (symmetry; apply repeat_cons).
  unfold digit. destruct (Nat.odd (n / 2 ^ w)).
  - change (("1"%char :: bits w n) ++ ?x) with (["1"%char] ++ bits w n ++ x).
    rewrite (to_unary_bit_set w (repeat "0"%char j) (bits w n));
      [| rewrite repeat_length; lia | apply bits_length | apply zeros_are_bits
       | apply bits_are_bits | rewrite absent_app, unary_no_pct, Ht; reflexivity].
    rewrite (app_assoc (unary (2 ^ w))), <- unary_add.
    replace (2 ^ w + (n - (2 ^ w + n mod 2 ^ w))) with (n - n mod 2 ^ w) by lia.
    rewrite <- ?app_assoc. reflexivity.
  - change (("0"%char :: bits w n) ++ ?x) with (["0"%char] ++ bits w n ++ x).
    rewrite (to_unary_bit_clear w (repeat "0"%char j) (bits w n));
      [| rewrite repeat_length; lia | apply zeros_are_bits | apply bits_no_pct
       | apply zeros_no_pct | rewrite absent_app, unary_no_pct, Ht; reflexivity].
    rewrite <- ?app_assoc. reflexivity.
Qed.

Lemma run_app (i1 i2 : instruction) (s : str) : run (i1 ++ i2) s = run i2 (run i1 s).
Proof. apply fold_left_app. Qed.

Lemma rev_seq_S (k : nat) : rev (seq 0 (S k)) = k :: rev (seq 0 k).
Proof. rewrite seq_S, rev_app_distr. reflexivity. Qed.

Lemma to_unary_bits (k n : nat) (t : str) :
  k <= 10 -> absent pct t = true ->
  run (map to_unary_bit (rev (seq 0 k))) (to_unary_state (10 - k) n t)
  = to_unary_state 10 n t.
Proof.
  intros Hk Ht. induction k as [|k IH].
  - reflexivity.
  - rewrite rev_seq_S. cbn [map]. rewrite run_cons.
    rewrite (to_unary_step (10 - S k) k n t) by (lia || assumption).
    replace (S (10 - S k)) with (10 - k) by lia. apply IH. lia.
Qed.

Lemma heads_unary (f : ascii -> bool) (n : nat) (c : ascii) (s : str) :
  f A = false -> f c = false -> heads f (unary n ++ c :: s) = false.
Proof. intros HA Hc. destruct n; simpl; assumption. Qed.

Lemma to_unary_last (n : nat) (s : str) :
  absent pct s = true ->
  sub (pat 10 to_unary) (repl 10 to_unary)
    (header ++ esc "int" ++ repeat "0"%char 10 ++ unary n ++ [nl] ++ s)
  = header ++ unary n ++ [nl] ++ s.
Proof.
  intros Hs.
  erewrite (sub_thread_hit_at _ _ _ _ (header ++ esc "int" ++ repeat "0"%char 10)
              (unary n ++ [nl] ++ s) [(2, esc "int" ++ repeat "0"%char 10); (1, header)]).
  - reflexivity.
  - reflexivity.
  - discriminate.
  - rewrite !absent_app, unary_no_pct, Hs. reflexivity.
  - app_norm.
  - unfold search. norm_rule (pat 10 to_unary).
    rewrite (m_step_exact _ _ header) by reflexivity.
    rewrite m_seq, m_grp.
    rewrite (m_step_exact _ _ (esc "int")) by reflexivity.
    rewrite m_seq.
    rewrite (m_star_tries (fun x => Ascii.eqb x "0"%char) _ (repeat "0"%char 10) _
               (unary n ++ [nl] ++ s) _ _ (single_lit1 "0"%char) eq_refl
               (heads_unary _ n nl s eq_refl eq_refl)).
    apply tries_first. reflexivity.
Qed.

Lemma i2s_small (n : nat) : n < 2 ^ 10 -> i2s n = esc "int" ++ bits 10 n.
Proof.
  intros H. unfold i2s.
  replace (Nat.max 10 (Nat.log2 n + 1)) with 10; [reflexivity|].
  destruct n as [|n]; [reflexivity|].
  assert (Nat.log2 (S n) < 10) by (apply Nat.log2_lt_pow2; lia). lia.
Qed.

Lemma to_unary_run (n : nat) (s : str) :
  n < 2 ^ 10 -> absent pct s = true ->
  run to_unary (header ++ i2s n ++ [nl] ++ s) = header ++ unary n ++ [nl] ++ s.
Proof.
  intros Hn Hs. rewrite (i2s_small n Hn).
  assert (E0 : header ++ (esc "int" ++ bits 10 n) ++ [nl] ++ s
               = to_unary_state (10 - 10) n ([nl] ++ s)).
  { unfold to_unary_state. change (10 - (10 - 10)) with 10.
    rewrite (Nat.mod_small n (2 ^ 10) Hn), (Nat.sub_diag n).
    rewrite <- !app_assoc. reflexivity. }
  rewrite E0. unfold to_unary. rewrite run_app.
  rewrite (to_unary_bits 10 n ([nl] ++ s)) by (lia || exact Hs).
  unfold to_unary_state. change (10 - 10) with 0.
  replace (n - n mod 2 ^ 0) with n by (simpl; lia).
  change (bits 0 n) with (@nil ascii). rewrite app_nil_l.
  apply (to_unary_last n s Hs).
Qed.

Lemma m_eps (k : cont) (st : mstate) : m Eps k st = k [] st.
Proof. reflexivity. Qed.

Lemma m_cls_hit (neg : bool) (cs : list ascii) (c : ascii) (k : cont) (s : str)
    (cp : captures) (b : bool) :
  in_cls neg cs c = true ->
  m (Cls neg cs) k (MS (c :: s) cp b) = k [c] (MS s cp false).
Proof. intros H. simpl. rewrite H. reflexivity. Qed.

Lemma m_cls_miss (neg : bool) (cs : list ascii) (c : ascii) (k : cont) (s : str)
    (cp : captures) (b : bool) :
  in_cls neg cs c = false ->
  m (Cls neg cs) k (MS (c :: s) cp b) = None.
Proof. intros H. simpl. rewrite H. reflexivity. Qed.

Lemma bit_not_A (c : ascii) : is_bit c = true -> is_A c = false.
Proof.
  unfold is_bit, is_A, in_cls. simpl. intros H.
  destruct (Ascii.eqb_spec c A) as [->|N]; [discriminate|reflexivity].
Qed.

Lemma heads_unary2 (f : ascii -> bool) (a b : nat) (c : ascii) (s : str) :
  f A = false -> f c = false -> heads f (unary a ++ unary b ++ c :: s) = false.
Proof.
  intros HA Hc. destruct a; [apply heads_unary; assumption|]. simpl. exact HA.
Qed.

Lemma from_unary_first (n : nat) (s : str) :
  absent pct s = true ->
  sub (fst from_unary_prefix) (snd from_unary_prefix) (header ++ unary n ++ [nl] ++ s)
  = header ++ esc "int" ++ unary n ++ [nl] ++ s.
Proof.
  intros Hs.
  erewrite (sub_thread_hit_at _ _ _ _ (header ++ unary n) ([nl] ++ s)
              [(2, unary n); (1, header)]).
  - change (expand _ _) with (header ++ esc "int" ++ unary n ++ []).
    rewrite app_nil_r, <- !app_assoc. reflexivity.
  - reflexivity.
  - discriminate.
  - exact Hs.
  - app_norm.
  - unfold search. norm_rule (fst from_unary_prefix).
    rewrite (m_step_exact _ _ header) by reflexivity.
    apply (m_step_run_greedy is_A _ _ 2 (unary n));
      [apply single_A | apply unary_is_A | reflexivity |].
    rewrite m_eps, app_nil_r. reflexivity.
Qed.

Lemma from_unary_set_hit (w d : nat) (hi s : str) :
  forallb is_bit hi = true -> absent pct s = true ->
  sub (fst (from_unary_set w)) (snd (from_unary_set w))
    (header ++ esc "int" ++ hi ++ unary (2 ^ w + d) ++ [nl] ++ s)
  = header ++ esc "int" ++ hi ++ ["1"%char] ++ unary d ++ [nl] ++ s.
Proof.
  intros Hhi Hs. rewrite unary_add, <- !app_assoc.
  erewrite (sub_thread_hit_at _ _ _ _
              (header ++ esc "int" ++ hi ++ unary (2 ^ w) ++ unary d) ([nl] ++ s)
              [(3, unary d); (2, unary (2 ^ w)); (1, header ++ esc "int" ++ hi)]).
  - unfold from_unary_set. cbn [snd].
    replace (expand (tpl "\g<1>1\g<3>") _)
      with ((header ++ esc "int" ++ hi) ++ ["1"%char] ++ unary d)
      by (simpl; rewrite app_nil_r; reflexivity).
    rewrite <- !app_assoc. reflexivity.
  - reflexivity.
  - discriminate.
  - exact Hs.
  - app_norm.
  - unfold search. change (fst (from_unary_set w)) with (from_unary_set_pat w).
    unfold from_unary_set_pat.
    rewrite m_seq, m_grp.
    change (header ++ esc "int" ++ ?x) with (esc "%%\n#stack:\nint" ++ x).
    rewrite (m_step_exact _ _ (esc "%%\n#stack:\nint")) by reflexivity.
    rewrite m_seq.
    rewrite (m_star_tries is_bit _ hi _ (unary (2 ^ w) ++ unary d ++ [nl] ++ s) _ _
               single_bit Hhi).
    2:{ apply heads_unary2; reflexivity. }
    apply tries_first. cbv beta. rewrite m_eps. cbv beta. cbn [rest caps at0].
    rewrite (m_step_rep is_A _ _ 2 (2 ^ w) (unary (2 ^ w)))
      by (apply single_A || apply unary_length || apply unary_is_A).
    apply (m_step_run_greedy is_A _ _ 3 (unary d));
      [apply single_A | apply unary_is_A | reflexivity |].
    rewrite m_eps. cbv beta. simpl rest. simpl caps.
    rewrite !app_nil_r, <- !app_assoc. reflexivity.
Qed.

Lemma from_unary_set_miss (w q : nat) (hi s : str) :
  q < 2 ^ w ->
  forallb is_bit hi = true -> absent pct hi = true -> absent pct s = true ->
  sub (fst (from_unary_set w)) (snd (from_unary_set w))
    (header ++ esc "int" ++ hi ++ unary q ++ [nl] ++ s)
  = header ++ esc "int" ++ hi ++ unary q ++ [nl] ++ s.
Proof.
  intros Hq Hhi Ahi Hs.
  eapply (sub_thread_miss_at _ _ _ _
            (esc "\n#stack:\n" ++ esc "int" ++ hi ++ unary q ++ [nl] ++ s)).
  - reflexivity.
  - rewrite !absent_app, Ahi, unary_no_pct, Hs. reflexivity.
  - reflexivity.
  - unfold search. change (fst (from_unary_set w)) with (from_unary_set_pat w).
    unfold from_unary_set_pat.
    rewrite m_seq, m_grp.
    change (header ++ esc "int" ++ ?x) with (esc "%%\n#stack:\nint" ++ x).
    rewrite (m_step_exact _ _ (esc "%%\n#stack:\nint")) by reflexivity.
    rewrite m_seq.
    rewrite (m_star_tries is_bit _ hi _ (unary q ++ [nl] ++ s) _ _ single_bit Hhi)
      by (apply heads_unary; reflexivity).
    apply tries_none. intros u v E. cbv beta. rewrite m_eps. cbv beta.
    cbn [rest caps at0]. rewrite m_seq, m_grp.
    destruct v as [|c v].
    + apply (m_rep_miss is_A _ single_A (2 ^ w) (unary q));
        [rewrite unary_length; exact Hq | apply unary_is_A | reflexivity].
    + apply (m_rep_miss is_A _ single_A (2 ^ w) []);
        [simpl; lia | reflexivity |].
      simpl. apply bit_not_A. rewrite E in Hhi. apply (forallb_split is_bit u v c Hhi).
Qed.

Lemma from_unary_clear_miss (w : nat) (hi t : str) :
  length hi = 9 - w ->
  forallb is_bit hi = true -> absent pct hi = true -> absent pct t = true ->
  sub (fst (from_unary_clear w)) (snd (from_unary_clear w))
    (header ++ esc "int" ++ hi ++ ["1"%char] ++ t)
  = header ++ esc "int" ++ hi ++ ["1"%char] ++ t.
Proof.
  intros Lhi Hhi Ahi Ht.
  eapply (sub_thread_miss_at _ _ _ _
            (esc "\n#stack:\n" ++ esc "int" ++ hi ++ ["1"%char] ++ t)).
  - reflexivity.
  - rewrite !absent_app, Ahi, Ht. reflexivity.
  - reflexivity.
  - unfold search. change (fst (from_unary_clear w)) with (from_unary_clear_pat w).
    unfold from_unary_clear_pat.
    rewrite (m_step_exact _ _ header) by reflexivity.
    rewrite (m_step_exact _ _ (esc "int")) by reflexivity.
    rewrite (m_step_rep is_bit _ _ 2 (9 - w) hi) by (apply single_bit || assumption).
    rewrite m_seq, m_grp, m_seq. apply m_cls_miss. reflexivity.
Qed.

Lemma absent_tail (c : ascii) (u v : str) :
  absent c (u ++ v) = true -> absent c v = true.
Proof. rewrite absent_app. intros H. apply andb_true_iff in H as [_ H]. exact H. Qed.

Lemma from_unary_clear_hit (w : nat) (hi t : str) (c0 : ascii) :
  length hi = 9 - w ->
  forallb is_bit hi = true -> is_bit c0 = false ->
  absent pct (c0 :: t) = true ->
  sub (fst (from_unary_clear w)) (snd (from_unary_clear w))
    (header ++ esc "int" ++ hi ++ c0 :: t)
  = header ++ esc "int" ++ hi ++ ["0"%char] ++ c0 :: t.
Proof.
  intros Lhi Hhi Hc Ht.
  destruct (span_run is_A t) as (run & s' & E & Hrun & Hs'). subst t.
  rewrite absent_cons in Ht. apply andb_true_iff in Ht as [Hc0 Ht].
  erewrite (sub_thread_hit_at _ _ _ _ (header ++ esc "int" ++ hi ++ c0 :: run) s'
              [(3, c0 :: run); (2, hi); (1, header)]).
  - unfold from_unary_clear. cbn [snd].
    replace (expand (tpl "\1int\g<2>0\g<3>") _)
      with (header ++ esc "int" ++ hi ++ ["0"%char] ++ c0 :: run)
      by (simpl; rewrite app_nil_r; reflexivity).
    rewrite <- !app_assoc. reflexivity.
  - reflexivity.
  - discriminate.
  - apply (absent_tail pct run s' Ht).
  - rewrite <- !app_assoc. reflexivity.
  - unfold search. change (fst (from_unary_clear w)) with (from_unary_clear_pat w).
    unfold from_unary_clear_pat.
    rewrite (m_step_exact _ _ header) by reflexivity.
    rewrite (m_step_exact _ _ (esc "int")) by reflexivity.
    rewrite (m_step_rep is_bit _ _ 2 (9 - w) hi) by (apply single_bit || assumption).
    rewrite m_seq, m_grp, m_seq. unfold nset.
    rewrite m_cls_hit by (unfold is_bit, in_cls in *; simpl in *; rewrite Hc; reflexivity).
    rewrite m_seq.
    rewrite (m_star_tries is_A _ run _ s' _ _ single_A Hrun Hs').
    apply tries_first. cbv beta. rewrite !m_eps. cbv beta. cbn [rest caps at0].
    rewrite ?app_nil_r, <- ?app_assoc. reflexivity.
Qed.

Lemma bits_step (j w n : nat) :
  bits (S j) (n / 2 ^ w) = bits j (n / 2 ^ S w) ++ [digit n w].
Proof.
  rewrite bits_snoc. f_equal.
  - rewrite Nat.Div0.div_div, Nat.pow_succ_r', (Nat.mul_comm 2). reflexivity.
  - unfold digit. rewrite !Nat.pow_0_r, !Nat.div_1_r. reflexivity.
Qed.

Lemma from_unary_step (j w n : nat) (s : str) :
  j + w = 9 -> absent pct s = true ->
  run [from_unary_set w; from_unary_clear w] (from_unary_state j n ([nl] ++ s))
  = from_unary_state (S j) n ([nl] ++ s).
Proof.
  intros E Hs. unfold from_unary_state.
  replace (10 - j) with (S w) by lia. replace (10 - S j) with w by lia.
  rewrite (bits_step j w n), (mod_pow2_succ n w).
  pose proof (Nat.mod_upper_bound n (2 ^ w) (Nat.pow_nonzero 2 w ltac:(lia))) as Hr.
  set (hi := bits j (n / 2 ^ S w)).
  assert (Lhi : length hi = 9 - w) by (unfold hi; rewrite bits_length; lia).
  assert (Hhi : forallb is_bit hi = true) by apply bits_are_bits.
  assert (Ahi : absent pct hi = true) by apply bits_no_pct.
  rewrite !run_cons. change (run [] ?x) with x.
  unfold digit. destruct (Nat.odd (n / 2 ^ w)).
  - rewrite (from_unary_set_hit w (n mod 2 ^ w) hi s Hhi Hs).
    rewrite (from_unary_clear_miss w hi (unary (n mod 2 ^ w) ++ [nl] ++ s) Lhi Hhi Ahi)
      by (rewrite !absent_app, unary_no_pct, Hs; reflexivity).
    rewrite <- !app_assoc. reflexivity.
  - change (0 + n mod 2 ^ w) with (n mod 2 ^ w).
    rewrite (from_unary_set_miss w (n mod 2 ^ w) hi s Hr Hhi Ahi Hs).
    rewrite <- !app_assoc.
    destruct (n mod 2 ^ w) as [|r].
    + change (unary 0 ++ [nl] ++ s) with (nl :: s).
      rewrite (from_unary_clear_hit w hi s nl Lhi Hhi eq_refl)
        by (rewrite absent_cons, Hs; reflexivity).
      reflexivity.
    + change (unary (S r) ++ [nl] ++ s) with (A :: unary r ++ [nl] ++ s).
      rewrite (from_unary_clear_hit w hi (unary r ++ [nl] ++ s) A Lhi Hhi eq_refl)
        by (rewrite absent_cons, !absent_app, unary_no_pct, Hs; reflexivity).
      reflexivity.
Qed.

Lemma from_unary_bits (k n : nat) (s : str) :
  k <= 10 -> absent pct s = true ->
  run (flat_map (fun bit => [from_unary_set bit; from_unary_clear bit]) (rev (seq 0 k)))
    (from_unary_state (10 - k) n ([nl] ++ s))
  = from_unary_state 10 n ([nl] ++ s).
Proof.
  intros Hk Hs. induction k as [|k IH].
  - reflexivity.
  - rewrite rev_seq_S. cbn [flat_map].
    rewrite run_app.
    rewrite (from_unary_step (10 - S k) k n s) by (lia || assumption).
    replace (S (10 - S k)) with (10 - k) by lia. apply IH. lia.
Qed.

Lemma from_unary_run (n : nat) (s : str) :
  n < 2 ^ 10 -> absent pct s = true ->
  run from_unary (header ++ unary n ++ [nl] ++ s) = header ++ i2s n ++ [nl] ++ s.
Proof.
  intros Hn Hs. rewrite (i2s_small n Hn).
  unfold from_unary. rewrite run_cons.
  rewrite (from_unary_first n s Hs).
  assert (E0 : header ++ esc "int" ++ unary n ++ [nl] ++ s
               = from_unary_state (10 - 10) n ([nl] ++ s)).
  { unfold from_unary_state. change (10 - (10 - 10)) with 10.
    rewrite (Nat.mod_small n (2 ^ 10) Hn). reflexivity. }
  rewrite E0, (from_unary_bits 10 n s) by (lia || exact Hs).
  unfold from_unary_state. change (10 - 10) with 0.
  rewrite Nat.pow_0_r, Nat.div_1_r, Nat.mod_1_r.
  rewrite <- !app_assoc. reflexivity.
Qed.


Lemma add_unary_run (x y : nat) (s : str) :
  absent pct s = true ->
  run add_unary (header ++ unary y ++ [nl] ++ unary x ++ [nl] ++ s)
  = header ++ unary (y + x) ++ [nl] ++ s.
Proof.
  intros Hs.
  change (run add_unary ?t) with (sub (pat 0 add_unary) (repl 0 add_unary) t).
  rewrite (sub_thread_hit_at _ _ (esc "%\n#stack:\n") _
             (header ++ unary y ++ [nl] ++ unary x ++ [nl]) s
             [(3, unary x); (2, unary y); (1, header)]);
    [| reflexivity | discriminate | exact Hs | app_norm | apply (add_unary_search x y s)].
  change (expand _ _) with (header ++ unary y ++ unary x ++ [nl]).
  rewrite unary_add, <- !app_assoc. reflexivity.
Qed.

(** C4.  On an active thread whose top of stack is the ten-bit literal of
    [n], for [n] below 2^10, [to_unary] followed by [from_unary] gives the
    same state back: [from_unary] after [to_unary] is the identity on the
    integer domain. *)
Theorem from_unary_to_unary_identity
    (n : nat) (stack : list str) (vars : list (str * str)) :
  n < 2 ^ 10 -> thread_ok stack vars = true ->
  run from_unary (run to_unary (active (i2s n :: stack) vars))
  = active (i2s n :: stack) vars.
Proof.
  intros Hn Hok. pose proof (body_no_pct stack vars Hok) as Hs.
  rewrite active_push, (to_unary_run n _ Hn Hs), (from_unary_run n _ Hn Hs).
  reflexivity.
Qed.

Lemma from_unary_to_unary_identity_witness :
  37 < 2 ^ 10 /\ thread_ok [esc "e4"] [(esc "turn", esc "w")] = true
  /\ run from_unary (run to_unary (active [i2s 37; esc "e4"] [(esc "turn", esc "w")]))
     = active [i2s 37; esc "e4"] [(esc "turn", esc "w")].
Proof.
  split; [apply Nat.ltb_lt; reflexivity|]. split; [reflexivity|].
  apply (from_unary_to_unary_identity 37 [esc "e4"] [(esc "turn", esc "w")]).
  - apply Nat.ltb_lt. reflexivity.
  - reflexivity.
Defined.

(** C2, as the code has it.  With the unary [x] pushed first and the unary
    [y] second, [add_unary] followed by [from_unary] leaves the ten-bit
    literal of [x + y] on top of the stack, as long as [x + y] is below
    2^10.  [from_unary] has no rule that wraps a longer run. *)
Theorem add_unary_from_unary_sum
    (x y : nat) (stack : list str) (vars : list (str * str)) :
  x + y < 2 ^ 10 -> thread_ok stack vars = true ->
  run from_unary (run add_unary (active (unary y :: unary x :: stack) vars))
  = active (i2s (x + y) :: stack) vars.
Proof.
  intros Hn Hok. pose proof (body_no_pct stack vars Hok) as Hs.
  rewrite active_push, body_push, (add_unary_run x y _ Hs).
  rewrite (Nat.add_comm y x), (from_unary_run (x + y) _ Hn Hs), active_push.
  reflexivity.
Qed.

Lemma add_unary_from_unary_sum_witness :
  220 + 80 < 2 ^ 10 /\ thread_ok [] [] = true
  /\ run from_unary (run add_unary (active [unary 80; unary 220] []))
     = active [i2s (220 + 80)] [].
Proof.
  split; [apply Nat.ltb_lt; reflexivity|]. split; [reflexivity|].
  apply (add_unary_from_unary_sum 220 80 [] []).
  - apply Nat.ltb_lt. reflexivity.
  - reflexivity.
Defined.

(** C2 as stated fails once the sum reaches 2^10: for 1023 and 1, both
    below 2^10, the result is not the literal of [(1023 + 1) mod 2^10] but
    ten ones followed by the one [A] that is left over. *)
Lemma add_unary_from_unary_no_wrap :
  1023 < 2 ^ 10 /\ 1 < 2 ^ 10
  /\ run from_unary (run add_unary (active [unary 1; unary 1023] []))
     = active [esc "int1111111111A"] []
  /\ run from_unary (run add_unary (active [unary 1; unary 1023] []))
     <> active [i2s ((1023 + 1) mod 2 ^ 10)] [].
Proof.
  assert (E : run from_unary (run add_unary (active [unary 1; unary 1023] []))
              = active [esc "int1111111111A"] []) by (vm_compute; reflexivity).
  split; [apply Nat.ltb_lt; vm_compute; reflexivity|].
  split; [apply Nat.ltb_lt; vm_compute; reflexivity|].
  split; [exact E|]. rewrite E. vm_compute. discriminate.
Qed.

(** ** The comparisons *)

(** C7 fails in the code on an empty top value.  With the unary 0 on top
    and the unary 1 below it, [greater_than] and [less_than] answer, but the
    second rule of [eq] wants a first line of at least one character: [eq]
    leaves the state as it is, so the top of the stack is the empty line,
    not [False]; and when another line follows, [eq] answers [False] but
    swallows that line. *)
Theorem eq_misses_empty_top_value :
  run eq (active [unary 0; unary 1] []) = active [unary 0; unary 1] []
  /\ run greater_than (active [unary 0; unary 1] []) = active [esc "False"] []
  /\ run less_than (active [unary 0; unary 1] []) = active [esc "True"] []
  /\ run eq (active [unary 0; unary 1] [(esc "foo", esc "bar")])
     = active [esc "False"] [].
Proof. repeat split. Qed.

(** ** The compiler *)

Lemma list_node_ind (P : node -> Prop) (Q : list node -> Prop) :
  (forall name args, P (Leaf name args)) ->
  (forall v l r,
     match l with Some x => Q x | None => True end ->
     match r with Some x => Q x | None => True end ->
     P (Branch v l r)) ->
  Q [] ->
  (forall x l, P x -> Q l -> Q (x :: l)) ->
  forall l : list node, Q l.
Proof.
  intros Hleaf Hbranch Hnil Hcons. induction l as [|x l IH]; [exact Hnil|].
  apply Hcons; [apply (node_list_ind P Q Hleaf Hbranch Hnil Hcons)|exact IH].
Qed.

Lemma linearize_node_branch (v : pyval) (l r : subtree) (n : nat) :
  linearize_node (Branch v l r) n =
  (c <- linearize_expr v ;;
   lo <- linearize_subtree l (S (S n)) ;;
   ro <- linearize_subtree r (snd lo) ;;
   Ok (c ++ [tag_op "cond" n] ++ fst lo ++
       match fst ro with
       | [] => [tag_op "reactivate" n]
       | _ :: _ =>
           [tag_op "pause" (S n); tag_op "reactivate" n] ++ fst ro ++
           [tag_op "reactivate" (S n)]
       end,
       snd ro)).
Proof.
  assert (E : forall (t : list node) (k : nat),
    (fix go (l0 : list node) (counter : nat) {struct l0} : result (list op * nat) :=
       match l0 with
       | [] => Ok ([], counter)
       | x :: l' =>
           r1 <- linearize_node x counter ;;
           r2 <- go l' (snd r1) ;;
           Ok (fst r1 ++ fst r2, snd r2)
       end) t k = linearize_list t k).
  { induction t as [|x t IH]; intros k; [reflexivity|].
    simpl. destruct (linearize_node x k) as [r1|e]; [|reflexivity].
    simpl. rewrite IH. reflexivity. }
  simpl. destruct (linearize_expr v) as [c|e]; [|reflexivity]. simpl.
  destruct l as [l|]; [|reflexivity]. simpl. rewrite E.
  destruct (linearize_list l (S (S n))) as [lo|e]; [|reflexivity]. simpl.
  destruct r as [r|]; [|reflexivity]. simpl. rewrite E. reflexivity.
Qed.

Lemma traverse_node_branch (v : pyval) (l r : list node) :
  traverse_node (Branch v (Some l) (Some r))
  = forallb traverse_node l && forallb traverse_node r.
Proof.
  assert (E : forall t : list node,
    (fix go (l0 : list node) : bool :=
       match l0 with
       | [] => true
       | x :: l' => traverse_node x && go l'
       end) t = forallb traverse_node t).
  { induction t as [|x t IH]; [reflexivity|]. simpl. rewrite IH. reflexivity. }
  simpl. rewrite !E. reflexivity.
Qed.

(** The linearizer dies on every incomplete tree. *)
Lemma linearize_incomplete (l : list node) :
  forall n, forallb traverse_node l = false -> exists e, linearize_list l n = Raise e.
Proof.
  apply (list_node_ind
    (fun nd => forall n, traverse_node nd = false -> exists e, linearize_node nd n = Raise e)
    (fun l => forall n, forallb traverse_node l = false ->
                        exists e, linearize_list l n = Raise e)).
  - intros name args n H. discriminate.
  - intros v lo ro IHl IHr n H. rewrite linearize_node_branch.
    destruct (linearize_expr v) as [c|e]; [|exists e; reflexivity]. simpl.
    destruct lo as [lo|]; [|exists TypeError; reflexivity].
    destruct (forallb traverse_node lo) eqn:El.
    + simpl. destruct (linearize_list lo (S (S n))) as [r1|e]; [|exists e; reflexivity].
      simpl. destruct ro as [ro|]; [|exists TypeError; reflexivity].
      rewrite traverse_node_branch, El in H. simpl in H.
      destruct (IHr (snd r1) H) as [e He]. simpl. rewrite He.
      exists e. reflexivity.
    + destruct (IHl (S (S n)) eq_refl) as [e He]. simpl. rewrite He.
      exists e. reflexivity.
  - intros n H. discriminate.
  - intros x t IHx IHt n H. simpl in H. simpl.
    destruct (traverse_node x) eqn:Ex.
    + destruct (linearize_node x n) as [r1|e]; [|exists e; reflexivity]. simpl.
      destruct (IHt (snd r1) H) as [e He]. rewrite He. exists e. reflexivity.
    + destruct (IHx n eq_refl) as [e He]. rewrite He. exists e. reflexivity.
Qed.

(** ** The ten runs of [trace] *)

Lemma again_bind (function : prog) (n : nat) : forall r,
  Nat.iter n (again function) r
  = (h <- r ;; Nat.iter n (again function) (Ok h)).
Proof.
  induction n as [|n IH]; intros r.
  - destruct r; reflexivity.
  - simpl. rewrite IH. destruct r; reflexivity.
Qed.

Lemma runs_again (function : prog) (n : nat) : forall h,
  runs n function h = Nat.iter n (again function) (Ok h).
Proof.
  induction n as [|n IH]; intros h; [reflexivity|].
  rewrite Nat.iter_succ_r. rewrite again_bind.
  simpl. destruct (exec function (rewind h)) as [h'|e]; [|reflexivity].
  simpl. apply IH.
Qed.

(** C1, as the code has it.  [trace] runs the traced program ten times,
    each run from [pointer = 0] on the tree the runs before it have left,
    and returns the tree as it then is: no run is skipped or added because
    the tree is or is not complete, and nothing checks the tree.  Ten runs
    complete the tree of up to nine nested tests, and not the tree of ten.
    When a branch still has a [None] child, compilation goes on to
    linearization, and it is the linearizer that dies there, on the [None]
    child or on an error before it. *)
Theorem trace_returns_unchecked_tree (function : prog) :
  trace function
  = (h <- Nat.iter 10 (again function) (Ok new_tree) ;; Ok (tree h))
  /\ (forall d, d < 10 ->
      exists t, trace (nested d Return) = Ok t /\ traverse (Some t) = true)
  /\ (exists t, trace (nested 10 Return) = Ok t /\ traverse (Some t) = false)
  /\ (forall t, trace function = Ok t -> traverse (Some t) = false ->
      exists e, linearize_tree t = Raise e /\ re_compile_linear function = Raise e).
Proof.
  split; [unfold trace; rewrite runs_again; reflexivity|].
  split.
  { intros d Hd.
    do 10 (destruct d as [|d]; [eexists; split; vm_compute; reflexivity|]). lia. }
  split; [eexists; split; vm_compute; reflexivity|].
  intros t Ht Hinc. unfold re_compile_linear. rewrite Ht. simpl.
  destruct (linearize_incomplete t 0 Hinc) as [e He].
  exists e. unfold linearize_tree. rewrite He. split; reflexivity.
Qed.

(** C1 as stated fails: nine nested tests are complete after the ten
    runs; for ten nested tests the ten runs leave the outermost branch with
    a [None] child, and [trace] still returns the tree; the abort comes
    from [linearize_tree]. *)
Lemma trace_nested_10 :
  (exists t, trace (nested 9 Return) = Ok t /\ traverse (Some t) = true)
  /\ (exists t v l, trace (nested 10 Return) = Ok t /\ t = [Branch v (Some l) None]
                  /\ traverse (Some t) = false
                  /\ linearize_tree t = Raise TypeError).
Proof.
  split.
  - eexists. split; vm_compute; reflexivity.
  - eexists. eexists. eexists. split; [vm_compute; reflexivity|].
    split; [reflexivity|]. split; vm_compute; reflexivity.
Qed.

Lemma uid_inj (i j : nat) : uid i = uid j -> i = j.
Proof.
  unfold uid. intros H. simpl in H. injection H as H.
  assert (E : Some (Nat.to_uint i) = Some (Nat.to_uint j)).
  { rewrite <- !NilEmpty.usu, H. reflexivity. }
  injection E as E. apply (f_equal Nat.of_uint) in E.
  rewrite !Unsigned.of_to in E. exact E.
Qed.

(** ** Labels *)

Lemma branches_node_branch (v : pyval) (lft rgt : option (list node)) :
  branches_node (Branch v lft rgt)
  = 1 + match lft with Some l => branches l | None => 0 end
      + match rgt with Some r => branches r | None => 0 end.
Proof.
  assert (E : forall l,
             (fix go (l : list node) : nat :=
                match l with
                | [] => 0
                | x :: l' => branches_node x + go l'
                end) l = branches l).
  { induction l as [|x l IH]; [reflexivity|]. simpl. rewrite IH. reflexivity. }
  simpl. destruct lft, rgt; rewrite ?E; reflexivity.
Qed.

Lemma own_tags_node_branch (v : pyval) (lft rgt : option (list node)) :
  own_tags_node (Branch v lft rgt)
  = match lft with Some l => own_tags l | None => true end
    && match rgt with Some r => own_tags r | None => true end.
Proof.
  assert (E : forall l,
             (fix go (l : list node) : bool :=
                match l with
                | [] => true
                | x :: l' => own_tags_node x && go l'
                end) l = own_tags l).
  { induction l as [|x l IH]; [reflexivity|]. simpl. rewrite IH. reflexivity. }
  simpl. destruct lft, rgt; rewrite ?E; reflexivity.
Qed.

(** The counter moves on by two for every branch node, taken in the order
    the nodes are written. *)
Lemma linearize_counter_law (l : list node) :
  forall n r, linearize_list l n = Ok r -> snd r = n + 2 * branches l.
Proof.
  apply (list_node_ind
    (fun nd => forall n r, linearize_node nd n = Ok r -> snd r = n + 2 * branches_node nd)
    (fun l => forall n r, linearize_list l n = Ok r -> snd r = n + 2 * branches l)).
  - intros name args n r H. simpl in H.
    destruct (linearize_leaf name args); [|discriminate]. injection H as <-.
    simpl. lia.
  - intros v lo ro IHl IHr n r H. rewrite linearize_node_branch in H.
    destruct (linearize_expr v); [|discriminate]. simpl in H.
    destruct lo as [lo|]; [|discriminate]. simpl in H.
    destruct (linearize_list lo (S (S n))) as [r1|] eqn:E1; [|discriminate]. simpl in H.
    destruct ro as [ro|]; [|discriminate]. simpl in H.
    destruct (linearize_list ro (snd r1)) as [r2|] eqn:E2; [|discriminate]. simpl in H.
    injection H as <-. rewrite branches_node_branch. cbn [snd].
    rewrite (IHr _ _ E2), (IHl _ _ E1). lia.
  - intros n r H. injection H as <-. simpl. lia.
  - intros x t IHx IHt n r H. simpl in H.
    destruct (linearize_node x n) as [r1|] eqn:E1; [|discriminate]. simpl in H.
    destruct (linearize_list t (snd r1)) as [r2|] eqn:E2; [|discriminate]. simpl in H.
    injection H as <-. cbn [snd branches].
    rewrite (IHt _ _ E2), (IHx _ _ E1). lia.
Qed.

Lemma generated_labels_app (nm : string) (c1 c2 : list op) :
  generated_labels nm (c1 ++ c2) = generated_labels nm c1 ++ generated_labels nm c2.
Proof. apply flat_map_app. Qed.

Lemma generated_labels_cons (nm : string) (o : op) (code : list op) :
  generated_labels nm (o :: code) = generated_labels nm [o] ++ generated_labels nm code.
Proof. apply (generated_labels_app nm [o] code). Qed.

Lemma is_ctl_cases (nm : string) :
  is_ctl nm = true -> nm = "cond" \/ nm = "pause" \/ nm = "reactivate".
Proof.
  unfold is_ctl. intros H.
  apply orb_true_iff in H. destruct H as [H|H].
  - apply orb_true_iff in H. destruct H as [H|H]; apply String.eqb_eq in H; auto.
  - apply String.eqb_eq in H. auto.
Qed.

Lemma generated_uid (k : nat) : generated (VStr (uid k)) = true.
Proof. reflexivity. Qed.

Ltac split_match H :=
  repeat match type of H with
         | context [match ?x with _ => _ end] =>
             destruct x eqn:?; try discriminate
         end.

(** The lowering of an expression holds no [cond], [pause] or
    [reactivate]. *)
Lemma expr_no_labels (nm : string) (v : pyval) :
  is_ctl nm = true ->
  forall c, linearize_expr v = Ok c -> generated_labels nm c = [].
Proof.
  intros Hnm.
  assert (Hitems : forall items,
            Forall (fun v => forall c, linearize_expr v = Ok c ->
                                       generated_labels nm c = []) items ->
            forall c, linearize_expr (VTuple items) = Ok c -> generated_labels nm c = []).
  { intros items Hf c H.
    destruct items as [|o args]; [discriminate|].
    destruct o as [|o| | | | |]; try discriminate.
    apply Forall_inv_tail in Hf.
    assert (Ha : forall a rest, args = a :: rest ->
                 forall c, linearize_expr a = Ok c -> generated_labels nm c = []).
    { intros a rest E. subst args. exact (Forall_inv Hf). }
    assert (Hb : forall a b rest, args = a :: b :: rest ->
                 forall c, linearize_expr b = Ok c -> generated_labels nm c = []).
    { intros a b rest E. subst args. exact (Forall_inv (Forall_inv_tail Hf)). }
    clear Hf.
    destruct (is_ctl_cases nm Hnm) as [->|[->| ->]];
    destruct args as [|a [|b rest]];
      cbn [linearize_expr] in H; cbv zeta in H; unfold bind, item in H;
      split_match H;
      try (injection H as <-);
      do 2 (rewrite ?generated_labels_app;
            repeat match goal with
                   | E : linearize_expr ?a = Ok ?c |- context [generated_labels _ ?c] =>
                       first [ rewrite (Ha _ _ eq_refl c E)
                             | rewrite (Hb _ _ _ eq_refl c E) ]
                   end;
            simpl);
      repeat match goal with
             | |- context [String.eqb ?s _] =>
                 is_var s; destruct (String.eqb s _)
             end;
      try reflexivity. }
  induction v using pyval_items_ind; intros c Hc; try discriminate.
  - simpl in Hc. injection Hc as <-.
    destruct (is_ctl_cases nm Hnm) as [->|[->| ->]]; reflexivity.
  - simpl in Hc. injection Hc as <-.
    destruct (is_ctl_cases nm Hnm) as [->|[->| ->]]; reflexivity.
  - apply (Hitems items); assumption.
  - apply (Hitems items); assumption.
  - destruct v1; try discriminate.
    + apply IHv1. exact Hc.
    + apply IHv1. exact Hc.
Qed.

Lemma filter_generated_none (args : list pyval) :
  forallb (fun v => negb (generated v)) args = true -> filter generated args = [].
Proof.
  induction args as [|a args IH]; [reflexivity|]. simpl. intros H.
  apply andb_true_iff in H. destruct H as [Ha Hr].
  destruct (generated a); [discriminate|]. apply IH, Hr.
Qed.

(** A leaf whose labels are the program's own adds no generated label. *)
Lemma leaf_no_labels (nm name : string) (args : list pyval) (c : list op) :
  is_ctl nm = true -> own_tags_node (Leaf name args) = true ->
  linearize_leaf name args = Ok c -> generated_labels nm c = [].
Proof.
  intros Hnm Hown H. unfold linearize_leaf in H.
  destruct (String.eqb name "assign") eqn:E1.
  { destruct args as [|key [|value [|x args]]]; try discriminate.
    destruct value as [| | | | | |v kind];
      try (injection H as <-;
           destruct (is_ctl_cases nm Hnm) as [->|[->| ->]]; reflexivity).
    destruct (linearize_expr v) as [c0|] eqn:E; [|discriminate]. simpl in H.
    injection H as <-. rewrite generated_labels_app, (expr_no_labels nm v Hnm c0 E).
    destruct (is_ctl_cases nm Hnm) as [->|[->| ->]]; reflexivity. }
  destruct (String.eqb name "lookup") eqn:E2.
  { destruct args as [|key [|x args]]; try discriminate. injection H as <-.
    destruct (is_ctl_cases nm Hnm) as [->|[->| ->]]; reflexivity. }
  destruct (String.eqb name "reactivate") eqn:E3.
  { destruct args as [|tag [|x args]]; try discriminate. injection H as <-.
    apply String.eqb_eq in E3. subst name. simpl in Hown.
    destruct (generated tag) eqn:Et; [discriminate|].
    destruct (is_ctl_cases nm Hnm) as [->|[->| ->]];
      cbn [generated_labels flat_map fst snd filter app]; rewrite ?Et; reflexivity. }
  destruct (String.eqb name "fork_bool") eqn:E4.
  { destruct args as [|tag [|x args]]; try discriminate. injection H as <-.
    destruct (is_ctl_cases nm Hnm) as [->|[->| ->]]; reflexivity. }
  destruct (String.eqb name "cond") eqn:E5.
  { destruct args as [|e [|tag [|x args]]]; try discriminate.
    destruct (linearize_expr e) as [c0|] eqn:E; [|discriminate]. simpl in H.
    injection H as <-. rewrite generated_labels_app, (expr_no_labels nm e Hnm c0 E).
    apply String.eqb_eq in E5. subst name. simpl in Hown.
    destruct (generated e); [discriminate|].
    destruct (generated tag) eqn:Et; [discriminate|].
    destruct (is_ctl_cases nm Hnm) as [->|[->| ->]];
      cbn [generated_labels flat_map fst snd filter app]; rewrite ?Et; reflexivity. }
  destruct (String.eqb name "fork_with_new_var") eqn:E6.
  { destruct args as [|tag [|vars [|x args]]]; try discriminate. injection H as <-.
    destruct (is_ctl_cases nm Hnm) as [->|[->| ->]]; reflexivity. }
  destruct (in_list name passthrough) eqn:E7.
  { injection H as <-. cbn [generated_labels flat_map fst snd app].
    destruct (String.eqb name nm) eqn:En; [|reflexivity].
    apply String.eqb_eq in En. subst nm.
    cbn [own_tags_node] in Hown. rewrite Hnm in Hown. simpl in Hown.
    rewrite (filter_generated_none args Hown). reflexivity. }
  destruct (String.eqb name "nop"); [|discriminate].
  injection H as <-. reflexivity.
Qed.

(** The generated labels of the closing part of a branch. *)
Lemma closing_labels (nm : string) (n : nat) (code : list op) :
  is_ctl nm = true ->
  generated_labels nm
    (match code with
     | [] => [tag_op "reactivate" n]
     | _ :: _ =>
         [tag_op "pause" (S n); tag_op "reactivate" n] ++ code ++
         [tag_op "reactivate" (S n)]
     end)
  = (if String.eqb nm "pause"
     then match code with [] => [] | _ :: _ => [VStr (uid (S n))] end else [])
    ++ (if String.eqb nm "reactivate" then [VStr (uid n)] else [])
    ++ generated_labels nm code
    ++ (if String.eqb nm "reactivate"
        then match code with [] => [] | _ :: _ => [VStr (uid (S n))] end else []).
Proof.
  intros Hnm. destruct code as [|o code].
  - destruct (is_ctl_cases nm Hnm) as [->|[->| ->]]; reflexivity.
  - set (code' := o :: code).
    change ([tag_op "pause" (S n); tag_op "reactivate" n] ++ code' ++
            [tag_op "reactivate" (S n)])
      with ([tag_op "pause" (S n)] ++ [tag_op "reactivate" n] ++ code' ++
            [tag_op "reactivate" (S n)]).
    rewrite !generated_labels_app.
    destruct (is_ctl_cases nm Hnm) as [->|[->| ->]];
      cbn [generated_labels flat_map tag_op fst snd filter String.eqb Ascii.eqb Bool.eqb app];
      rewrite ?generated_uid; cbn [app]; rewrite ?app_nil_r; reflexivity.
Qed.

Lemma opening_labels (nm : string) (n : nat) :
  generated_labels nm [tag_op "cond" n]
  = if String.eqb nm "cond" then [VStr (uid n)] else [].
Proof.
  cbn [generated_labels flat_map tag_op fst snd filter app].
  rewrite generated_uid, (String.eqb_sym "cond" nm), app_nil_r.
  reflexivity.
Qed.

Lemma apart_app_r (A B C : list pyval) : apart A B -> apart A C -> apart A (B ++ C).
Proof.
  intros H1 H2 v Ha Hbc. apply in_app_or in Hbc. destruct Hbc; [eapply H1|eapply H2]; eauto.
Qed.

Lemma apart_nil_r (A : list pyval) : apart A [].
Proof. intros v _ []. Qed.

Lemma VStr_inj (s t : string) : VStr s = VStr t -> s = t.
Proof. intros H. injection H as H. exact H. Qed.

Lemma apart_numbered (a b c d : nat) (A B : list pyval) :
  Forall (numbered a b) A -> Forall (numbered c d) B -> b <= c \/ d <= a -> apart A B.
Proof.
  intros HA HB Hord v Ha Hb.
  rewrite Forall_forall in HA, HB.
  destruct (HA v Ha) as [k [E1 R1]]. destruct (HB v Hb) as [k' [E2 R2]].
  subst v. apply (VStr_inj (uid k) (uid k')) in E2. apply uid_inj in E2. lia.
Qed.

Lemma nodup_app (A B : list pyval) : NoDup A -> NoDup B -> apart A B -> NoDup (A ++ B).
Proof.
  induction A as [|x A IH]; intros HA HB Hap; [exact HB|].
  simpl. inversion HA as [|? ? Hx HA']; subst. constructor.
  - intros Hin. apply in_app_or in Hin. destruct Hin as [Hin|Hin]; [exact (Hx Hin)|].
    apply (Hap x); [left; reflexivity|exact Hin].
  - apply IH; [exact HA'|exact HB|]. intros v Hv. apply Hap. right. exact Hv.
Qed.

Lemma numbered_wider (a b a' b' : nat) (A : list pyval) :
  Forall (numbered a b) A -> a' <= a -> b <= b' -> Forall (numbered a' b') A.
Proof.
  intros H Ha Hb. eapply Forall_impl; [|exact H].
  intros v [k [E R]]. exists k. split; [exact E|lia].
Qed.

Lemma numbered_one (n : nat) : Forall (numbered n (S n)) [VStr (uid n)].
Proof. constructor; [|constructor]. exists n. split; [reflexivity|lia]. Qed.

Lemma nodup_one (v : pyval) : NoDup [v].
Proof. constructor; [intros []|constructor]. Qed.

(** The generated labels of a lowered list of nodes are numbered from the
    counter the list starts with up to the counter it ends with, and no
    label comes twice. *)
Lemma linearize_labels (nm : string) (l : list node) :
  is_ctl nm = true ->
  forall n r, own_tags l = true -> linearize_list l n = Ok r ->
  Forall (numbered n (snd r)) (generated_labels nm (fst r))
  /\ NoDup (generated_labels nm (fst r)).
Proof.
  intros Hnm. revert l.
  apply (list_node_ind
    (fun nd => forall n r, own_tags_node nd = true -> linearize_node nd n = Ok r ->
       Forall (numbered n (snd r)) (generated_labels nm (fst r))
       /\ NoDup (generated_labels nm (fst r)))
    (fun l => forall n r, own_tags l = true -> linearize_list l n = Ok r ->
       Forall (numbered n (snd r)) (generated_labels nm (fst r))
       /\ NoDup (generated_labels nm (fst r)))).
  - intros name args n r Hown H. simpl in H.
    destruct (linearize_leaf name args) as [c|] eqn:E; [|discriminate].
    injection H as <-. cbn [fst snd].
    rewrite (leaf_no_labels nm name args c Hnm Hown E). split; constructor.
  - intros v lo ro IHl IHr n r Hown H. rewrite linearize_node_branch in H.
    destruct (linearize_expr v) as [c|] eqn:Ec; [|discriminate].
    cbn [bind linearize_subtree] in H.
    destruct lo as [lo|]; cbn [bind linearize_subtree] in H; [|discriminate].
    destruct (linearize_list lo (S (S n))) as [r1|] eqn:E1; [|discriminate].
    cbn [bind linearize_subtree] in H.
    destruct ro as [ro|]; cbn [bind linearize_subtree] in H; [|discriminate].
    destruct (linearize_list ro (snd r1)) as [r2|] eqn:E2; [|discriminate].
    cbn [bind linearize_subtree] in H.
    injection H as <-. cbn [fst snd].
    rewrite own_tags_node_branch in Hown. apply andb_true_iff in Hown.
    destruct Hown as [Hol Hor].
    destruct (IHl _ _ Hol E1) as [Fl Nl]. destruct (IHr _ _ Hor E2) as [Fr Nr].
    pose proof (linearize_counter_law lo _ _ E1) as C1.
    pose proof (linearize_counter_law ro _ _ E2) as C2.
    rewrite generated_labels_app, (expr_no_labels nm v Hnm c Ec).
    rewrite (generated_labels_cons nm (tag_op "cond" n)), opening_labels.
    rewrite generated_labels_app.
    change (generated_labels nm
              match fst r2 with
              | [] => [tag_op "reactivate" n]
              | _ :: _ => tag_op "pause" (S n) :: tag_op "reactivate" n
                          :: fst r2 ++ [tag_op "reactivate" (S n)]
              end)
      with (generated_labels nm
              match fst r2 with
              | [] => [tag_op "reactivate" n]
              | _ :: _ => [tag_op "pause" (S n); tag_op "reactivate" n] ++ fst r2
                          ++ [tag_op "reactivate" (S n)]
              end).
    rewrite (closing_labels nm n (fst r2) Hnm).
    set (A := generated_labels nm (fst r1)) in *.
    set (B := generated_labels nm (fst r2)) in *.
    assert (F1 : Forall (numbered n (S n)) [VStr (uid n)]) by apply numbered_one.
    assert (F2 : Forall (numbered (S n) (S (S n)))
                   (match fst r2 with [] => [] | _ :: _ => [VStr (uid (S n))] end)).
    { destruct (fst r2); [constructor|apply numbered_one]. }
    assert (N2 : NoDup (match fst r2 with [] => [] | _ :: _ => [VStr (uid (S n))] end)).
    { destruct (fst r2); [constructor|apply nodup_one]. }
    set (P := match fst r2 with [] => [] | _ :: _ => [VStr (uid (S n))] end) in *.
    destruct (is_ctl_cases nm Hnm) as [E|[E|E]]; rewrite E;
      cbn [String.eqb Ascii.eqb Bool.eqb app]; rewrite ?app_nil_r.
    + split.
      * constructor; [exists n; split; [reflexivity|lia]|].
        apply Forall_app. split; eapply numbered_wider; eauto; lia.
      * change (NoDup ([VStr (uid n)] ++ A ++ B)).
        apply nodup_app; [apply nodup_one| |].
        -- apply nodup_app; [exact Nl|exact Nr|].
           eapply apart_numbered; eauto.
        -- apply apart_app_r; eapply apart_numbered; eauto; lia.
    + split.
      * apply Forall_app. split; [eapply numbered_wider; eauto; lia|].
        apply Forall_app. split; eapply numbered_wider; eauto; lia.
      * apply nodup_app; [exact Nl| |].
        -- apply nodup_app; [exact N2|exact Nr|]. eapply apart_numbered; eauto; lia.
        -- apply apart_app_r; eapply apart_numbered; eauto; lia.
    + split.
      * apply Forall_app. split; [eapply numbered_wider; eauto; lia|].
        constructor; [exists n; split; [reflexivity|lia]|].
        apply Forall_app. split; eapply numbered_wider; eauto; lia.
      * apply nodup_app; [exact Nl| |].
        -- change (NoDup ([VStr (uid n)] ++ B ++ P)).
           apply nodup_app; [apply nodup_one| |].
           ++ apply nodup_app; [exact Nr|exact N2|]. eapply apart_numbered; eauto; lia.
           ++ apply apart_app_r; eapply apart_numbered; eauto; lia.
        -- change (apart A ([VStr (uid n)] ++ B ++ P)).
           apply apart_app_r; [eapply apart_numbered; eauto; lia|].
           apply apart_app_r; eapply apart_numbered; eauto; lia.
  - intros n r _ H. injection H as <-. split; constructor.
  - intros x t IHx IHt n r Hown H. simpl in H.
    destruct (linearize_node x n) as [r1|] eqn:E1; [|discriminate]. simpl in H.
    destruct (linearize_list t (snd r1)) as [r2|] eqn:E2; [|discriminate]. simpl in H.
    injection H as <-. cbn [fst snd].
    simpl in Hown. apply andb_true_iff in Hown. destruct Hown as [Hox Hot].
    destruct (IHx _ _ Hox E1) as [Fx Nx]. destruct (IHt _ _ Hot E2) as [Ft Nt].
    assert (C1 : n <= snd r1).
    { assert (E : linearize_list [x] n = Ok (fst r1 ++ [], snd r1)).
      { simpl. rewrite E1. reflexivity. }
      pose proof (linearize_counter_law [x] _ _ E) as C0. cbn [snd] in C0. lia. }
    pose proof (linearize_counter_law t _ _ E2) as C2.
    rewrite generated_labels_app. split.
    + apply Forall_app. split; eapply numbered_wider; eauto; lia.
    + apply nodup_app; [exact Nx|exact Nt|]. eapply apart_numbered; eauto.
Qed.

Lemma labels_from_S (n b : nat) :
  map (fun k => VStr (uid (n + 2 * k))) (seq 0 (S b))
  = VStr (uid n) :: map (fun k => VStr (uid (S (S n) + 2 * k))) (seq 0 b).
Proof.
  cbn [seq map]. rewrite Nat.mul_0_r, Nat.add_0_r. f_equal.
  rewrite <- seq_shift, map_map. apply map_ext. intros k. do 2 f_equal. lia.
Qed.

Lemma labels_from_app (b1 b2 : nat) : forall n,
  map (fun k => VStr (uid (n + 2 * k))) (seq 0 (b1 + b2))
  = map (fun k => VStr (uid (n + 2 * k))) (seq 0 b1)
    ++ map (fun k => VStr (uid (n + 2 * b1 + 2 * k))) (seq 0 b2).
Proof.
  induction b1 as [|b1 IH]; intros n.
  - cbn [Nat.add seq map app]. apply map_ext. intros k. do 2 f_equal. lia.
  - change (S b1 + b2) with (S (b1 + b2)). rewrite !labels_from_S, IH.
    cbn [app]. do 2 f_equal. apply map_ext. intros k. do 2 f_equal. lia.
Qed.

(** The [cond] labels of a lowered list of nodes are [UIDn], [UID(n+2)],
    [UID(n+4)], ..., one for each branch node, in the order of the stream. *)
Lemma linearize_cond_labels (l : list node) :
  forall n r, own_tags l = true -> linearize_list l n = Ok r ->
  generated_labels "cond" (fst r)
  = map (fun k => VStr (uid (n + 2 * k))) (seq 0 (branches l)).
Proof.
  apply (list_node_ind
    (fun nd => forall n r, own_tags_node nd = true -> linearize_node nd n = Ok r ->
       generated_labels "cond" (fst r)
       = map (fun k => VStr (uid (n + 2 * k))) (seq 0 (branches_node nd)))
    (fun l => forall n r, own_tags l = true -> linearize_list l n = Ok r ->
       generated_labels "cond" (fst r)
       = map (fun k => VStr (uid (n + 2 * k))) (seq 0 (branches l)))).
  - intros name args n r Hown H. simpl in H.
    destruct (linearize_leaf name args) as [c|] eqn:E; [|discriminate].
    injection H as <-. cbn [fst snd].
    rewrite (leaf_no_labels "cond" name args c eq_refl Hown E). reflexivity.
  - intros v lo ro IHl IHr n r Hown H. rewrite linearize_node_branch in H.
    destruct (linearize_expr v) as [c|] eqn:Ec; [|discriminate].
    cbn [bind linearize_subtree] in H.
    destruct lo as [lo|]; cbn [bind linearize_subtree] in H; [|discriminate].
    destruct (linearize_list lo (S (S n))) as [r1|] eqn:E1; [|discriminate].
    cbn [bind linearize_subtree] in H.
    destruct ro as [ro|]; cbn [bind linearize_subtree] in H; [|discriminate].
    destruct (linearize_list ro (snd r1)) as [r2|] eqn:E2; [|discriminate].
    cbn [bind linearize_subtree] in H.
    injection H as <-. cbn [fst snd].
    rewrite own_tags_node_branch in Hown. apply andb_true_iff in Hown.
    destruct Hown as [Hol Hor].
    pose proof (linearize_counter_law lo _ _ E1) as C1.
    rewrite generated_labels_app, (expr_no_labels "cond" v eq_refl c Ec).
    rewrite (generated_labels_cons "cond" (tag_op "cond" n)), opening_labels.
    rewrite generated_labels_app.
    change (generated_labels "cond"
              match fst r2 with
              | [] => [tag_op "reactivate" n]
              | _ :: _ => tag_op "pause" (S n) :: tag_op "reactivate" n
                          :: fst r2 ++ [tag_op "reactivate" (S n)]
              end)
      with (generated_labels "cond"
              match fst r2 with
              | [] => [tag_op "reactivate" n]
              | _ :: _ => [tag_op "pause" (S n); tag_op "reactivate" n] ++ fst r2
                          ++ [tag_op "reactivate" (S n)]
              end).
    rewrite (closing_labels "cond" n (fst r2) eq_refl).
    cbn [String.eqb Ascii.eqb Bool.eqb app]. rewrite app_nil_r.
    rewrite (IHl _ _ Hol E1), (IHr _ _ Hor E2), C1.
    rewrite branches_node_branch.
    change (1 + branches lo + branches ro) with (S (branches lo + branches ro)).
    rewrite labels_from_S, labels_from_app. reflexivity.
  - intros n r _ H. injection H as <-. reflexivity.
  - intros x t IHx IHt n r Hown H. simpl in H.
    destruct (linearize_node x n) as [r1|] eqn:E1; [|discriminate]. simpl in H.
    destruct (linearize_list t (snd r1)) as [r2|] eqn:E2; [|discriminate]. simpl in H.
    injection H as <-. cbn [fst snd].
    simpl in Hown. apply andb_true_iff in Hown. destruct Hown as [Hox Hot].
    assert (C1 : snd r1 = n + 2 * branches_node x).
    { assert (E : linearize_list [x] n = Ok (fst r1 ++ [], snd r1)).
      { simpl. rewrite E1. reflexivity. }
      pose proof (linearize_counter_law [x] _ _ E) as C0. cbn [snd branches] in C0.
      lia. }
    rewrite generated_labels_app, (IHx _ _ Hox E1), (IHt _ _ Hot E2), C1.
    cbn [branches]. rewrite labels_from_app. reflexivity.
Qed.

Lemma numbered_above (a b j : nat) (L : list pyval) :
  Forall (numbered a b) L -> j < a -> ~ In (VStr (uid j)) L.
Proof.
  intros F Hj Hin. rewrite Forall_forall in F.
  destruct (F _ Hin) as [k [E R]].
  apply (VStr_inj (uid j) (uid k)) in E. apply uid_inj in E. lia.
Qed.


(** C6, as the code has it.  For equality, inequality, the ordered
    comparisons, boolean and/or, string concatenation and subtraction the
    code of the right operand comes first and the code of the left operand
    second; for addition the left operand comes first. *)
Theorem binary_lowering_order (o kind : string) (a b : pyval) (ca cb : list op) :
  linearize_expr a = Ok ca -> linearize_expr b = Ok cb ->
  (forall name, remap o = Some name ->
     linearize_expr (binop o a b kind) = Ok (cb ++ ca ++ [op0 name]))
  /\ (forall name, remap_cmp o = Some name ->
     linearize_expr (binop o a b kind)
     = Ok (cb ++ [op0 "to_unary"] ++ ca ++ [op0 "to_unary"] ++ [op0 name]))
  /\ (o = "-" ->
     linearize_expr (binop o a b kind) = Ok (cb ++ ca ++ [op0 "binary_subtract"]))
  /\ (o = "+" ->
     linearize_expr (binop o a b kind) = Ok (ca ++ cb ++ [op0 "binary_add"])).
Proof.
  intros Ha Hb. unfold binop. repeat split.
  - intros name H. simpl. rewrite H, Ha, Hb. reflexivity.
  - intros name H. simpl. rewrite H, Ha, Hb.
    destruct (remap o) eqn:E; [|reflexivity].
    exfalso. unfold remap, remap_cmp in *.
    repeat match type of E with
           | (if String.eqb o ?s then _ else _) = _ =>
               destruct (String.eqb_spec o s); [subst o; simpl in H; discriminate|]
           end.
    discriminate.
  - intros ->. simpl. rewrite Ha, Hb. reflexivity.
  - intros ->. simpl. rewrite Ha, Hb. reflexivity.
Qed.

(** C6 as stated fails on addition: the left operand is lowered first. *)
Lemma addition_lowers_left_operand_first :
  linearize_expr (binop "+" (lookup_of "a") (lookup_of "b") "int")
  = Ok [("lookup", [VStr "a"]); ("lookup", [VStr "b"]); op0 "binary_add"]
  /\ linearize_expr (binop "+" (lookup_of "a") (lookup_of "b") "int")
     <> Ok ([("lookup", [VStr "b"])] ++ [("lookup", [VStr "a"])] ++ [op0 "binary_add"]).
Proof. split; [reflexivity|]. simpl. discriminate. Qed.

Lemma trace_returns_unchecked_tree_witness :
  exists t, trace (nested 10 Return) = Ok t /\ traverse (Some t) = false
            /\ exists e, linearize_tree t = Raise e
                         /\ re_compile_linear (nested 10 Return) = Raise e.
Proof.
  eexists. split; [vm_compute; reflexivity|]. split; [vm_compute; reflexivity|].
  apply (proj2 (proj2 (proj2 (trace_returns_unchecked_tree (nested 10 Return)))));
    vm_compute; reflexivity.
Defined.


Lemma binary_lowering_order_witness :
  linearize_expr (lookup_of "a") = Ok [("lookup", [VStr "a"])]
  /\ linearize_expr (VInt 1) = Ok [("push", [VInt 1])]
  /\ linearize_expr (binop "-" (lookup_of "a") (VInt 1) "int")
     = Ok ([("push", [VInt 1])] ++ [("lookup", [VStr "a"])] ++ [op0 "binary_subtract"]).
Proof.
  split; [reflexivity|]. split; [reflexivity|].
  apply (proj1 (proj2 (proj2 (binary_lowering_order "-" "int" (lookup_of "a") (VInt 1)
                                [("lookup", [VStr "a"])] [("push", [VInt 1])]
                                eq_refl eq_refl)))).
  reflexivity.
Defined.

(** ** Thread-local rules *)

Lemma walk_le (r : regex) : forall need n, walk need r = Some n -> n <= need.
Proof.
  induction r; intros need n H; simpl in H; try discriminate.
  - injection H as <-. lia.
  - destruct (Ascii.eqb c pct).
    + destruct need; [discriminate|]. injection H as <-. lia.
    + injection H as <-. lia.
  - destruct (in_cls neg cs pct); [discriminate|]. injection H as <-. lia.
  - destruct (walk need r1) as [n1|] eqn:E1; [|discriminate].
    pose proof (IHr1 _ _ E1). pose proof (IHr2 _ _ H). lia.
  - destruct (walk need r1) as [x|] eqn:E1; [|discriminate].
    destruct (walk need r2) as [y|] eqn:E2; [|discriminate].
    destruct (Nat.eqb x y); [|discriminate]. injection H as <-. apply (IHr1 _ _ E1).
  - destruct need; [|discriminate].
    destruct (walk 0 r) as [[|k]|]; try discriminate. injection H as <-. lia.
  - apply (IHr _ _ H).
Qed.

Section Calls.

Variable Q : option answer -> Prop.
Hypothesis Q_none : Q None.

Lemma orelse_calls (x y : option answer) : Q x -> Q y -> Q (orelse x y).
Proof. destruct x; simpl; auto. Qed.

(** The rounds of a repetition, for a relation [R] between the state
    before, the text read and the state after that holds of no round and
    of two runs one after the other. *)
Lemma star_loop_calls (R : str -> mstate -> mstate -> Prop)
    (step : cont -> mstate -> option answer) :
  (forall st, R [] st st) ->
  (forall w1 w2 st st1 st2, R w1 st st1 -> R w2 st1 st2 -> R (w1 ++ w2) st st2) ->
  (forall k st, (forall w st', R w st st' -> Q (k w st')) -> Q (step k st)) ->
  forall fuel k st,
    (forall w st', R w st st' -> Q (k w st')) ->
    Q (star_loop step fuel k st).
Proof.
  intros Hrefl Htrans Hstep. induction fuel as [|fuel IH]; intros k st Hk.
  - simpl. apply Hk. apply Hrefl.
  - simpl. apply orelse_calls.
    + apply Hstep. intros w st' Hw. destruct (is_nil w) eqn:E; [exact Q_none|].
      apply IH. intros w2 st2 H2. apply Hk. eapply Htrans; eassumption.
    + apply Hk. apply Hrefl.
Qed.

(** Every way a pattern hands to its continuation has read a prefix of
    the text ahead. *)
Lemma m_calls (r : regex) : forall k st,
  (forall w st', rest st = w ++ rest st' -> Q (k w st')) -> Q (m r k st).
Proof.
  induction r; intros k st Hk.
  - simpl. apply Hk. reflexivity.
  - simpl. destruct (rest st) as [|x s'] eqn:E; [exact Q_none|].
    destruct (Ascii.eqb x c); [|exact Q_none]. apply Hk. reflexivity.
  - simpl. destruct (rest st) as [|x s'] eqn:E; [exact Q_none|].
    destruct (in_cls neg cs x); [|exact Q_none]. apply Hk. reflexivity.
  - rewrite m_seq. apply IHr1. intros w1 st1 H1. apply IHr2. intros w2 st2 H2.
    apply Hk. rewrite H1, H2. apply app_assoc.
  - simpl. apply orelse_calls; [apply IHr1|apply IHr2]; exact Hk.
  - simpl.
    apply (star_loop_calls (fun w st st' => rest st = w ++ rest st')).
    + reflexivity.
    + intros w1 w2 st0 st1 st2 H1 H2. rewrite H1, H2. apply app_assoc.
    + intros k0 st0 H0. apply IHr. exact H0.
    + exact Hk.
  - rewrite m_grp. apply IHr. intros w st' H. apply Hk. exact H.
  - simpl. destruct (group i (caps st)) as [w|]; [|exact Q_none].
    destruct (strip_prefix w (rest st)) as [s'|] eqn:E; [|exact Q_none].
    apply Hk. simpl. apply strip_prefix_some. exact E.
  - simpl. destruct (at0 st); [|exact Q_none]. apply Hk. reflexivity.
  - simpl. destruct (rest st) as [|x [|y s']] eqn:E; try exact Q_none.
    + apply Hk. rewrite E. reflexivity.
    + destruct (Ascii.eqb x nl); [|exact Q_none]. apply Hk. rewrite E. reflexivity.
Qed.

(** A pattern that cannot match the empty text hands on texts that are
    not empty. *)
Lemma nonnull_calls (r : regex) : nonnull r = true -> forall k st,
  (forall w st', rest st = w ++ rest st' -> w <> [] -> Q (k w st')) -> Q (m r k st).
Proof.
  induction r; intros Hn k st Hk; simpl in Hn; try discriminate.
  - simpl. destruct (rest st) as [|x s'] eqn:E; [exact Q_none|].
    destruct (Ascii.eqb x c); [|exact Q_none]. apply Hk; [reflexivity|discriminate].
  - simpl. destruct (rest st) as [|x s'] eqn:E; [exact Q_none|].
    destruct (in_cls neg cs x); [|exact Q_none]. apply Hk; [reflexivity|discriminate].
  - rewrite m_seq. destruct (nonnull r1) eqn:E1.
    + apply IHr1; [reflexivity|]. intros w1 st1 H1 N1. apply m_calls.
      intros w2 st2 H2. apply Hk; [rewrite H1, H2; apply app_assoc|].
      destruct w1; [contradiction|discriminate].
    + simpl in Hn. apply m_calls. intros w1 st1 H1. apply IHr2; [exact Hn|].
      intros w2 st2 H2 N2. apply Hk; [rewrite H1, H2; apply app_assoc|].
      destruct w1; [exact N2|discriminate].
  - apply andb_true_iff in Hn as [H1 H2].
    simpl. apply orelse_calls; [apply IHr1|apply IHr2]; assumption.
  - rewrite m_grp. apply IHr; [exact Hn|]. intros w st' H N. apply Hk; assumption.
Qed.

Lemma reads_free_refl (gs : list nat) (st : mstate) : reads_free gs [] st st.
Proof. split; [reflexivity|]. split; [reflexivity|]. exists []. split; [reflexivity|constructor]. Qed.

Lemma reads_free_trans (gs : list nat) (w1 w2 : str) (st st1 st2 : mstate) :
  reads_free gs w1 st st1 -> reads_free gs w2 st1 st2 -> reads_free gs (w1 ++ w2) st st2.
Proof.
  intros [H1 [A1 [a1 [C1 F1]]]] [H2 [A2 [a2 [C2 F2]]]].
  split; [rewrite H1, H2; apply app_assoc|].
  split; [rewrite absent_app, A1, A2; reflexivity|].
  exists (a2 ++ a1). split; [rewrite C2, C1; apply app_assoc|].
  apply Forall_app. split; assumption.
Qed.

Lemma reads_free_more (gs gs' : list nat) (w : str) (st st' : mstate) :
  (forall i, In i gs -> In i gs') -> reads_free gs w st st' -> reads_free gs' w st st'.
Proof.
  intros Hin [H1 [A1 [a1 [C1 F1]]]]. split; [exact H1|]. split; [exact A1|].
  exists a1. split; [exact C1|]. eapply Forall_impl; [|exact F1].
  intros p [Hp Hi]. split; [exact Hp|apply Hin; exact Hi].
Qed.

Lemma walk_free (r : regex) :
  walk 0 r = Some 0 ->
  forall k st,
    (forall w st', reads_free (groups r) w st st' -> Q (k w st')) -> Q (m r k st).
Proof.
  induction r; intros Hw k st Hk; simpl in Hw; try discriminate.
  - simpl. apply Hk. apply reads_free_refl.
  - destruct (Ascii.eqb c pct) eqn:Nc; [discriminate|].
    simpl. destruct (rest st) as [|x s'] eqn:E; [exact Q_none|].
    destruct (Ascii.eqb x c) eqn:Ex; [|exact Q_none].
    apply Ascii.eqb_eq in Ex. subst x.
    apply Hk. split; [exact E|]. split.
    + rewrite absent_cons, Ascii.eqb_sym, Nc. reflexivity.
    + exists []. split; [reflexivity|constructor].
  - destruct (in_cls neg cs pct) eqn:Ep; [discriminate|].
    simpl. destruct (rest st) as [|x s'] eqn:E; [exact Q_none|].
    destruct (in_cls neg cs x) eqn:Ex; [|exact Q_none].
    apply Hk. split; [exact E|]. split.
    + rewrite absent_cons. destruct (Ascii.eqb pct x) eqn:Epx; [|reflexivity].
      apply Ascii.eqb_eq in Epx. subst x. congruence.
    + exists []. split; [reflexivity|constructor].
  - destruct (walk 0 r1) as [n1|] eqn:E1; [|discriminate].
    pose proof (walk_le _ _ _ E1) as L. assert (n1 = 0) as -> by lia.
    rewrite m_seq. apply (IHr1 eq_refl). intros w1 st1 H1.
    apply (IHr2 Hw). intros w2 st2 H2. apply Hk.
    apply (reads_free_trans (groups (Seq r1 r2)) w1 w2 st st1 st2).
    + eapply reads_free_more; [|exact H1]. intros i Hi. simpl. apply in_or_app. auto.
    + eapply reads_free_more; [|exact H2]. intros i Hi. simpl. apply in_or_app. auto.
  - destruct (walk 0 r1) as [x|] eqn:E1; [|discriminate].
    destruct (walk 0 r2) as [y|] eqn:E2; [|discriminate].
    destruct (Nat.eqb_spec x y) as [->|]; [|discriminate]. injection Hw as ->.
    simpl. apply orelse_calls.
    + apply (IHr1 eq_refl). intros w st' H. apply Hk.
      eapply reads_free_more; [|exact H]. intros i Hi. simpl. apply in_or_app. auto.
    + apply (IHr2 eq_refl). intros w st' H. apply Hk.
      eapply reads_free_more; [|exact H]. intros i Hi. simpl. apply in_or_app. auto.
  - destruct (walk 0 r) as [[|n]|] eqn:E; try discriminate.
    simpl. apply (star_loop_calls (reads_free (groups r))).
    + apply reads_free_refl.
    + apply reads_free_trans.
    + intros k0 st0 H0. apply (IHr eq_refl). exact H0.
    + exact Hk.
  - rewrite m_grp. apply (IHr Hw). intros w st' [H1 [A1 [a1 [C1 F1]]]]. apply Hk.
    split; [exact H1|]. split; [exact A1|].
    exists ((i, w) :: a1). split; [simpl; rewrite C1; reflexivity|].
    constructor; [split; [exact A1|left; reflexivity]|].
    eapply Forall_impl; [|exact F1]. intros p [Hp Hi]. split; [exact Hp|right; exact Hi].
Qed.

End Calls.

(** A match of a thread-local pattern is a prefix of the text and is not
    empty. *)
Lemma search_local_prefix (r : regex) (s w : str) (cs : captures) (b ma : bool) :
  thread_local r = true ->
  search r s b ma = Some (w, cs) ->
  exists s', s = w ++ s' /\ w <> [].
Proof.
  unfold thread_local. intros Hr.
  destruct (walk 2 r) as [n|] eqn:E; [|discriminate].
  unfold search.
  pose (Q := fun o : option answer =>
               match o with
               | Some (w, _) => exists s', s = w ++ s' /\ w <> []
               | None => True
               end).
  intros H.
  assert (HQ : Q (m r (fun w st => if ma && is_nil w then None else Some (w, caps st))
                     (MS s [] b))).
  { apply (nonnull_calls Q I r Hr). intros w0 st' H0 N0. simpl in H0.
    destruct (ma && is_nil w0); simpl; [exact I|].
    exists (rest st'). split; [exact H0|exact N0]. }
  rewrite H in HQ. exact HQ.
Qed.

Lemma search_local_end (r : regex) (b ma : bool) :
  thread_local r = true -> search r [] b ma = None.
Proof.
  intros Hr. destruct (search r [] b ma) as [[w cs]|] eqn:E; [|reflexivity].
  destruct (search_local_prefix r [] w cs b ma Hr E) as [s' [H N]].
  destruct w; [contradiction|discriminate].
Qed.

Section Local.

Variable z : str.
Hypothesis Hz : heads_pct z = true.

Lemma star_local (a : regex) :
  (forall x k k' cs b b', ok 0 x = true -> agree z 0 x k k' ->
     m a k (MS (x ++ z) cs b) = m a k' (MS x cs b')) ->
  forall n x, length x <= n ->
  forall f1 f2 k k' cs b b',
    length x <= f1 -> length x <= f2 -> ok 0 x = true -> agree z 0 x k k' ->
    star_loop (m a) f1 k (MS (x ++ z) cs b) = star_loop (m a) f2 k' (MS x cs b').
Proof.
  intros IHa. induction n as [|n IH]; intros x Hn f1 f2 k k' cs b b' H1 H2 Hx Hk.
  - destruct x; [|simpl in Hn; lia].
    assert (E0 : k [] (MS ([] ++ z) cs b) = k' [] (MS [] cs b')).
    { apply Hk; [reflexivity|exact Hx]. }
    assert (N2 : forall f (k0 : cont) c0 b0,
               m a (fun w1 st1 => if is_nil w1 then None
                                  else star_loop (m a) f (fun w2 st2 => k0 (w1 ++ w2) st2) st1)
                 (MS [] c0 b0) = None).
    { intros f k0 c0 b0.
      apply (m_calls (fun o => o = None) eq_refl a).
      intros w st' E. simpl in E. destruct w; [reflexivity|discriminate]. }
    assert (N1 : forall f (k0 : cont) c0 b0,
               m a (fun w1 st1 => if is_nil w1 then None
                                  else star_loop (m a) f (fun w2 st2 => k0 (w1 ++ w2) st2) st1)
                 (MS ([] ++ z) c0 b0) = None).
    { intros f k0 c0 b0. rewrite (IHa [] _ (fun _ _ => None) c0 b0 b0 Hx).
      - apply (m_calls (fun o => o = None) eq_refl a). reflexivity.
      - intros w x' cs' b1 b2 E _. destruct w; [reflexivity|discriminate]. }
    destruct f1, f2; simpl star_loop; rewrite ?N1, ?N2; simpl orelse; exact E0.
  - destruct f1 as [|f1].
    { destruct x; [|simpl in H1; lia]. apply (IH []); simpl; auto; lia. }
    destruct f2 as [|f2].
    { destruct x; [|simpl in H2; lia]. apply (IH []); simpl; auto; lia. }
    simpl star_loop. f_equal.
    + apply IHa; [exact Hx|].
      intros w x' cs' b1 b2 E Hx'. destruct w as [|c w]; [reflexivity|].
      simpl is_nil. cbv iota.
      assert (L : length x = S (length w + length x')).
      { rewrite E. simpl. rewrite length_app. reflexivity. }
      apply IH; try lia; [exact Hx'|].
      intros w2 x2 cs2 b3 b4 E2 Hx2. apply Hk; [|exact Hx2].
      rewrite E, E2. apply app_assoc.
    + apply Hk; [reflexivity|exact Hx].
Qed.

(** A thread-local pattern reads the text of its own thread only: what
    follows the thread does not change what it matches. *)
Lemma walk_local (r : regex) : forall need need',
  walk need r = Some need' ->
  forall x k k' cs b b',
    ok need x = true -> agree z need' x k k' ->
    m r k (MS (x ++ z) cs b) = m r k' (MS x cs b').
Proof.
  induction r; intros need need' Hw x k k' gs b b' Hx Hk; simpl in Hw; try discriminate.
  - injection Hw as <-. simpl. apply Hk; [reflexivity|exact Hx].
  - destruct (Ascii.eqb c pct) eqn:Ec.
    + destruct need as [|n]; [discriminate|]. injection Hw as <-.
      destruct x as [|c0 x]; [discriminate|]. simpl.
      destruct (Ascii.eqb c0 c) eqn:E0; [|reflexivity].
      apply Hk; [reflexivity|].
      apply Ascii.eqb_eq in E0. subst c0. simpl in Hx. rewrite Ec in Hx. exact Hx.
    + injection Hw as <-. destruct x as [|c0 x].
      * simpl. destruct z as [|c1 z']; [reflexivity|]. simpl in Hz.
        apply Ascii.eqb_eq in Hz. subst c1. rewrite Ascii.eqb_sym, Ec. reflexivity.
      * simpl. destruct (Ascii.eqb c0 c) eqn:E0; [|reflexivity].
        apply Hk; [reflexivity|].
        apply Ascii.eqb_eq in E0. subst c0.
        destruct need as [|n]; simpl in Hx.
        -- rewrite absent_cons in Hx. apply andb_true_iff in Hx as [_ Hx]. exact Hx.
        -- rewrite Ec in Hx. exact Hx.
  - destruct (in_cls neg cs pct) eqn:Ep; [discriminate|]. injection Hw as <-.
    destruct x as [|c0 x].
    + simpl. destruct z as [|c1 z']; [reflexivity|]. simpl in Hz.
      apply Ascii.eqb_eq in Hz. subst c1. rewrite Ep. reflexivity.
    + simpl. destruct (in_cls neg cs c0) eqn:E0; [|reflexivity].
      apply Hk; [reflexivity|].
      assert (Nc : Ascii.eqb c0 pct = false).
      { destruct (Ascii.eqb c0 pct) eqn:E1; [|reflexivity].
        apply Ascii.eqb_eq in E1. subst c0. congruence. }
      destruct need as [|n]; simpl in Hx.
      * rewrite absent_cons in Hx. apply andb_true_iff in Hx as [_ Hx]. exact Hx.
      * rewrite Nc in Hx. exact Hx.
  - destruct (walk need r1) as [n1|] eqn:E1; [|discriminate].
    rewrite !m_seq. apply (IHr1 _ _ E1); [exact Hx|].
    intros w1 x1 cs1 b1 b2 H1 Hx1.
    apply (IHr2 _ _ Hw); [exact Hx1|].
    intros w2 x2 cs2 b3 b4 H2 Hx2. apply Hk; [|exact Hx2].
    rewrite H1, H2. apply app_assoc.
  - destruct (walk need r1) as [n1|] eqn:E1; [|discriminate].
    destruct (walk need r2) as [n2|] eqn:E2; [|discriminate].
    destruct (Nat.eqb_spec n1 n2) as [->|]; [|discriminate]. injection Hw as <-.
    simpl. f_equal; [apply (IHr1 _ _ E1)|apply (IHr2 _ _ E2)]; assumption.
  - destruct need; [|discriminate].
    destruct (walk 0 r) as [[|n]|] eqn:E; try discriminate. injection Hw as <-.
    simpl m. simpl rest.
    apply (star_local r) with (n := length x); try lia; try assumption.
    + intros x0 k0 k0' cs0 b0 b0' H0 A0. apply (IHr _ _ E); assumption.
    + rewrite length_app. lia.
  - rewrite !m_grp. apply (IHr _ _ Hw); [exact Hx|].
    intros w x' cs' b1 b2 H1 Hx'. simpl. apply Hk; assumption.
Qed.

Lemma search_local (r : regex) (x : str) (b b' ma : bool) :
  thread_local r = true -> ok 2 x = true ->
  search r (x ++ z) b ma = search r x b' ma.
Proof.
  unfold thread_local. intros Hr Hx.
  destruct (walk 2 r) as [n|] eqn:E; [|discriminate].
  unfold search. apply (walk_local r 2 n E); [exact Hx|].
  intros w x' cs b1 b2 _ _. reflexivity.
Qed.

(** The scan of a thread-local rule over one thread, followed by more
    threads: the thread is rewritten as if alone, and the scan goes on with
    the next one. *)
Lemma sub_from_local (r : regex) (t : template) :
  thread_local r = true ->
  forall y skip b b',
    sufs_ok y = true -> skip <= length y -> (y = [] -> b = false) ->
    sub_from r t (y ++ z) skip b = sub_from r t y skip b' ++ sub_from r t z 0 false.
Proof.
  intros Hr. induction y as [|x y IH]; intros skip b b' Hy Hs Hb.
  - simpl in Hs. assert (skip = 0) as -> by lia. rewrite (Hb eq_refl).
    rewrite (sub_from_end r t b') by (apply search_local_end; exact Hr).
    reflexivity.
  - simpl in Hy. apply andb_true_iff in Hy as [Hx Hy].
    destruct skip as [|skip].
    + change (sub_from r t ((x :: y) ++ z) 0 b)
        with (match search r ((x :: y) ++ z) b false with
              | Some ([], cs) =>
                  expand t cs ++
                  match search r ((x :: y) ++ z) b true with
                  | Some (w', cs') => expand t cs' ++ sub_from r t (y ++ z) (length w' - 1) false
                  | None => x :: sub_from r t (y ++ z) 0 false
                  end
              | Some (_ :: w', cs) => expand t cs ++ sub_from r t (y ++ z) (length w') false
              | None => x :: sub_from r t (y ++ z) 0 false
              end).
      change (sub_from r t (x :: y) 0 b')
        with (match search r (x :: y) b' false with
              | Some ([], cs) =>
                  expand t cs ++
                  match search r (x :: y) b' true with
                  | Some (w', cs') => expand t cs' ++ sub_from r t y (length w' - 1) false
                  | None => x :: sub_from r t y 0 false
                  end
              | Some (_ :: w', cs) => expand t cs ++ sub_from r t y (length w') false
              | None => x :: sub_from r t y 0 false
              end).
      rewrite (search_local r (x :: y) b b' false Hr Hx).
      destruct (search r (x :: y) b' false) as [[w cs]|] eqn:E.
      * destruct (search_local_prefix r _ w cs b' false Hr E) as [s' [H N]].
        destruct w as [|c w]; [contradiction|].
        rewrite <- app_assoc. f_equal.
        injection H as _ H.
        apply IH; [exact Hy| |reflexivity].
        rewrite H, length_app. lia.
      * simpl. f_equal. apply IH; [exact Hy|lia|reflexivity].
    + simpl. apply IH; [exact Hy|simpl in Hs; lia|reflexivity].
Qed.

End Local.

(** ** Threads as chunks *)

Lemma sufs_ok_absent (b : str) : absent pct b = true -> sufs_ok b = true.
Proof.
  induction b as [|c b IH]; [reflexivity|]. rewrite absent_cons. intros H.
  apply andb_true_iff in H as [Hc Hb].
  change (sufs_ok (c :: b))
    with ((if Ascii.eqb c pct then ok 1 b else absent pct b) && sufs_ok b).
  apply negb_true_iff in Hc. rewrite Ascii.eqb_sym in Hc. rewrite Hc, Hb, (IH Hb).
  reflexivity.
Qed.

Lemma chunk_inv (c : str) :
  chunk c = true ->
  exists d b, c = pct :: d :: b /\ absent pct b = true
              /\ (Ascii.eqb d pct = true -> b <> []).
Proof.
  destruct c as [|p [|d b]]; try discriminate. unfold chunk. intros H.
  apply andb_true_iff in H as [H H3]. apply andb_true_iff in H as [H1 H2].
  apply Ascii.eqb_eq in H1. subst p. exists d, b. split; [reflexivity|].
  split; [exact H2|]. intros Hd. rewrite Hd in H3. simpl in H3.
  destruct b; [discriminate|discriminate].
Qed.

Lemma chunk_shape (c : str) :
  chunk c = true -> sufs_ok c = true /\ heads_pct c = true /\ c <> [].
Proof.
  intros H. destruct (chunk_inv c H) as [d [b [-> [Hb Hd]]]].
  split; [|split; [reflexivity|discriminate]].
  pose proof (sufs_ok_absent b Hb) as Hs.
  change (sufs_ok (pct :: d :: b))
    with ((if Ascii.eqb pct pct
           then (if Ascii.eqb d pct then absent pct b else absent pct b)
           else absent pct (d :: b))
          && ((if Ascii.eqb d pct then ok 1 b else absent pct b) && sufs_ok b)).
  rewrite Ascii.eqb_refl, Hs, Hb. destruct (Ascii.eqb d pct) eqn:Ed; [|reflexivity].
  destruct b as [|e b]; [exfalso; apply (Hd eq_refl); reflexivity|].
  rewrite absent_cons in Hb. apply andb_true_iff in Hb as [He Hb'].
  apply negb_true_iff in He. rewrite Ascii.eqb_sym in He.
  change (ok 1 (e :: b)) with (if Ascii.eqb e pct then absent pct b else absent pct b).
  rewrite He, Hb'. reflexivity.
Qed.

Lemma thread_chunk (th : thread) : thread_wf th = true -> chunk (thread_text th) = true.
Proof.
  unfold thread_wf, thread_text. intros H. apply andb_true_iff in H as [Hb Ht].
  apply body_no_pct in Hb.
  destruct (th_tag th) as [tag|].
  - unfold inactive. apply value_no_pct in Ht. destruct tag as [|c tag].
    + change (chunk (pct :: nl :: esc "#stack:\n" ++ thread_body (th_stack th) (th_vars th))
              = true).
      unfold chunk. rewrite Ascii.eqb_refl, absent_app, Hb. reflexivity.
    + change (chunk (pct :: c :: tag ++ esc "\n#stack:\n"
                       ++ thread_body (th_stack th) (th_vars th)) = true).
      rewrite absent_cons in Ht. apply andb_true_iff in Ht as [Hc Ht].
      apply negb_true_iff in Hc. rewrite Ascii.eqb_sym in Hc.
      unfold chunk. rewrite Ascii.eqb_refl, !absent_app, Ht, Hb, Hc. reflexivity.
  - unfold active, header.
    change (chunk (pct :: pct :: esc "\n#stack:\n"
                     ++ thread_body (th_stack th) (th_vars th)) = true).
    unfold chunk. rewrite Ascii.eqb_refl, absent_app, Hb. reflexivity.
Qed.

Lemma chunks_heads (cs : list str) :
  forallb chunk cs = true -> heads_pct (concat cs) = true.
Proof.
  destruct cs as [|c cs]; [reflexivity|]. simpl. intros H.
  apply andb_true_iff in H as [H _].
  destruct (chunk_inv c H) as [d [b [-> _]]]. reflexivity.
Qed.

(** A thread-local rule rewrites the chunks of a text one by one. *)
Lemma sub_from_chunks (r : regex) (t : template) (cs : list str) :
  thread_local r = true -> forallb chunk cs = true ->
  forall b, sub_from r t (concat cs) 0 b = flat_map (sub r t) cs.
Proof.
  intros Hr. induction cs as [|c cs IH]; intros Hw b.
  - simpl. apply sub_from_end. apply search_local_end. exact Hr.
  - simpl in Hw. apply andb_true_iff in Hw as [Hc Hw].
    destruct (chunk_shape c Hc) as [Hs [_ Hn]].
    simpl. rewrite (sub_from_local (concat cs) (chunks_heads cs Hw) r t Hr c 0 b true Hs).
    + unfold sub at 1. f_equal. apply IH. exact Hw.
    + lia.
    + intros E. contradiction.
Qed.

(** ** Rules that keep the header *)

Lemma header_kept_inv (r : regex) (t : template) :
  header_kept (r, t) = true ->
  exists g a rest c l t',
    r = Seq (Grp g a) rest /\ t = TRef g :: t'
    /\ exact a = Some (pct :: pct :: c :: l) /\ gcaps a [] = []
    /\ absent pct (c :: l) = true /\ walk 0 rest = Some 0
    /\ ~ In g (groups rest) /\ forallb (free_item g) t' = true.
Proof.
  unfold header_kept. cbn [fst snd].
  destruct r as [| | |r1 rest| | | | | |]; try discriminate.
  destruct r1 as [| | | | | |g a| | |]; try discriminate.
  destruct t as [|[c0|g'] t']; try discriminate.
  destruct (exact a) as [[|p1 [|p2 [|c l]]]|] eqn:Ea; try discriminate.
  destruct (gcaps a []) eqn:Eg; try discriminate.
  destruct (walk 0 rest) as [[|n]|] eqn:Ew;
    rewrite ?andb_false_r; try discriminate.
  intros H.
  repeat match type of H with
         | _ && _ = true => let H' := fresh "H" in apply andb_true_iff in H as [H H']
         end.
  apply Ascii.eqb_eq in H. subst p1.
  match goal with E : Ascii.eqb p2 pct = true |- _ => apply Ascii.eqb_eq in E; subst p2 end.
  match goal with E : Nat.eqb g' g = true |- _ => apply Nat.eqb_eq in E; subst g' end.
  exists g, a, rest, c, l, t'.
  repeat split; try reflexivity; try assumption.
  intros Hin.
  match goal with
  | E : negb (existsb (Nat.eqb g) (groups rest)) = true |- _ =>
      apply negb_true_iff in E;
      assert (X : existsb (Nat.eqb g) (groups rest) = true)
        by (apply existsb_exists; exists g; split; [exact Hin|apply Nat.eqb_refl]);
      congruence
  end.
Qed.

Lemma group_skip (g : nat) (gs : list nat) (added cs : captures) :
  Forall (fun p => absent pct (snd p) = true /\ In (fst p) gs) added ->
  ~ In g gs -> group g (added ++ cs) = group g cs.
Proof.
  intros F Hg. induction F as [|[j v] added [_ Hj] F IH]; [reflexivity|].
  simpl. destruct (Nat.eqb_spec g j) as [->|]; [contradiction|exact IH].
Qed.

Lemma group_free (j : nat) (gs : list nat) (added : captures) (v : str) :
  Forall (fun p => absent pct (snd p) = true /\ In (fst p) gs) added ->
  group j added = Some v -> absent pct v = true.
Proof.
  intros F. induction F as [|[i u] added [Hu _] F IH]; [discriminate|].
  simpl. destruct (Nat.eqb j i); [|exact IH]. intros E. injection E as <-. exact Hu.
Qed.

Lemma group_app (j : nat) (c1 c2 : captures) :
  group j (c1 ++ c2) = match group j c1 with Some v => Some v | None => group j c2 end.
Proof.
  induction c1 as [|[i u] c1 IH]; [reflexivity|].
  simpl. destruct (Nat.eqb j i); [reflexivity|exact IH].
Qed.

Lemma expand_free (g : nat) (t : template) (cs : captures) :
  forallb (free_item g) t = true ->
  (forall j v, j <> g -> group j cs = Some v -> absent pct v = true) ->
  absent pct (expand t cs) = true.
Proof.
  intros Ht Hcs. induction t as [|it t IH]; [reflexivity|].
  simpl in Ht. apply andb_true_iff in Ht as [Hi Ht].
  unfold expand. cbn [flat_map]. rewrite absent_app. fold (expand t cs).
  rewrite (IH Ht), andb_true_r.
  destruct it as [c|j]; cbn [expand1 free_item] in *.
  - rewrite absent_cons. rewrite Ascii.eqb_sym. rewrite Hi. reflexivity.
  - destruct (group j cs) as [v|] eqn:E; [|reflexivity].
    apply (Hcs j v); [|exact E]. apply negb_true_iff in Hi.
    intros ->. rewrite Nat.eqb_refl in Hi. discriminate.
Qed.

(** A match of a rule that keeps the header: the header text and text
    without [%] are read, and the replacement is the header text followed
    by text without [%]. *)
Lemma header_kept_search (g : nat) (a r2 : regex) (c : ascii) (l : str)
    (t' : template) (s w : str) (cs : captures) (b ma : bool) :
  exact a = Some (pct :: pct :: c :: l) -> gcaps a [] = [] ->
  walk 0 r2 = Some 0 -> ~ In g (groups r2) ->
  forallb (free_item g) t' = true ->
  search (Seq (Grp g a) r2) s b ma = Some (w, cs) ->
  exists w2 x' f,
    w = (pct :: pct :: c :: l) ++ w2 /\ s = w ++ x' /\ absent pct w2 = true
    /\ expand (TRef g :: t') cs = (pct :: pct :: c :: l) ++ f /\ absent pct f = true.
Proof.
  intros Ea Eg Ew Hg Ht. set (hl := pct :: pct :: c :: l) in *.
  assert (Eh : exact (Grp g a) = Some hl) by exact Ea.
  unfold search.
  destruct (strip_prefix hl s) as [s'|] eqn:Es.
  - apply strip_prefix_some in Es. subst s.
    rewrite (m_step_exact (Grp g a) r2 hl _ s' [] b Eh).
    assert (Ec : gcaps (Grp g a) [] = [(g, hl)]).
    { cbn [gcaps]. rewrite Ea, Eg. reflexivity. }
    rewrite Ec.
    pose (Q := fun o : option answer =>
                 match o with
                 | Some (w, cs) =>
                     exists w2 x' f,
                       w = hl ++ w2 /\ hl ++ s' = w ++ x' /\ absent pct w2 = true
                       /\ expand (TRef g :: t') cs = hl ++ f /\ absent pct f = true
                 | None => True
                 end).
    intros H.
    match type of H with
    | ?lhs = _ => assert (HQ : Q lhs)
    end.
    { apply (walk_free Q I r2 Ew). intros w2 st' [H1 [A1 [added [C1 F1]]]].
      cbn [rest caps] in H1, C1.
      destruct (ma && is_nil (hl ++ w2)); [exact I|].
      cbn [Q]. exists w2, (rest st'), (expand t' (caps st')).
      split; [reflexivity|]. split; [rewrite H1; rewrite <- app_assoc; reflexivity|].
      split; [exact A1|]. split.
      - unfold expand. cbn [flat_map expand1]. fold (expand t' (caps st')).
        rewrite C1, (group_skip g (groups r2) added [(g, hl)] F1 Hg).
        cbn [group]. rewrite Nat.eqb_refl. reflexivity.
      - apply (expand_free g t' (caps st') Ht). intros j v Nj Hj.
        rewrite C1, group_app in Hj.
        destruct (group j added) as [u|] eqn:Eu.
        + injection Hj as <-. apply (group_free j (groups r2) added u F1 Eu).
        + cbn [group] in Hj. destruct (Nat.eqb_spec j g); [contradiction|discriminate]. }
    rewrite H in HQ. exact HQ.
  - rewrite (m_step_exact_miss (Grp g a) r2 hl _ s [] b Eh Es). discriminate.
Qed.

Lemma anchored_lead (r : regex) :
  anchored r = true -> exists l, lead r = pct :: pct :: l.
Proof.
  unfold anchored. destruct (lead r) as [|p1 [|p2 l]]; try discriminate.
  intros H. apply andb_true_iff in H as [H1 H2].
  apply Ascii.eqb_eq in H1, H2. subst. exists l. reflexivity.
Qed.

(** Where no [%%] stands, a pattern that opens with [%%] changes
    nothing. *)
Lemma sub_from_one_pct (r : regex) (t : template) (y : str) (b : bool) :
  anchored r = true -> absent pct y = true ->
  sub_from r t (pct :: y) 0 b = pct :: y.
Proof.
  intros Hr Hy. destruct (anchored_lead r Hr) as [l Hl].
  rewrite sub_from_miss.
  - f_equal. apply (sub_from_absent r t pct (pct :: l) y false Hl Hy).
  - apply search_miss. rewrite Hl.
    change (strip_prefix (pct :: pct :: l) (pct :: y))
      with (if Ascii.eqb pct pct then strip_prefix (pct :: l) y else None).
    rewrite Ascii.eqb_refl. apply strip_prefix_starts.
    destruct y as [|e y]; [reflexivity|].
    rewrite absent_cons in Hy. apply andb_true_iff in Hy as [He _].
    apply negb_true_iff in He. simpl. rewrite Ascii.eqb_sym. exact He.
Qed.

Lemma sub_from_no_hit (r : regex) (t : template) (c : str) (b : bool) :
  anchored r = true -> chunk c = true ->
  search r c b false = None -> sub_from r t c 0 b = c.
Proof.
  intros Hr Hc Hs. destruct (chunk_inv c Hc) as [d [y [-> [Hy Hd]]]].
  rewrite (sub_from_miss r t pct (d :: y) b Hs). f_equal.
  destruct (anchored_lead r Hr) as [l Hl].
  destruct (Ascii.eqb d pct) eqn:Ed.
  - apply Ascii.eqb_eq in Ed. subst d. apply sub_from_one_pct; assumption.
  - apply (sub_from_absent r t pct (pct :: l) (d :: y) false Hl).
    rewrite absent_cons, Ascii.eqb_sym, Ed, Hy. reflexivity.
Qed.

Lemma header_kept_anchored (r : regex) (t : template) :
  header_kept (r, t) = true -> anchored r = true.
Proof.
  intros H.
  destruct (header_kept_inv r t H) as [g [a [r2 [c [l [t' [-> [_ [Ea _]]]]]]]]].
  unfold anchored. cbn [lead exact]. rewrite Ea. reflexivity.
Qed.

(** A rule that keeps the header turns the text of a thread into the text
    of a thread. *)
Lemma header_kept_chunk (r : regex) (t : template) (c : str) :
  header_kept (r, t) = true -> chunk c = true -> chunk (sub r t c) = true.
Proof.
  intros H Hc. pose proof (header_kept_anchored r t H) as Ha.
  unfold sub. destruct (search r c true false) as [[w cs]|] eqn:Es.
  - destruct (header_kept_inv r t H)
      as [g [a [r2 [c0 [l [t' [-> [-> [Ea [Eg [Hl [Ew [Hg Ht]]]]]]]]]]]]].
    destruct (header_kept_search g a r2 c0 l t' c w cs true false Ea Eg Ew Hg Ht Es)
      as [w2 [x' [f [Hw [Hcx [Hw2 [Hex Hf]]]]]]].
    assert (Nw : w <> []) by (rewrite Hw; discriminate).
    rewrite (sub_from_hit_at _ _ c w x' cs true Nw Hcx Es), Hex.
    destruct (chunk_inv c Hc) as [d [y [Ec [Hy _]]]].
    assert (Hx' : absent pct x' = true).
    { rewrite Hcx, Hw in Ec. cbn [app] in Ec. injection Ec as _ Ec.
      rewrite <- Ec in Hy. rewrite absent_cons, !absent_app in Hy.
      apply andb_true_iff in Hy as [_ Hy]. apply andb_true_iff in Hy as [_ Hy].
      exact Hy. }
    destruct (anchored_lead _ Ha) as [l0 Hl0].
    rewrite (sub_from_absent _ _ pct (pct :: l0) x' false Hl0 Hx').
    cbn [app]. unfold chunk.
    rewrite absent_cons in Hl. apply andb_true_iff in Hl as [Hc0 Hl].
    rewrite !Ascii.eqb_refl, absent_cons, !absent_app, Hc0, Hl, Hf, Hx'.
    reflexivity.
  - rewrite (sub_from_no_hit r t c true Ha Hc Es). exact Hc.
Qed.

(** An instruction of thread-local rules that keep the header acts on the
    threads of a text one by one. *)
Lemma run_chunks (i : instruction) :
  local_instruction i = true ->
  forall cs, forallb chunk cs = true -> run i (concat cs) = flat_map (run i) cs.
Proof.
  induction i as [|[r t] i IH]; intros Hi cs Hcs.
  - rewrite flat_map_concat_map.
    change (concat cs = concat (map (fun s : str => s) cs)).
    rewrite map_id. reflexivity.
  - cbn [local_instruction fst] in Hi.
    apply andb_true_iff in Hi as [Hi Hi']. apply andb_true_iff in Hi as [Hr Hk].
    rewrite run_cons. cbn [fst snd]. unfold sub at 1.
    rewrite (sub_from_chunks r t cs Hr Hcs true).
    destruct i as [|p i].
    + apply flat_map_ext. reflexivity.
    + rewrite (flat_map_concat_map (sub r t) cs).
      etransitivity; [apply (IH Hi')|].
      * rewrite forallb_forall. intros c Hc. apply in_map_iff in Hc as [c0 [<- Hc0]].
        apply header_kept_chunk; [exact Hk|].
        rewrite forallb_forall in Hcs. apply Hcs. exact Hc0.
      * rewrite !flat_map_concat_map, map_map. reflexivity.
Qed.

(** An instruction whose patterns all open with [%%] leaves an inactive
    thread as it is. *)
Lemma run_inactive (i : instruction) (th : thread) :
  forallb (fun p => anchored (fst p)) i = true ->
  thread_wf th = true -> th_tag th <> None ->
  run i (thread_text th) = thread_text th.
Proof.
  intros Hi Hw Ht. induction i as [|[r t] i IH]; [reflexivity|].
  simpl in Hi. apply andb_true_iff in Hi as [Hr Hi].
  rewrite run_cons. cbn [fst snd].
  assert (E : sub r t (thread_text th) = thread_text th).
  { unfold thread_wf in Hw. apply andb_true_iff in Hw as [Hb Hv].
    apply body_no_pct in Hb.
    unfold thread_text in *. destruct (th_tag th) as [tag|]; [|contradiction].
    apply value_no_pct in Hv.
    unfold sub, inactive.
    change (esc "%" ++ tag ++ esc "\n#stack:\n" ++ thread_body (th_stack th) (th_vars th))
      with (pct :: (tag ++ esc "\n#stack:\n" ++ thread_body (th_stack th) (th_vars th))).
    apply sub_from_one_pct; [exact Hr|].
    rewrite !absent_app, Hv, Hb. reflexivity. }
  rewrite E. apply IH. exact Hi.
Qed.

Lemma walk_lits (l : str) :
  absent pct l = true ->
  forall n, walk n (lits l) = Some (if is_nil l then n else 0).
Proof.
  induction l as [|c l IH]; intros H n; [reflexivity|].
  rewrite absent_cons in H. apply andb_true_iff in H as [Hc Hl].
  apply negb_true_iff in Hc. rewrite Ascii.eqb_sym in Hc.
  change (lits (c :: l)) with (Seq (Chr c) (lits l)).
  cbn [walk is_nil]. rewrite Hc, (IH Hl 0). destruct (is_nil l); reflexivity.
Qed.

(** The instructions of the library that act thread by thread by the
    shape of their rules. *)
Lemma library_local :
  local_instruction to_unary = true /\ local_instruction boolean_not = true
  /\ local_instruction add_unary = true
  /\ local_instruction destroy_active_threads = true
  /\ (forall const, local_instruction (push const) = true)
  /\ (forall tag, local_instruction (pause tag) = true
                  /\ local_instruction (fork_inactive tag) = true)
  /\ (forall name, absent pct (esc name) = true ->
        local_instruction (lookup name) = true
        /\ local_instruction (reactivate name) = true).
Proof.
  split; [vm_compute; reflexivity|]. split; [vm_compute; reflexivity|].
  split; [vm_compute; reflexivity|]. split; [vm_compute; reflexivity|].
  split; [intros const; reflexivity|].
  split; [intros tag; split; reflexivity|].
  intros name H. split.
  - unfold lookup, local_instruction, thread_local, lit. cbn [fst cat fold_right].
    cbn [walk nonnull].
    change (walk 2 (lits (esc "%%\n#stack:"))) with (Some 0). cbv beta iota.
    change (walk 0 (star (nset "%"))) with (Some 0). cbv beta iota.
    change (walk 0 (lits (esc "\n#"))) with (Some 0). cbv beta iota.
    rewrite (walk_lits (esc name) H 0).
    destruct (is_nil (esc name)); reflexivity.
  - unfold reactivate, local_instruction, thread_local, lit. cbn [fst cat fold_right].
    cbn [walk nonnull].
    change (walk 2 (lits (esc "%"))) with (Some 1). cbv beta iota.
    rewrite (walk_lits (esc name) H 1).
    destruct (is_nil (esc name)); reflexivity.
Qed.




(** * More of the instruction library *)

(** ** The stack instructions *)

Lemma expand_app (t1 t2 : template) (cs : captures) :
  expand (t1 ++ t2) cs = expand t1 cs ++ expand t2 cs.
Proof. apply flat_map_app. Qed.

Lemma expand_tlit (c : str) (cs : captures) : expand (tlit c) cs = c.
Proof.
  induction c as [|x c IH]; [reflexivity|].
  change (expand (tlit (x :: c)) cs) with (x :: expand (tlit c) cs).
  rewrite IH. reflexivity.
Qed.

(** The first line after the stack header. *)
Lemma one_line_search (v s : str) :
  no_nl v = true ->
  search (pat 0 dup) (header ++ v ++ [nl] ++ s) true false
  = Some (header ++ v ++ [nl], [(2, v); (1, header)]).
Proof. exact (pop_search v s). Qed.

(** The first two lines after the stack header. *)
Lemma two_lines_search (a b s : str) :
  no_nl a = true -> no_nl b = true ->
  search (pat 0 swap) (header ++ a ++ [nl] ++ b ++ [nl] ++ s) true false
  = Some (header ++ a ++ [nl] ++ b ++ [nl], [(3, b); (2, a); (1, header)]).
Proof.
  intros Ha Hb. unfold search. norm_rule (pat 0 swap).
  rewrite (m_step_exact _ _ header) by reflexivity.
  rewrite (m_step_run (in_cls true [nl]) _ _ _ 2 a [nl]);
    [| apply single_cls | reflexivity | discriminate | reflexivity | exact Ha].
  rewrite (m_step_run (in_cls true [nl]) _ _ _ 3 b [nl]);
    [| apply single_cls | reflexivity | discriminate | reflexivity | exact Hb].
  reflexivity.
Qed.

Lemma thread_ok_cons (v : str) (stack : list str) (vars : list (str * str)) :
  thread_ok (v :: stack) vars = value_ok v && thread_ok stack vars.
Proof. unfold thread_ok. simpl. rewrite andb_assoc. reflexivity. Qed.

Lemma push_thread (const : str) (stack : list str) (vars : list (str * str)) :
  thread_ok stack vars = true ->
  sub (pat 0 (push const)) (repl 0 (push const)) (active stack vars)
  = active (const :: stack) vars.
Proof.
  intros H. rewrite active_push.
  unfold active.
  rewrite (sub_thread_hit_at _ _ (esc "%\n#stack:\n") _ header
             (thread_body stack vars) [(1, header)]);
    [| reflexivity | discriminate | apply body_no_pct; exact H | reflexivity |].
  - change (repl 0 (push const)) with (tpl "\g<1>" ++ tlit const ++ tpl "\n").
    rewrite !expand_app, expand_tlit.
    change (expand (tpl "\g<1>") [(1, header)]) with (header ++ []).
    change (expand (tpl "\n") [(1, header)]) with [nl].
    rewrite app_nil_r, <- !app_assoc. reflexivity.
  - unfold search. change (pat 0 (push const)) with stack_hdr.
    rewrite (m_exact stack_hdr header eq_refl). cbn [rest].
    rewrite strip_prefix_hit. reflexivity.
Qed.

(** An anchored rule finds nothing in an inactive thread. *)
Lemma sub_inactive (r : regex) (t : template) (tag : str)
    (stack : list str) (vars : list (str * str)) :
  anchored r = true -> value_ok tag = true -> thread_ok stack vars = true ->
  sub r t (inactive tag stack vars) = inactive tag stack vars.
Proof.
  intros Hr Ht Hb. destruct (anchored_lead r Hr) as [l Hl].
  unfold sub, inactive. change (esc "%") with [pct].
  change ([pct] ++ ?x) with (pct :: x).
  assert (Hrest : absent pct (tag ++ esc "\n#stack:\n" ++ thread_body stack vars) = true).
  { rewrite !absent_app, (value_no_pct tag Ht), (body_no_pct stack vars Hb). reflexivity. }
  rewrite sub_from_miss.
  - f_equal. apply (sub_from_absent r t pct (pct :: l) _ false Hl Hrest).
  - apply search_miss. rewrite Hl.
    destruct tag as [|c tag]; [reflexivity|].
    change (strip_prefix (pct :: pct :: l) (pct :: (c :: tag) ++ ?x))
      with (if Ascii.eqb pct pct then strip_prefix (pct :: l) (c :: tag ++ x) else None).
    rewrite Ascii.eqb_refl. apply strip_prefix_starts.
    cbn [app] in Hrest.
    rewrite absent_cons in Hrest. apply andb_true_iff in Hrest as [Hc _].
    apply negb_true_iff in Hc. simpl. rewrite Ascii.eqb_sym. exact Hc.
Qed.

Lemma state_text_map (f : thread -> str) (g : thread -> thread) (ths : list thread) :
  (forall th, In th ths -> f th = thread_text (g th)) ->
  flat_map f ths = state_text (map g ths).
Proof.
  induction ths as [|th ths IH]; intros H; [reflexivity|].
  simpl. unfold state_text in *. simpl. rewrite (H th (or_introl eq_refl)).
  f_equal. apply IH. intros th' Hin. apply H. right. exact Hin.
Qed.

Lemma sub_from_state (r : regex) (t : template) (ths : list thread) :
  thread_local r = true -> forallb thread_wf ths = true ->
  forall b,
    sub_from r t (state_text ths) 0 b
    = flat_map (fun th => sub r t (thread_text th)) ths.
Proof.
  intros Hr Hw b. unfold state_text. rewrite (flat_map_concat_map thread_text ths).
  etransitivity; [apply (sub_from_chunks r t (map thread_text ths) Hr)|].
  - rewrite forallb_forall. intros c Hc. apply in_map_iff in Hc as [th [<- Hth]].
    apply thread_chunk. rewrite forallb_forall in Hw. apply Hw. exact Hth.
  - rewrite !flat_map_concat_map, map_map. reflexivity.
Qed.



Lemma line_hit (i : instruction) (v : str) (stack : list str) (vars : list (str * str))
    (out : str) :
  pat 0 i = pat 0 dup ->
  thread_ok (v :: stack) vars = true ->
  expand (repl 0 i) [(2, v); (1, header)] = out ->
  sub (pat 0 i) (repl 0 i) (active (v :: stack) vars) = out ++ thread_body stack vars.
Proof.
  intros Hp H Ho. rewrite thread_ok_cons in H. apply andb_true_iff in H as [Hv Hb].
  rewrite active_push, Hp.
  rewrite (sub_thread_hit_at _ _ (esc "%\n#stack:\n") _ (header ++ v ++ [nl])
             (thread_body stack vars) [(2, v); (1, header)]);
    [| reflexivity | discriminate | apply body_no_pct; exact Hb | app_norm
     | apply one_line_search; apply value_no_nl; exact Hv].
  rewrite Ho. reflexivity.
Qed.

Lemma lines_hit (i : instruction) (a b : str) (stack : list str) (vars : list (str * str))
    (out : str) :
  pat 0 i = pat 0 swap ->
  thread_ok (a :: b :: stack) vars = true ->
  expand (repl 0 i) [(3, b); (2, a); (1, header)] = out ->
  sub (pat 0 i) (repl 0 i) (active (a :: b :: stack) vars) = out ++ thread_body stack vars.
Proof.
  intros Hp H Ho. rewrite !thread_ok_cons in H.
  apply andb_true_iff in H as [Ha H]. apply andb_true_iff in H as [Hb Hr].
  rewrite active_push, body_push, Hp.
  rewrite (sub_thread_hit_at _ _ (esc "%\n#stack:\n") _ (header ++ a ++ [nl] ++ b ++ [nl])
             (thread_body stack vars) [(3, b); (2, a); (1, header)]);
    [| reflexivity | discriminate | apply body_no_pct; exact Hr | app_norm
     | apply two_lines_search; apply value_no_nl; assumption].
  rewrite Ho. reflexivity.
Qed.

(** X2.  [pop] removes the top of the stack of the active thread. *)
Theorem pop_removes_top (v : str) (stack : list str) (vars : list (str * str)) :
  thread_ok (v :: stack) vars = true ->
  run pop (active (v :: stack) vars) = active stack vars.
Proof.
  intros H.
  change (run pop ?s) with (sub (pat 0 pop) (repl 0 pop) s).
  rewrite (line_hit pop v stack vars header eq_refl H); reflexivity.
Qed.

Lemma pop_removes_top_witness :
  thread_ok [esc "a"; esc "b"] [(esc "x", esc "1")] = true
  /\ run pop (active [esc "a"; esc "b"] [(esc "x", esc "1")])
     = active [esc "b"] [(esc "x", esc "1")].
Proof.
  split; [reflexivity|].
  exact (pop_removes_top (esc "a") [esc "b"] [(esc "x", esc "1")] eq_refl).
Defined.

(** X3.  [dup] doubles the top of the stack, and [pop] after it gives the
    thread back. *)
Theorem dup_doubles_top (v : str) (stack : list str) (vars : list (str * str)) :
  thread_ok (v :: stack) vars = true ->
  run dup (active (v :: stack) vars) = active (v :: v :: stack) vars
  /\ run pop (run dup (active (v :: stack) vars)) = active (v :: stack) vars.
Proof.
  intros H.
  assert (E : run dup (active (v :: stack) vars) = active (v :: v :: stack) vars).
  { change (run dup ?s) with (sub (pat 0 dup) (repl 0 dup) s).
    rewrite (line_hit dup v stack vars (header ++ v ++ [nl] ++ v ++ [nl]) eq_refl H);
      [|reflexivity].
    rewrite !active_push, body_push. app_norm. }
  split; [exact E|]. rewrite E. apply pop_removes_top.
  rewrite thread_ok_cons. rewrite thread_ok_cons in H.
  apply andb_true_iff in H as [Hv Hb]. rewrite Hv. simpl.
  rewrite thread_ok_cons, Hv, Hb. reflexivity.
Qed.

Lemma dup_doubles_top_witness :
  thread_ok [esc "a"; esc "b"] [] = true
  /\ run dup (active [esc "a"; esc "b"] []) = active [esc "a"; esc "a"; esc "b"] []
  /\ run pop (run dup (active [esc "a"; esc "b"] [])) = active [esc "a"; esc "b"] [].
Proof.
  split; [reflexivity|].
  exact (dup_doubles_top (esc "a") [esc "b"] [] eq_refl).
Defined.

(** X4.  [swap] exchanges the two topmost values, and twice [swap] changes
    nothing. *)
Theorem swap_exchanges_top_two (a b : str) (stack : list str) (vars : list (str * str)) :
  thread_ok (a :: b :: stack) vars = true ->
  run swap (active (a :: b :: stack) vars) = active (b :: a :: stack) vars
  /\ run swap (run swap (active (a :: b :: stack) vars)) = active (a :: b :: stack) vars.
Proof.
  intros H.
  assert (S1 : forall a b, thread_ok (a :: b :: stack) vars = true ->
               run swap (active (a :: b :: stack) vars) = active (b :: a :: stack) vars).
  { clear a b H. intros a b H.
    change (run swap ?s) with (sub (pat 0 swap) (repl 0 swap) s).
    rewrite (lines_hit swap a b stack vars (header ++ b ++ [nl] ++ a ++ [nl]) eq_refl H);
      [|reflexivity].
    rewrite !active_push, body_push. app_norm. }
  split; [apply S1; exact H|]. rewrite (S1 a b H). apply S1.
  rewrite !thread_ok_cons in *.
  apply andb_true_iff in H as [Ha H]. apply andb_true_iff in H as [Hb Hr].
  rewrite Ha, Hb, Hr. reflexivity.
Qed.

Lemma swap_exchanges_top_two_witness :
  thread_ok [esc "a"; esc "b"; esc "c"] [] = true
  /\ run swap (active [esc "a"; esc "b"; esc "c"] []) = active [esc "b"; esc "a"; esc "c"] []
  /\ run swap (run swap (active [esc "a"; esc "b"; esc "c"] []))
     = active [esc "a"; esc "b"; esc "c"] [].
Proof.
  split; [reflexivity|].
  exact (swap_exchanges_top_two (esc "a") (esc "b") [esc "c"] [] eq_refl).
Defined.

(** X5.  [string_cat] replaces the two topmost values by the top value
    followed by the one below it. *)
Theorem string_cat_joins_top_two (a b : str) (stack : list str) (vars : list (str * str)) :
  thread_ok (a :: b :: stack) vars = true ->
  run string_cat (active (a :: b :: stack) vars) = active ((a ++ b) :: stack) vars.
Proof.
  intros H.
  change (run string_cat ?s) with (sub (pat 0 string_cat) (repl 0 string_cat) s).
  rewrite (lines_hit string_cat a b stack vars (header ++ a ++ b ++ [nl]) eq_refl H);
    [|reflexivity].
  rewrite active_push. app_norm.
Qed.

Lemma string_cat_joins_top_two_witness :
  thread_ok [esc "e"; esc "4"] [] = true
  /\ run string_cat (active [esc "e"; esc "4"] []) = active [esc "e4"] [].
Proof.
  split; [reflexivity|].
  exact (string_cat_joins_top_two (esc "e") (esc "4") [] [] eq_refl).
Defined.

(** ** Marked answers: truth values and comparisons *)

Lemma search_exact_hit (r : regex) (l s : str) (b : bool) :
  exact r = Some l -> search r (l ++ s) b false = Some (l, gcaps r []).
Proof.
  intros H. unfold search. rewrite (m_exact r l H). cbn [rest caps at0].
  rewrite strip_prefix_hit. reflexivity.
Qed.

Lemma search_exact_miss (r : regex) (l s : str) (b ma : bool) :
  exact r = Some l -> strip_prefix l s = None -> search r s b ma = None.
Proof.
  intros H Hs. unfold search. rewrite (m_exact r l H). cbn [rest]. rewrite Hs. reflexivity.
Qed.

(** A literal rule anchored on the header, on a thread that starts with its
    text. *)
Lemma sub_exact_hit (r : regex) (t : template) (l l' x s : str) :
  exact r = Some l -> lead r = pct :: l' -> l <> [] -> absent pct s = true ->
  x = l ++ s ->
  sub r t x = expand t (gcaps r []) ++ s.
Proof.
  intros He Hl Hn Hs ->.
  apply (sub_thread_hit_at r t l' (l ++ s) l s (gcaps r []) Hl Hn Hs eq_refl).
  apply search_exact_hit. exact He.
Qed.

Lemma sub_exact_miss (r : regex) (t : template) (l l' x s : str) :
  exact r = Some l -> lead r = pct :: pct :: l' -> absent pct s = true ->
  x = pct :: pct :: s -> strip_prefix l x = None ->
  sub r t x = x.
Proof.
  intros He Hl Hs Hx Hm.
  apply (sub_thread_miss_at r t l' x s Hl Hs Hx).
  apply (search_exact_miss r l x true false He Hm).
Qed.

(** The rule that strips the mark. *)
Lemma strip_tick (u s : str) :
  absent backtick u = true -> absent backtick s = true ->
  sub (lit "`") (tpl "") (u ++ backtick :: s) = u ++ s.
Proof.
  intros Hu Hs. unfold sub.
  rewrite (sub_from_copy (lit "`") (tpl "") backtick [] u eq_refl _ _ Hu). f_equal.
  rewrite (sub_from_hit_at (lit "`") (tpl "") (backtick :: s) [backtick] s []);
    [| discriminate | reflexivity | reflexivity].
  apply (sub_from_absent (lit "`") (tpl "") backtick [] s false eq_refl Hs).
Qed.

Lemma strip_tick_none (s : str) :
  absent backtick s = true -> sub (lit "`") (tpl "") s = s.
Proof. intros H. apply (sub_from_absent (lit "`") (tpl "") backtick [] s true eq_refl H). Qed.

Lemma run3 (i : instruction) (s : str) :
  length i = 3 ->
  run i s = sub (pat 2 i) (repl 2 i) (sub (pat 1 i) (repl 1 i) (sub (pat 0 i) (repl 0 i) s)).
Proof.
  destruct i as [|p0 [|p1 [|p2 [|p3 i]]]]; try discriminate. reflexivity.
Qed.

(** *** [boolean_not] *)

Lemma boolean_not_true (s : str) :
  absent pct s = true -> absent backtick s = true ->
  run boolean_not (header ++ esc "True" ++ [nl] ++ s) = header ++ esc "False" ++ [nl] ++ s.
Proof.
  intros Hp Ht. rewrite (run3 boolean_not) by reflexivity.
  rewrite (sub_exact_hit (pat 0 boolean_not) (repl 0 boolean_not)
             (esc "%%\n#stack:\nTrue\n") (esc "%\n#stack:\nTrue\n") _ s);
    [| reflexivity | reflexivity | discriminate | exact Hp | reflexivity].
  change (expand _ _ ++ s) with (pct :: pct :: esc "\n#stack:\n`False\n" ++ s).
  rewrite (sub_exact_miss (pat 1 boolean_not) (repl 1 boolean_not)
             (esc "%%\n#stack:\nFalse\n") (esc "\n#stack:\nFalse\n") _
             (esc "\n#stack:\n`False\n" ++ s));
    [| reflexivity | reflexivity | rewrite absent_app, Hp; reflexivity
     | reflexivity | reflexivity].
  apply (strip_tick header (esc "False\n" ++ s)); [reflexivity|].
  rewrite absent_app, Ht. reflexivity.
Qed.

Lemma boolean_not_false (s : str) :
  absent pct s = true -> absent backtick s = true ->
  run boolean_not (header ++ esc "False" ++ [nl] ++ s) = header ++ esc "True" ++ [nl] ++ s.
Proof.
  intros Hp Ht. rewrite (run3 boolean_not) by reflexivity.
  rewrite (sub_exact_miss (pat 0 boolean_not) (repl 0 boolean_not)
             (esc "%%\n#stack:\nTrue\n") (esc "\n#stack:\nTrue\n") _
             (esc "\n#stack:\nFalse\n" ++ s));
    [| reflexivity | reflexivity | rewrite absent_app, Hp; reflexivity
     | reflexivity | reflexivity].
  rewrite (sub_exact_hit (pat 1 boolean_not) (repl 1 boolean_not)
             (esc "%%\n#stack:\nFalse\n") (esc "%\n#stack:\nFalse\n") _ s);
    [| reflexivity | reflexivity | discriminate | exact Hp | reflexivity].
  apply (strip_tick header (esc "True\n" ++ s)); [reflexivity|].
  rewrite absent_app, Ht. reflexivity.
Qed.

Lemma boolean_not_text (b : bool) (s : str) :
  absent pct s = true -> absent backtick s = true ->
  run boolean_not (header ++ bool_text b ++ [nl] ++ s)
  = header ++ bool_text (negb b) ++ [nl] ++ s.
Proof.
  destruct b; [apply boolean_not_true|apply boolean_not_false].
Qed.

(** X6.  [boolean_not] negates the truth value on top of the stack, and
    twice [boolean_not] gives it back. *)
Theorem boolean_not_negates (b : bool) (stack : list str) (vars : list (str * str)) :
  thread_ok stack vars = true -> tick_free stack vars = true ->
  run boolean_not (active (bool_text b :: stack) vars)
  = active (bool_text (negb b) :: stack) vars
  /\ run boolean_not (run boolean_not (active (bool_text b :: stack) vars))
     = active (bool_text b :: stack) vars.
Proof.
  intros Hok Ht. rewrite !active_push.
  rewrite !boolean_not_text by (apply body_no_pct; exact Hok) || exact Ht.
  rewrite negb_involutive. split; reflexivity.
Qed.

Lemma boolean_not_negates_witness :
  thread_ok [esc "x"] [(esc "turn", esc "w")] = true
  /\ tick_free [esc "x"] [(esc "turn", esc "w")] = true
  /\ run boolean_not (active [esc "True"; esc "x"] [(esc "turn", esc "w")])
     = active [esc "False"; esc "x"] [(esc "turn", esc "w")]
  /\ run boolean_not (run boolean_not (active [esc "True"; esc "x"] [(esc "turn", esc "w")]))
     = active [esc "True"; esc "x"] [(esc "turn", esc "w")].
Proof.
  split; [reflexivity|]. split; [reflexivity|].
  exact (boolean_not_negates true [esc "x"] [(esc "turn", esc "w")] eq_refl eq_refl).
Defined.

(** *** The rule for any two values *)

(** A captured run that opens with one character of a class: it takes the
    character and all of [v]. *)
Lemma m_step_run1 (g f : ascii -> bool) (a0 a q dl r : regex) (i : nat) (c : ascii)
    (v d : str) (k : cont) (s : str) (cs : captures) (b : bool) :
  single g a0 -> single f a -> exact dl = Some d -> d <> [] -> heads f d = false ->
  g c = true -> forallb f v = true ->
  (forall k' st, m q k' st = k' [] st) ->
  m (Seq (Grp i (Seq a0 (Seq (Star a) q))) (Seq dl r)) k (MS ((c :: v) ++ d ++ s) cs b)
  = m r (fun w st => k ((c :: v) ++ d ++ w) st) (MS s (gcaps dl ((i, c :: v) :: cs)) false).
Proof.
  intros Ha0 Ha Hd Hne Hh Hc Hv Hq.
  rewrite m_seq, m_grp, m_seq, Ha0. cbn [rest caps app]. rewrite Hc.
  rewrite m_seq.
  rewrite (m_star_tries f a v _ (d ++ s) cs false Ha Hv)
    by (rewrite heads_app; assumption).
  rewrite tries_full.
  - cbv beta. rewrite Hq. cbn [rest caps at0]. rewrite app_nil_r.
    rewrite (m_step_exact dl r d _ s _ _ Hd). reflexivity.
  - intros u x v' E. cbv beta. rewrite Hq. cbn [rest caps at0].
    rewrite m_seq, (m_exact dl d Hd). cbn [rest].
    assert (Hx : f x = true).
    { rewrite E in Hv. rewrite forallb_app in Hv. apply andb_true_iff in Hv as [_ Hv].
      simpl in Hv. apply andb_true_iff in Hv as [Hx _]. exact Hx. }
    simpl app. rewrite (strip_prefix_heads f d x _ Hne Hh Hx). reflexivity.
Qed.

(** The second rule of [eq], [boolean_and] and [boolean_or] on two lines,
    the first of them not empty and not marked. *)
Lemma any_two_search (c : ascii) (v w s : str) :
  in_cls true [backtick] c = true -> no_nl v = true -> no_nl w = true ->
  search (pat 1 eq) (header ++ (c :: v) ++ [nl] ++ w ++ [nl] ++ s) true false
  = Some (header ++ (c :: v) ++ [nl] ++ w ++ [nl], [(3, w); (2, c :: v); (1, header)]).
Proof.
  intros Hc Hv Hw. unfold search. norm_rule (pat 1 eq).
  rewrite (m_step_exact _ _ header) by reflexivity.
  rewrite (m_step_run1 (in_cls true [backtick]) (in_cls true [nl]) _ _ _ _ _ 2 c v [nl]);
    [| apply single_cls | apply single_cls | reflexivity | discriminate | reflexivity
     | exact Hc | exact Hv | reflexivity].
  rewrite (m_step_run (in_cls true [nl]) _ _ _ 3 w [nl]);
    [| apply single_cls | reflexivity | discriminate | reflexivity | exact Hw].
  reflexivity.
Qed.

Lemma any_two_marked (s : str) (b ma : bool) :
  search (pat 1 eq) (header ++ backtick :: s) b ma = None.
Proof.
  unfold search. norm_rule (pat 1 eq).
  rewrite (m_step_exact _ _ header) by reflexivity. reflexivity.
Qed.

Lemma any_two_hit (r : regex) (t : template) (c : ascii) (v w s out : str) :
  r = pat 1 eq -> absent pct s = true ->
  in_cls true [backtick] c = true -> no_nl v = true -> no_nl w = true ->
  expand t [(3, w); (2, c :: v); (1, header)] = out ->
  sub r t (header ++ (c :: v) ++ [nl] ++ w ++ [nl] ++ s) = out ++ s.
Proof.
  intros -> Hs Hc Hv Hw Ho.
  rewrite (sub_thread_hit_at _ _ (esc "%\n#stack:\n") _
             (header ++ (c :: v) ++ [nl] ++ w ++ [nl]) s [(3, w); (2, c :: v); (1, header)]);
    [| reflexivity | discriminate | exact Hs | app_norm
     | apply any_two_search; assumption].
  rewrite Ho. reflexivity.
Qed.

Lemma any_two_miss (r : regex) (t : template) (s : str) :
  r = pat 1 eq -> absent pct s = true ->
  sub r t (header ++ backtick :: s) = header ++ backtick :: s.
Proof.
  intros -> Hs.
  apply (sub_thread_miss_at _ _ (esc "\n#stack:\n") _ (esc "\n#stack:\n" ++ backtick :: s)).
  - reflexivity.
  - rewrite absent_app, absent_cons, Hs. reflexivity.
  - reflexivity.
  - apply any_two_marked.
Qed.

Lemma bool_text_shape (b : bool) :
  exists c v, bool_text b = c :: v /\ in_cls true [backtick] c = true /\ no_nl v = true.
Proof.
  destruct b; [exists "T"%char, (esc "rue")|exists "F"%char, (esc "alse")];
    repeat split.
Qed.

Lemma bool_text_no_nl (b : bool) : no_nl (bool_text b) = true.
Proof. destruct b; reflexivity. Qed.

Lemma bool_text_no_tick (b : bool) : absent backtick (bool_text b) = true.
Proof. destruct b; reflexivity. Qed.

(** *** [boolean_and] and [boolean_or] *)

Lemma boolean_and_text (a b : bool) (s : str) :
  absent pct s = true -> absent backtick s = true ->
  run boolean_and (header ++ bool_text a ++ [nl] ++ bool_text b ++ [nl] ++ s)
  = header ++ bool_text (a && b) ++ [nl] ++ s.
Proof.
  intros Hp Ht. rewrite (run3 boolean_and) by reflexivity.
  destruct (a && b) eqn:E.
  - apply andb_true_iff in E as [-> ->].
    rewrite (sub_exact_hit (pat 0 boolean_and) (repl 0 boolean_and)
               (esc "%%\n#stack:\nTrue\nTrue\n") (esc "%\n#stack:\nTrue\nTrue\n") _ s);
      [| reflexivity | reflexivity | discriminate | exact Hp | reflexivity].
    change (expand _ _ ++ s) with (header ++ backtick :: esc "True\n" ++ s).
    rewrite (any_two_miss (pat 1 boolean_and) (repl 1 boolean_and))
      by (reflexivity || (rewrite absent_app, Hp; reflexivity)).
    apply (strip_tick header (esc "True\n" ++ s)); [reflexivity|].
    rewrite absent_app, Ht. reflexivity.
  - rewrite (sub_exact_miss (pat 0 boolean_and) (repl 0 boolean_and)
               (esc "%%\n#stack:\nTrue\nTrue\n") (esc "\n#stack:\nTrue\nTrue\n") _
               (esc "\n#stack:\n" ++ bool_text a ++ [nl] ++ bool_text b ++ [nl] ++ s));
      [| reflexivity | reflexivity
       | rewrite !absent_app, Hp; destruct a, b; reflexivity
       | reflexivity | destruct a, b; try discriminate; reflexivity].
    destruct (bool_text_shape a) as (c & v & Ea & Hc & Hv). rewrite Ea.
    rewrite (any_two_hit (pat 1 boolean_and) (repl 1 boolean_and) c v (bool_text b) s
               (header ++ esc "False\n") eq_refl Hp Hc Hv (bool_text_no_nl b) eq_refl).
    rewrite <- app_assoc.
    apply strip_tick_none. rewrite !absent_app, Ht. reflexivity.
Qed.

Lemma boolean_or_text (a b : bool) (s : str) :
  absent pct s = true -> absent backtick s = true ->
  run boolean_or (header ++ bool_text a ++ [nl] ++ bool_text b ++ [nl] ++ s)
  = header ++ bool_text (a || b) ++ [nl] ++ s.
Proof.
  intros Hp Ht. rewrite (run3 boolean_or) by reflexivity.
  destruct (a || b) eqn:E.
  - rewrite (sub_exact_miss (pat 0 boolean_or) (repl 0 boolean_or)
               (esc "%%\n#stack:\nFalse\nFalse\n") (esc "\n#stack:\nFalse\nFalse\n") _
               (esc "\n#stack:\n" ++ bool_text a ++ [nl] ++ bool_text b ++ [nl] ++ s));
      [| reflexivity | reflexivity
       | rewrite !absent_app, Hp; destruct a, b; reflexivity
       | reflexivity | destruct a, b; try discriminate; reflexivity].
    destruct (bool_text_shape a) as (c & v & Ea & Hc & Hv). rewrite Ea.
    rewrite (any_two_hit (pat 1 boolean_or) (repl 1 boolean_or) c v (bool_text b) s
               (header ++ esc "True\n") eq_refl Hp Hc Hv (bool_text_no_nl b) eq_refl).
    rewrite <- app_assoc.
    apply strip_tick_none. rewrite !absent_app, Ht. reflexivity.
  - apply orb_false_iff in E as [-> ->].
    rewrite (sub_exact_hit (pat 0 boolean_or) (repl 0 boolean_or)
               (esc "%%\n#stack:\nFalse\nFalse\n") (esc "%\n#stack:\nFalse\nFalse\n") _ s);
      [| reflexivity | reflexivity | discriminate | exact Hp | reflexivity].
    change (expand _ _ ++ s) with (header ++ backtick :: esc "False\n" ++ s).
    rewrite (any_two_miss (pat 1 boolean_or) (repl 1 boolean_or))
      by (reflexivity || (rewrite absent_app, Hp; reflexivity)).
    apply (strip_tick header (esc "False\n" ++ s)); [reflexivity|].
    rewrite absent_app, Ht. reflexivity.
Qed.

(** X7.  [boolean_and] and [boolean_or] replace two truth values by their
    conjunction and their disjunction. *)
Theorem boolean_and_or_truth_tables (a b : bool) (stack : list str) (vars : list (str * str)) :
  thread_ok stack vars = true -> tick_free stack vars = true ->
  run boolean_and (active (bool_text a :: bool_text b :: stack) vars)
  = active (bool_text (a && b) :: stack) vars
  /\ run boolean_or (active (bool_text a :: bool_text b :: stack) vars)
     = active (bool_text (a || b) :: stack) vars.
Proof.
  intros Hok Ht. rewrite !active_push, body_push.
  rewrite boolean_and_text, boolean_or_text
    by (apply body_no_pct; exact Hok) || exact Ht.
  split; reflexivity.
Qed.

Lemma boolean_and_or_truth_tables_witness :
  thread_ok [] [(esc "turn", esc "w")] = true
  /\ tick_free [] [(esc "turn", esc "w")] = true
  /\ run boolean_and (active [esc "True"; esc "False"] [(esc "turn", esc "w")])
     = active [esc "False"] [(esc "turn", esc "w")]
  /\ run boolean_or (active [esc "True"; esc "False"] [(esc "turn", esc "w")])
     = active [esc "True"] [(esc "turn", esc "w")].
Proof.
  split; [reflexivity|]. split; [reflexivity|].
  exact (boolean_and_or_truth_tables true false [] [(esc "turn", esc "w")] eq_refl eq_refl).
Defined.

(** *** [eq] *)

Lemma no_nl_not_nl (x : ascii) : in_cls true [nl] x = true -> Ascii.eqb nl x = false.
Proof.
  change (in_cls true [nl] x) with (negb (Ascii.eqb x nl || false)).
  rewrite orb_false_r, Ascii.eqb_sym. intros H. apply negb_true_iff in H. exact H.
Qed.

(** A line-feed-free text that is a prefix of a line and what follows is a
    prefix of the line. *)
Lemma prefix_line (v : str) : forall (w s rest : str),
  no_nl v = true -> strip_prefix v (w ++ nl :: s) = Some rest ->
  exists w', w = v ++ w' /\ rest = w' ++ nl :: s.
Proof.
  induction v as [|x v IH]; intros w s rest Hv H.
  - simpl in H. injection H as <-. exists w. split; reflexivity.
  - simpl in Hv. apply andb_true_iff in Hv as [Hx Hv].
    destruct w as [|y w].
    + simpl in H. rewrite Ascii.eqb_sym, (no_nl_not_nl x Hx) in H. discriminate.
    + simpl in H. destruct (Ascii.eqb_spec x y) as [->|]; [|discriminate].
      destruct (IH w s rest Hv H) as (w' & -> & ->). exists w'. split; reflexivity.
Qed.

(** The backreference to a line, followed by a line feed, on another
    line. *)
Lemma ref_line_miss (i : nat) (v w s : str) (k : cont) (cs : captures) (b : bool) :
  group i cs = Some v -> no_nl v = true -> no_nl w = true -> v <> w ->
  m (Seq (Ref i) (Seq (lit "\n") Eps)) k (MS (w ++ [nl] ++ s) cs b) = None.
Proof.
  intros Hg Hv Hw Hne.
  destruct (strip_prefix v (w ++ [nl] ++ s)) as [rest|] eqn:E;
    [|apply (m_step_ref_miss i _ v); assumption].
  destruct (prefix_line v w s rest Hv E) as (w' & -> & ->).
  destruct w' as [|x w'].
  - rewrite app_nil_r in Hne. contradiction.
  - unfold no_nl in Hw. rewrite forallb_app in Hw. apply andb_true_iff in Hw as [_ Hw].
    simpl in Hw. apply andb_true_iff in Hw as [Hx _].
    rewrite <- app_assoc. rewrite (m_step_ref i _ v) by exact Hg.
    apply (m_step_exact_miss (lit "\n") Eps [nl]); [reflexivity|].
    change (strip_prefix [nl] ((x :: w') ++ [nl] ++ s))
      with (if Ascii.eqb nl x then Some (w' ++ [nl] ++ s) else None).
    rewrite (no_nl_not_nl x Hx). reflexivity.
Qed.

Lemma ref_line_hit (i : nat) (v s : str) (k : cont) (cs : captures) (b : bool) :
  group i cs = Some v ->
  m (Seq (Ref i) (Seq (lit "\n") Eps)) k (MS (v ++ [nl] ++ s) cs b)
  = k (v ++ [nl]) (MS s cs false).
Proof.
  intros Hg. rewrite (m_step_ref i _ v) by exact Hg.
  rewrite (m_step_exact (lit "\n") Eps [nl]) by reflexivity.
  rewrite m_eps. cbn [gcaps lit lits esc cat map fold_right]. rewrite andb_false_r.
  rewrite app_nil_r. reflexivity.
Qed.

Lemma eq_same_search (v s : str) :
  no_nl v = true ->
  search (pat 0 eq) (header ++ v ++ [nl] ++ v ++ [nl] ++ s) true false
  = Some (header ++ v ++ [nl] ++ v ++ [nl], [(2, v); (1, header)]).
Proof.
  intros Hv. unfold search.
  change (pat 0 eq)
    with (Seq stack_hdr (Seq (Grp 2 (Star (nset "\n")))
            (Seq (lit "\n") (Seq (Ref 2) (Seq (lit "\n") Eps))))).
  rewrite (m_step_exact _ _ header) by reflexivity.
  rewrite (m_step_run (in_cls true [nl]) _ _ _ 2 v [nl]);
    [| apply single_cls | reflexivity | discriminate | reflexivity | exact Hv].
  rewrite (ref_line_hit 2 v s) by reflexivity.
  reflexivity.
Qed.

Lemma eq_differ_search (v w s : str) :
  no_nl v = true -> no_nl w = true -> v <> w ->
  search (pat 0 eq) (header ++ v ++ [nl] ++ w ++ [nl] ++ s) true false = None.
Proof.
  intros Hv Hw Hne. unfold search.
  change (pat 0 eq)
    with (Seq stack_hdr (Seq (Grp 2 (Star (nset "\n")))
            (Seq (lit "\n") (Seq (Ref 2) (Seq (lit "\n") Eps))))).
  rewrite (m_step_exact _ _ header) by reflexivity.
  rewrite (m_step_run (in_cls true [nl]) _ _ _ 2 v [nl]);
    [| apply single_cls | reflexivity | discriminate | reflexivity | exact Hv].
  apply (ref_line_miss 2 v w s); [reflexivity|assumption|assumption|assumption].
Qed.

Lemma eq_same_text (v s : str) :
  no_nl v = true -> absent pct s = true -> absent backtick s = true ->
  run eq (header ++ v ++ [nl] ++ v ++ [nl] ++ s) = header ++ esc "True" ++ [nl] ++ s.
Proof.
  intros Hv Hp Ht. rewrite (run3 eq) by reflexivity.
  rewrite (sub_thread_hit_at (pat 0 eq) (repl 0 eq) (esc "%\n#stack:\n") _
             (header ++ v ++ [nl] ++ v ++ [nl]) s [(2, v); (1, header)]);
    [| reflexivity | discriminate | exact Hp | app_norm | apply eq_same_search; exact Hv].
  change (expand _ _ ++ s) with (header ++ backtick :: esc "True\n" ++ s).
  rewrite (any_two_miss (pat 1 eq) (repl 1 eq))
    by (reflexivity || (rewrite absent_app, Hp; reflexivity)).
  apply (strip_tick header (esc "True\n" ++ s)); [reflexivity|].
  rewrite absent_app, Ht. reflexivity.
Qed.

Lemma eq_differ_text (c : ascii) (v w s : str) :
  no_nl (c :: v) = true -> no_nl w = true -> c :: v <> w ->
  absent pct (c :: v) = true -> absent pct w = true -> absent pct s = true ->
  in_cls true [backtick] c = true -> absent backtick s = true ->
  run eq (header ++ (c :: v) ++ [nl] ++ w ++ [nl] ++ s) = header ++ esc "False" ++ [nl] ++ s.
Proof.
  intros Hv Hw Hne Hpv Hpw Hp Hc Ht. rewrite (run3 eq) by reflexivity.
  rewrite (sub_thread_miss_at (pat 0 eq) (repl 0 eq) (esc "\n#stack:\n") _
             (esc "\n#stack:\n" ++ (c :: v) ++ [nl] ++ w ++ [nl] ++ s));
    [| reflexivity | rewrite !absent_app, Hpv, Hpw, Hp; reflexivity | reflexivity
     | apply eq_differ_search; assumption].
  assert (Hv' : no_nl v = true).
  { simpl in Hv. apply andb_true_iff in Hv as [_ Hv]. exact Hv. }
  rewrite (any_two_hit (pat 1 eq) (repl 1 eq) c v w s
             (header ++ esc "False\n") eq_refl Hp Hc Hv' Hw eq_refl).
  rewrite <- app_assoc.
  apply strip_tick_none. rewrite !absent_app, Ht. reflexivity.
Qed.

Lemma tick_free_cons (v : str) (stack : list str) (vars : list (str * str)) :
  tick_free (v :: stack) vars = absent backtick v && tick_free stack vars.
Proof.
  unfold tick_free. rewrite body_push, !absent_app.
  change (absent backtick [nl]) with true. reflexivity.
Qed.

(** X8.  [eq] replaces the two topmost values by [True] when they are the
    same text, and by [False] when they differ and the top one is not
    empty. *)
Theorem eq_compares_top_two (v w : str) (stack : list str) (vars : list (str * str)) :
  thread_ok (v :: w :: stack) vars = true ->
  tick_free (v :: w :: stack) vars = true ->
  (v = w -> run eq (active (v :: w :: stack) vars) = active (esc "True" :: stack) vars)
  /\ (v <> w -> v <> [] ->
      run eq (active (v :: w :: stack) vars) = active (esc "False" :: stack) vars).
Proof.
  intros Hok Ht. rewrite !thread_ok_cons in Hok. rewrite !tick_free_cons in Ht.
  apply andb_true_iff in Hok as [Hv Hok]. apply andb_true_iff in Hok as [Hw Hok].
  apply andb_true_iff in Ht as [Tv Ht]. apply andb_true_iff in Ht as [Tw Ht].
  rewrite !active_push, body_push. split.
  - intros <-. apply eq_same_text;
      [apply value_no_nl; exact Hv|apply body_no_pct; exact Hok|exact Ht].
  - intros Hne Hn. destruct v as [|c v]; [contradiction|].
    apply eq_differ_text; try assumption.
    + apply value_no_nl; exact Hv.
    + apply value_no_nl; exact Hw.
    + apply value_no_pct; exact Hv.
    + apply value_no_pct; exact Hw.
    + apply body_no_pct; exact Hok.
    + rewrite absent_cons in Tv. apply andb_true_iff in Tv as [Tc _].
      change (in_cls true [backtick] c) with (negb (Ascii.eqb c backtick || false)).
      rewrite orb_false_r, Ascii.eqb_sym. exact Tc.
Qed.

Lemma eq_compares_top_two_witness :
  thread_ok [esc "e2"; esc "e4"; esc "x"] [] = true
  /\ tick_free [esc "e2"; esc "e4"; esc "x"] [] = true
  /\ (esc "e2" = esc "e4" ->
      run eq (active [esc "e2"; esc "e4"; esc "x"] []) = active [esc "True"; esc "x"] [])
  /\ (esc "e2" <> esc "e4" -> esc "e2" <> [] ->
      run eq (active [esc "e2"; esc "e4"; esc "x"] []) = active [esc "False"; esc "x"] []).
Proof.
  split; [reflexivity|]. split; [reflexivity|].
  exact (eq_compares_top_two (esc "e2") (esc "e4") [esc "x"] [] eq_refl eq_refl).
Defined.

(** *** [greater_than] and the comparisons built on it *)

Lemma all_A (w : str) : forallb is_A w = true -> w = unary (length w).
Proof.
  induction w as [|x w IH]; [reflexivity|]. simpl. intros H.
  apply andb_true_iff in H as [Hx Hw]. apply Ascii.eqb_eq in Hx. subst x.
  change (unary (S (length w))) with (A :: unary (length w)). rewrite <- (IH Hw).
  reflexivity.
Qed.

Lemma unary_split (x : nat) (u v : str) :
  unary x = u ++ v ->
  u = unary (length u) /\ v = unary (length v) /\ x = length u + length v.
Proof.
  intros E. pose proof (unary_is_A x) as H. rewrite E, forallb_app in H.
  apply andb_true_iff in H as [Hu Hv].
  split; [apply all_A; exact Hu|]. split; [apply all_A; exact Hv|].
  apply (f_equal (@length ascii)) in E. rewrite unary_length, length_app in E. exact E.
Qed.

Lemma unary_inj (a b : nat) : unary a = unary b -> a = b.
Proof. intros H. apply (f_equal (@length ascii)) in H. rewrite !unary_length in H. exact H. Qed.

Lemma unary_no_nl (n : nat) : no_nl (unary n) = true.
Proof. induction n as [|n IH]; [reflexivity|]. simpl. exact IH. Qed.

(** A captured run of at least one [a], closed by a literal the run cannot
    contain. *)
Lemma m_step_plus (f : ascii -> bool) (a dl r : regex) (i : nat) (c : ascii)
    (v d : str) (k : cont) (s : str) (cs : captures) (b : bool) :
  single f a -> exact dl = Some d -> d <> [] -> heads f d = false ->
  f c = true -> forallb f v = true ->
  m (Seq (Grp i (Seq a (Star a))) (Seq dl r)) k (MS ((c :: v) ++ d ++ s) cs b)
  = m r (fun w st => k ((c :: v) ++ d ++ w) st) (MS s (gcaps dl ((i, c :: v) :: cs)) false).
Proof.
  intros Ha Hd Hne Hh Hc Hv.
  rewrite m_seq, m_grp, m_seq, Ha. cbn [rest caps app]. rewrite Hc.
  rewrite (m_star_tries f a v _ (d ++ s) cs false Ha Hv)
    by (rewrite heads_app; assumption).
  rewrite tries_full.
  - cbv beta. cbn [rest caps at0].
    rewrite (m_step_exact dl r d _ s _ _ Hd). reflexivity.
  - intros u x v' E. cbv beta. cbn [rest caps at0].
    rewrite m_seq, (m_exact dl d Hd). cbn [rest].
    assert (Hx : f x = true).
    { rewrite E in Hv. rewrite forallb_app in Hv. apply andb_true_iff in Hv as [_ Hv].
      simpl in Hv. apply andb_true_iff in Hv as [Hx _]. exact Hx. }
    simpl app. rewrite (strip_prefix_heads f d x _ Hne Hh Hx). reflexivity.
Qed.

Lemma gt_tail_hit (d y : nat) (s : str) (k : cont) (cs : captures) (b : bool) :
  m gt_tail k (MS (unary (S d) ++ [nl] ++ unary y ++ [nl] ++ s) ((2, unary y) :: cs) b)
  = k (unary (S d) ++ [nl] ++ unary y ++ [nl])
      (MS s ((3, unary (S d)) :: (2, unary y) :: cs) false).
Proof.
  unfold gt_tail, plus.
  rewrite (m_step_plus is_A _ _ _ 3 A (unary d) [nl]);
    [| apply single_A | reflexivity | discriminate | reflexivity | reflexivity
     | apply unary_is_A].
  rewrite (ref_line_hit 2 (unary y) s) by reflexivity.
  reflexivity.
Qed.

Lemma gt_tail_miss (j d y : nat) (s : str) (k : cont) (cs : captures) (b : bool) :
  d = 0 \/ j <> y ->
  m gt_tail k (MS (unary d ++ [nl] ++ unary y ++ [nl] ++ s) ((2, unary j) :: cs) b) = None.
Proof.
  intros H. unfold gt_tail, plus. destruct d as [|d].
  - rewrite m_seq, m_grp, m_seq, single_A. reflexivity.
  - destruct H as [H|H]; [discriminate|].
    rewrite (m_step_plus is_A _ _ _ 3 A (unary d) [nl]);
      [| apply single_A | reflexivity | discriminate | reflexivity | reflexivity
       | apply unary_is_A].
    apply (ref_line_miss 2 (unary j) (unary y) s);
      [reflexivity|apply unary_no_nl|apply unary_no_nl|].
    intros E. apply H. apply unary_inj. exact E.
Qed.

Lemma greater_than_pat :
  pat 0 greater_than = Seq stack_hdr (Seq (Grp 2 (Star (lit "A"))) gt_tail).
Proof. reflexivity. Qed.

Lemma gt_search_hit (x y : nat) (s : str) :
  y < x ->
  search (pat 0 greater_than) (header ++ unary x ++ [nl] ++ unary y ++ [nl] ++ s) true false
  = Some (header ++ unary x ++ [nl] ++ unary y ++ [nl],
          [(3, unary (x - y)); (2, unary y); (1, header)]).
Proof.
  intros H. unfold search. rewrite greater_than_pat.
  rewrite (m_step_exact _ _ header) by reflexivity.
  rewrite m_seq, m_grp.
  rewrite (m_star_tries is_A _ (unary x) _ ([nl] ++ unary y ++ [nl] ++ s) _ _ single_A
             (unary_is_A x) eq_refl).
  rewrite (tries_unique (unary x) _ (unary y) (unary (x - y))).
  - cbv beta. cbn [rest caps at0].
    destruct (x - y) as [|d] eqn:E; [lia|].
    rewrite gt_tail_hit. cbv beta. cbn [caps].
    replace x with (y + S d) by lia. rewrite unary_add, <- !app_assoc. reflexivity.
  - rewrite <- unary_add. f_equal. lia.
  - intros u v E Hu. cbv beta. cbn [rest caps at0].
    destruct (unary_split x u v E) as (Eu & Ev & Ex).
    rewrite Eu, Ev. apply gt_tail_miss.
    destruct (length v) as [|d]; [left; reflexivity|right].
    intros Ej. apply Hu. rewrite Eu, Ej. reflexivity.
Qed.

Lemma gt_search_miss (x y : nat) (s : str) :
  x <= y ->
  search (pat 0 greater_than) (header ++ unary x ++ [nl] ++ unary y ++ [nl] ++ s) true false
  = None.
Proof.
  intros H. unfold search. rewrite greater_than_pat.
  rewrite (m_step_exact _ _ header) by reflexivity.
  rewrite m_seq, m_grp.
  rewrite (m_star_tries is_A _ (unary x) _ ([nl] ++ unary y ++ [nl] ++ s) _ _ single_A
             (unary_is_A x) eq_refl).
  apply tries_none. intros u v E. cbv beta. cbn [rest caps at0].
  destruct (unary_split x u v E) as (Eu & Ev & Ex).
  rewrite Eu, Ev. apply gt_tail_miss.
  destruct (length v) as [|d]; [left; reflexivity|right]. lia.
Qed.

Lemma unary_plain (n : nat) : forallb (in_cls true (esc "`\n")) (unary n) = true.
Proof. induction n as [|n IH]; [reflexivity|]. simpl. exact IH. Qed.

Lemma gt_else_search (x y : nat) (s : str) :
  search (pat 1 greater_than) (header ++ unary x ++ [nl] ++ unary y ++ [nl] ++ s) true false
  = Some (header ++ unary x ++ [nl] ++ unary y ++ [nl],
          [(3, unary y); (2, unary x); (1, header)]).
Proof.
  unfold search. norm_rule (pat 1 greater_than).
  rewrite (m_step_exact _ _ header) by reflexivity.
  rewrite (m_step_run (in_cls true (esc "`\n")) _ _ _ 2 (unary x) [nl]);
    [| apply single_cls | reflexivity | discriminate | reflexivity | apply unary_plain].
  rewrite (m_step_run (in_cls true [nl]) _ _ _ 3 (unary y) [nl]);
    [| apply single_cls | reflexivity | discriminate | reflexivity | apply unary_no_nl].
  reflexivity.
Qed.

Lemma gt_else_marked (s : str) :
  search (pat 1 greater_than) (header ++ backtick :: s) true false = None.
Proof.
  unfold search. norm_rule (pat 1 greater_than).
  rewrite (m_step_exact _ _ header) by reflexivity.
  apply (m_step_run_miss (in_cls true (esc "`\n")) _ _ _ 2 [] [nl]);
    [apply single_cls | reflexivity | discriminate | reflexivity | reflexivity
    | reflexivity | reflexivity].
Qed.

Lemma greater_than_text (x y : nat) (s : str) :
  absent pct s = true -> absent backtick s = true ->
  run greater_than (header ++ unary x ++ [nl] ++ unary y ++ [nl] ++ s)
  = header ++ bool_text (Nat.ltb y x) ++ [nl] ++ s.
Proof.
  intros Hp Ht. rewrite (run3 greater_than) by reflexivity.
  destruct (Nat.ltb_spec y x) as [H|H].
  - rewrite (sub_thread_hit_at (pat 0 greater_than) (repl 0 greater_than)
               (esc "%\n#stack:\n") _
               (header ++ unary x ++ [nl] ++ unary y ++ [nl]) s
               [(3, unary (x - y)); (2, unary y); (1, header)]);
      [| reflexivity | discriminate | exact Hp | app_norm | apply gt_search_hit; exact H].
    change (expand _ _ ++ s) with (header ++ backtick :: esc "True\n" ++ s).
    rewrite (sub_thread_miss_at (pat 1 greater_than) (repl 1 greater_than)
               (esc "\n#stack:\n") _ (esc "\n#stack:\n" ++ backtick :: esc "True\n" ++ s));
      [| reflexivity | rewrite !absent_app, absent_cons, absent_app, Hp; reflexivity
       | reflexivity | apply gt_else_marked].
    apply (strip_tick header (esc "True\n" ++ s)); [reflexivity|].
    rewrite absent_app, Ht. reflexivity.
  - rewrite (sub_thread_miss_at (pat 0 greater_than) (repl 0 greater_than)
               (esc "\n#stack:\n") _
               (esc "\n#stack:\n" ++ unary x ++ [nl] ++ unary y ++ [nl] ++ s));
      [| reflexivity
       | rewrite !absent_app, Hp, !unary_absent by reflexivity; reflexivity
       | reflexivity | apply gt_search_miss; exact H].
    rewrite (sub_thread_hit_at (pat 1 greater_than) (repl 1 greater_than)
               (esc "%\n#stack:\n") _
               (header ++ unary x ++ [nl] ++ unary y ++ [nl]) s
               [(3, unary y); (2, unary x); (1, header)]);
      [| reflexivity | discriminate | exact Hp | app_norm | apply gt_else_search].
    change (expand _ _ ++ s) with (header ++ esc "False\n" ++ s).
    apply strip_tick_none. rewrite !absent_app, Ht. reflexivity.
Qed.

(** X9.  [greater_than] on two numbers in unary, [x] on top of [y], leaves
    [True] when [y < x] and [False] otherwise. *)
Theorem greater_than_decides (x y : nat) (stack : list str) (vars : list (str * str)) :
  thread_ok stack vars = true -> tick_free stack vars = true ->
  run greater_than (active (unary x :: unary y :: stack) vars)
  = active (bool_text (Nat.ltb y x) :: stack) vars.
Proof.
  intros Hok Ht. rewrite !active_push, body_push.
  apply greater_than_text; [apply body_no_pct; exact Hok|exact Ht].
Qed.

Lemma greater_than_decides_witness :
  thread_ok [] [(esc "turn", esc "w")] = true
  /\ tick_free [] [(esc "turn", esc "w")] = true
  /\ run greater_than (active [unary 3; unary 2] [(esc "turn", esc "w")])
     = active [esc "True"] [(esc "turn", esc "w")].
Proof.
  split; [reflexivity|]. split; [reflexivity|].
  exact (greater_than_decides 3 2 [] [(esc "turn", esc "w")] eq_refl eq_refl).
Defined.
